(** * MtgCalc: the mortgage service over binary64 numbers

    A shallow embedding of the helpers [roundToCents] and [validateNumber]
    (the module that the service requires as [../utils/mathUtils]; its text
    is the second part of [backend/src/middleware/logger.js]) and of
    [backend/src/services/mortgageService.js]
    ([calculatePrincipalAndInterest], [calculateMonthlyPayment],
    [generateAmortizationSchedule], [calculateAPR], [getLoanSummary],
    [findBestLoan]); then of the other helpers of mathUtils, of the
    [AppError] and the [validateNumber] of [backend/src/utils/errorUtils.js],
    of the request logging of [logger.js] and of the handlers of
    [backend/src/controllers/mortgageController.js].

    A JavaScript number is an IEEE 754 binary64 value; it is embedded as a
    primitive [float], whose operations are specified against [SpecFloat]
    by the standard library.  [===], [<] and [<=] on numbers are [=?], [<?]
    and [<=?] of [PrimFloat].

    The statements on rounding (conservation of the principal, agreement of
    the totals, rounding to cents) rest on an error analysis of the
    binary64 operations, which the last parts of the file derive from
    [SpecFloat]: each operation returns its exact result to within a
    relative error of [2^-53] and an absolute error of [2^-1075], or
    overflows. *)

From Stdlib Require Import ZArith QArith Qabs Qpower Lqa Bool List Lia Floats
  String.
From Stdlib Require Uint63 DecimalString.
Import ListNotations.

#[local] Open Scope float_scope.

(* Decimal literals denote the nearest binary64 value, as in JavaScript. *)
#[local] Set Warnings "-inexact-float".

(** ** Values, errors and results *)

Abbreviation number := float (only parsing).

(** What [typeof] distinguishes of a JavaScript value. *)
Inductive value : Type :=
| VNumber (x : number)
| VUndefined
| VNull
| VBoolean (b : bool)
| VString (s : string).

Coercion VNumber : number >-> value.

(** The message of an [AppError] of [validateNumber]; the constructors stand
    for the four template strings, the field name being their first
    argument:
    - [MustBeValidNumber f]: "f must be a valid number"
    - [CannotBeZero f]: "f cannot be zero"
    - [CannotBeLessThan f min]: "f cannot be less than min"
    - [CannotBeGreaterThan f max]: "f cannot be greater than max". *)
Inductive Message : Type :=
| MustBeValidNumber (fieldName : string)
| CannotBeZero (fieldName : string)
| CannotBeLessThan (fieldName : string) (min : number)
| CannotBeGreaterThan (fieldName : string) (max : number).

Record AppError : Type := mkAppError { message : Message; statusCode : Z }.

(** A call returns or throws; [E] is what it can throw. *)
Inductive outcome (E A : Type) : Type :=
| Ok (a : A)
| Throw (e : E).

Arguments Ok {E A} a.
Arguments Throw {E A} e.

(** Most functions throw nothing but an [AppError]. *)
Definition result (A : Type) : Type := outcome AppError A.

(** [getLoanSummary] throws an [AppError] or, out of [calculatePayoffDate],
    the RangeError ("Invalid time value") of [toISOString]. *)
Inductive Exception : Type :=
| OfAppError (e : AppError)
| RangeError.

Definition bind {E A B : Type} (r : outcome E A) (k : A -> outcome E B)
  : outcome E B :=
  match r with
  | Ok a => k a
  | Throw e => Throw e
  end.

Notation "x <- r ;; k" := (bind r (fun x => k))
  (at level 61, r at next level, right associativity).

(** ** Built-ins *)

(** [isNaN] and [isFinite] on numbers are [is_nan] and [is_finite]. *)

(** The whole number [n] as a number; exact for [0 <= n < 2^53]. *)
Definition Z2F (n : Z) : number := of_uint63 (Uint63.of_Z n).

(** [Math.round]: the integral number nearest [x], ties towards +Infinity;
    NaN, the infinities, the zeros and integral numbers are returned as they
    are, and a result that rounds a negative number to zero is -0.  For
    [x = (-1)^s * m * 2^e] with [e < 0] the result is
    [floor (x + 1/2)], computed on the integers. *)
Definition Math_round (x : number) : number :=
  match Prim2SF x with
  | S754_finite s m e =>
      if (0 <=? e)%Z then x
      else
        let half := (2 ^ (- e - 1))%Z in
        if s then - Z2F (Z.shiftr (Zpos m + half - 1) (- e))
        else Z2F (Z.shiftr (Zpos m + half) (- e))
  | _ => x
  end.

Definition Math_abs (x : number) : number := abs x.

(** A truthy number is neither a zero nor NaN. *)
Definition truthy (x : number) : bool := negb (is_nan x || (x =? 0)).

(** [x || 0] for a parameter that is a number or absent. *)
Definition orZero (o : option number) : number :=
  match o with
  | Some x => if truthy x then x else 0
  | None => 0
  end.

(** ** mathUtils.js *)

Definition roundToCents (v : value) : number :=
  match v with
  | VNumber x => if is_nan x then 0 else Math_round (x * 100) / 100
  | _ => 0
  end.

(** [validateNumber (value, fieldName, options = {})].  [true], its only
    return value, is replaced by the number that was checked, which the
    callers go on to use. *)
Record Options : Type := mkOptions { min : number; max : number; allowZero : bool }.

Definition defaultOptions : Options :=
  {| min := 0; max := infinity; allowZero := true |}.

Definition validateNumber (v : value) (fieldName : string) (options : Options)
  : result number :=
  match v with
  | VNumber x =>
      if is_nan x || negb (is_finite x) then
        Throw (mkAppError (MustBeValidNumber fieldName) 400)
      else if negb (allowZero options) && (x =? 0) then
        Throw (mkAppError (CannotBeZero fieldName) 400)
      else if x <? min options then
        Throw (mkAppError (CannotBeLessThan fieldName (min options)) 400)
      else if max options <? x then
        Throw (mkAppError (CannotBeGreaterThan fieldName (max options)) 400)
      else Ok x
  | _ => Throw (mkAppError (MustBeValidNumber fieldName) 400)
  end.

(** ** Object literals

    [getLoanSummary] writes its [totals] as an object literal in which the
    key [totalPayments] occurs twice.  An object literal defines its
    properties from left to right, and defining a key again replaces the
    value and keeps the place of the key; so such an object is embedded as
    the list of its properties, built by [objectLiteral]. *)
Definition object : Type := list (string * number).

Fixpoint defineProperty (o : object) (key : string) (v : number) : object :=
  match o with
  | [] => [(key, v)]
  | (key', v') :: o' =>
      if String.eqb key key' then (key', v) :: o'
      else (key', v') :: defineProperty o' key v
  end.

Definition objectLiteral (properties : list (string * number)) : object :=
  fold_left (fun o kv => defineProperty o (fst kv) (snd kv)) properties [].

(** [o.key]; [None] stands for [undefined]. *)
Fixpoint get (o : object) (key : string) : option number :=
  match o with
  | [] => None
  | (key', v) :: o' => if String.eqb key key' then Some v else get o' key
  end.

(** [a < b] where a side may be [undefined], which compares as NaN. *)
Definition lessThan (a b : option number) : bool :=
  match a, b with
  | Some x, Some y => x <? y
  | _, _ => false
  end.

(** The number that a value is, once [validateNumber] has accepted it. *)
Definition numberOf (v : value) : number :=
  match v with
  | VNumber x => x
  | _ => nan
  end.

(** ** mortgageService.js *)

Section MortgageService.

(** [Math.pow].  ECMAScript leaves its result implementation-approximated,
    so the service is embedded over an arbitrary [Math_pow]. *)
Variable Math_pow : number -> number -> number.

Definition calculatePrincipalAndInterest (loanAmount annualRate termYears : value)
  : result number :=
  loanAmount <- validateNumber loanAmount "Loan amount" defaultOptions ;;
  annualRate <- validateNumber annualRate "Interest rate" defaultOptions ;;
  termYears <- validateNumber termYears "Loan term" defaultOptions ;;
  if annualRate =? 0 then
    Ok (roundToCents (loanAmount / (termYears * 12)))
  else
    let monthlyRate := annualRate / 100 / 12 in
    let numPayments := termYears * 12 in
    let monthlyPayment :=
      loanAmount *
      (monthlyRate * Math_pow (1 + monthlyRate) numPayments) /
      (Math_pow (1 + monthlyRate) numPayments - 1) in
    Ok (roundToCents monthlyPayment).

(** [calculateMonthlyPayment]; the optional costs are numbers or absent. *)
Record Breakdown : Type := mkBreakdown {
  bd_principal : number;
  bd_interest : number;
  bd_propertyTax : number;
  bd_insurance : number;
  bd_pmi : number;
  bd_hoaFees : number
}.

Record MonthlyPayment : Type := mkMonthlyPayment {
  principalAndInterest : number;
  propertyTax : number;
  insurance : number;
  pmi : number;
  hoaFees : number;
  totalMonthlyPayment : number;
  breakdown : Breakdown
}.

Definition calculateMonthlyPayment (loanAmount interestRate loanTerm : value)
    (propertyTax insurance pmi hoaFees : option number) : result MonthlyPayment :=
  principalAndInterest <-
    calculatePrincipalAndInterest loanAmount interestRate loanTerm ;;
  let monthlyPropertyTax := roundToCents (orZero propertyTax / 12) in
  let monthlyInsurance := roundToCents (orZero insurance / 12) in
  let monthlyPMI := roundToCents (orZero pmi) in
  let monthlyHOA := roundToCents (orZero hoaFees) in
  let totalMonthlyPayment :=
    principalAndInterest + monthlyPropertyTax +
    monthlyInsurance + monthlyPMI + monthlyHOA in
  Ok {| principalAndInterest := principalAndInterest;
        propertyTax := monthlyPropertyTax;
        insurance := monthlyInsurance;
        pmi := monthlyPMI;
        hoaFees := monthlyHOA;
        totalMonthlyPayment := roundToCents totalMonthlyPayment;
        breakdown :=
          {| bd_principal := principalAndInterest;
             bd_interest := 0;
             bd_propertyTax := monthlyPropertyTax;
             bd_insurance := monthlyInsurance;
             bd_pmi := monthlyPMI;
             bd_hoaFees := monthlyHOA |} |}.

(** One row of the amortization schedule.  [paymentNumber] counts 1, 2, 3,
    ...; these values are exact in binary64 below 2^53, so the counter is
    kept as an integer and injected with [Z2F] where the code compares it
    with [numPayments]. *)
Record Entry : Type := mkEntry {
  paymentNumber : Z;
  paymentAmount : number;
  principalPayment : number;
  interestPayment : number;
  remainingBalance : number;
  cumulativePrincipal : number;
  cumulativeInterest : number
}.

(** [array.reduce ((sum, p) => sum + f p, 0)]. *)
Definition sumOf {A : Type} (f : A -> number) (l : list A) : number :=
  fold_left (fun sum p => sum + f p) l 0.

(** The body of the [for] loop of [generateAmortizationSchedule] for one
    [paymentNumber]: the entry pushed and the new balance. *)
Definition scheduleStep (loanAmount monthlyPayment monthlyRate numPayments : number)
    (paymentNumber : Z) (balance : number) (schedule : list Entry) : Entry :=
  let interestPayment' := roundToCents (balance * monthlyRate) in
  let principalPayment' := roundToCents (monthlyPayment - interestPayment') in
  let principalPayment' :=
    if (Z2F paymentNumber =? numPayments) || (balance <? principalPayment')
    then balance else principalPayment' in
  let balance := roundToCents (balance - principalPayment') in
  {| paymentNumber := paymentNumber;
     paymentAmount := roundToCents (principalPayment' + interestPayment');
     principalPayment := principalPayment';
     interestPayment := interestPayment';
     remainingBalance := balance;
     cumulativePrincipal := roundToCents (loanAmount - balance);
     cumulativeInterest := sumOf interestPayment schedule + interestPayment' |}.

(** The [for] loop itself, from [paymentNumber] on; [fuel] bounds the number
    of iterations ([None]: still running when it is used up). *)
Fixpoint scheduleLoop (fuel : nat)
    (loanAmount monthlyPayment monthlyRate numPayments : number)
    (paymentNumber : Z) (balance : number) (schedule : list Entry)
  : option (list Entry) :=
  match fuel with
  | O => None
  | S fuel =>
      if Z2F paymentNumber <=? numPayments then
        let entry := scheduleStep loanAmount monthlyPayment monthlyRate
                       numPayments paymentNumber balance schedule in
        let balance := remainingBalance entry in
        let schedule := schedule ++ [entry] in
        if balance <=? 0 then Some schedule
        else scheduleLoop fuel loanAmount monthlyPayment monthlyRate
               numPayments (paymentNumber + 1)%Z balance schedule
      else Some schedule
  end.

Definition generateAmortizationSchedule (fuel : nat)
    (loanAmount interestRate loanTerm : value) : option (result (list Entry)) :=
  match
    (loanAmount' <- validateNumber loanAmount "Loan amount" defaultOptions ;;
     interestRate' <- validateNumber interestRate "Interest rate" defaultOptions ;;
     loanTerm' <- validateNumber loanTerm "Loan term" defaultOptions ;;
     monthlyPayment <-
       calculatePrincipalAndInterest loanAmount interestRate loanTerm ;;
     Ok (loanAmount', interestRate', loanTerm', monthlyPayment))
  with
  | Throw e => Some (Throw e)
  | Ok (loanAmount, interestRate, loanTerm, monthlyPayment) =>
      let monthlyRate := interestRate / 100 / 12 in
      let numPayments := loanTerm * 12 in
      option_map Ok
        (scheduleLoop fuel loanAmount monthlyPayment monthlyRate numPayments
           1%Z loanAmount [])
  end.

(** One Newton-Raphson step of [calculateAPR]: [None] stands for [break]. *)
Definition aprStep (monthlyPayment adjustedLoanAmount loanTerm apr : number)
  : option number :=
  let tolerance := 0.0001 in
  let monthlyAPR := apr / 100 / 12 in
  let numPayments := loanTerm * 12 in
  let pv :=
    monthlyPayment * (1 - Math_pow (1 + monthlyAPR) (- numPayments)) / monthlyAPR in
  let error := pv - adjustedLoanAmount in
  if Math_abs error <? tolerance then None
  else
    let derivative :=
      - monthlyPayment * (
        (1 - Math_pow (1 + monthlyAPR) (- numPayments)) / Math_pow monthlyAPR 2 -
        numPayments * Math_pow (1 + monthlyAPR) (- numPayments - 1) / monthlyAPR
      ) / 1200 in
    Some (apr - error / derivative).

(** The loop [for (let i = 0; i < maxIterations; i++)], [iterations] being
    the number of values of [i] still to come. *)
Fixpoint aprLoop (iterations : nat)
    (monthlyPayment adjustedLoanAmount loanTerm apr : number) : number :=
  match iterations with
  | O => apr
  | S iterations =>
      match aprStep monthlyPayment adjustedLoanAmount loanTerm apr with
      | None => apr
      | Some apr =>
          aprLoop iterations monthlyPayment adjustedLoanAmount loanTerm apr
      end
  end.

Definition maxIterations : nat := 100.

(** [calculateAPR]; [fees] is a number or absent. *)
Definition calculateAPR (loanAmount interestRate loanTerm : value)
    (fees : option number) : result number :=
  loanAmount' <- validateNumber loanAmount "Loan amount" defaultOptions ;;
  interestRate' <- validateNumber interestRate "Interest rate" defaultOptions ;;
  loanTerm' <- validateNumber loanTerm "Loan term" defaultOptions ;;
  match fees with
  | None => Ok (roundToCents interestRate')
  | Some fees =>
      if negb (truthy fees) || (fees =? 0) then Ok (roundToCents interestRate')
      else
        let adjustedLoanAmount := loanAmount' - fees in
        monthlyPayment <-
          calculatePrincipalAndInterest loanAmount interestRate loanTerm ;;
        Ok (roundToCents
              (aprLoop maxIterations monthlyPayment adjustedLoanAmount
                 loanTerm' interestRate'))
  end.

(** [calculatePayoffDate] reads the clock ([new Date ()]), moves the date by
    [loanTermYears] years and formats it; [toISOString] throws a RangeError
    when that date is invalid, which it is once the year leaves the range of
    [Date] (beyond the year 275760).  The function and the type of its
    result are kept abstract; [None] stands for the RangeError. *)
Variable PayoffDate : Type.
Variable calculatePayoffDate : number -> option PayoffDate.

Record LoanDetails : Type := mkLoanDetails {
  ld_loanAmount : number;
  ld_interestRate : number;
  ld_apr : number;
  ld_loanTerm : number;
  ld_fees : number
}.

(** [monthlyPaymentToIncome] is always [null], here [None]. *)
Record Percentages : Type := mkPercentages {
  interestPercentage : number;
  monthlyPaymentToIncome : option number
}.

Record LoanSummary : Type := mkLoanSummary {
  loanDetails : LoanDetails;
  monthlyPayment : MonthlyPayment;
  totals : object;
  percentages : Percentages;
  payoffDate : PayoffDate;
  firstPaymentBreakdown : option Entry
}.

Definition getLoanSummary (fuel : nat) (loanAmount interestRate loanTerm : value)
    (propertyTax insurance pmi hoaFees fees : option number)
  : option (outcome Exception LoanSummary) :=
  match calculateMonthlyPayment loanAmount interestRate loanTerm
          propertyTax insurance pmi hoaFees with
  | Throw e => Some (Throw (OfAppError e))
  | Ok monthlyPayment =>
      match generateAmortizationSchedule fuel loanAmount interestRate loanTerm with
      | None => None
      | Some (Throw e) => Some (Throw (OfAppError e))
      | Some (Ok schedule) =>
          let loanAmount' := numberOf loanAmount in
          let loanTerm' := numberOf loanTerm in
          let totalInterest := sumOf interestPayment schedule in
          let totalPayments :=
            totalMonthlyPayment monthlyPayment * loanTerm' * 12 in
          let totalPrincipalAndInterestPaid := sumOf paymentAmount schedule in
          Some
            match calculateAPR loanAmount interestRate loanTerm
                    (Some (orZero fees)) with
            | Throw e => Throw (OfAppError e)
            | Ok apr =>
                match calculatePayoffDate loanTerm' with
                | None => Throw RangeError
                | Some payoffDate =>
                    Ok {| loanDetails :=
                            {| ld_loanAmount := loanAmount';
                               ld_interestRate := numberOf interestRate;
                               ld_apr := apr;
                               ld_loanTerm := loanTerm';
                               ld_fees := orZero fees |};
                          monthlyPayment := monthlyPayment;
                          totals :=
                            objectLiteral
                              [("totalPayments"%string,
                                  roundToCents totalPayments);
                               ("totalPayments"%string,
                                  roundToCents totalPrincipalAndInterestPaid);
                               ("totalInterest"%string,
                                  roundToCents totalInterest);
                               ("totalPrincipal"%string, loanAmount');
                               ("totalCost"%string,
                                  roundToCents
                                    (loanAmount' + totalInterest + orZero fees))];
                          percentages :=
                            {| interestPercentage :=
                                 roundToCents (totalInterest / loanAmount' * 100);
                               monthlyPaymentToIncome := None |};
                          payoffDate := payoffDate;
                          firstPaymentBreakdown := hd_error schedule |}
                end
            end
      end
  end.

(** An element of the array given to [findBestLoan]: a summary with the
    [scenario] number that the controller adds to it. *)
Record Comparison : Type := mkComparison {
  scenario : Z;
  summary : LoanSummary
}.

Definition totalCost (c : Comparison) : option number :=
  get (totals (summary c)) "totalCost".

(** The callback that [findBestLoan] gives to [reduce]. *)
Definition keepCheaper (best current : Comparison) : Comparison :=
  let bestCost := totalCost best in
  let currentCost := totalCost current in
  if lessThan currentCost bestCost then current else best.

(** [comparisons.reduce (keepCheaper)] without an initial value: [None]
    stands for the TypeError of [reduce] on an empty array. *)
Definition findBestLoan (comparisons : list Comparison) : option Comparison :=
  match comparisons with
  | [] => None
  | first :: rest => Some (fold_left keepCheaper rest first)
  end.

End MortgageService.

Arguments loanDetails {PayoffDate} _.
Arguments monthlyPayment {PayoffDate} _.
Arguments totals {PayoffDate} _.
Arguments percentages {PayoffDate} _.
Arguments payoffDate {PayoffDate} _.
Arguments firstPaymentBreakdown {PayoffDate} _.
Arguments mkLoanSummary {PayoffDate} _ _ _ _ _ _.
Arguments scenario {PayoffDate} _.
Arguments summary {PayoffDate} _.
Arguments mkComparison {PayoffDate} _ _.
Arguments totalCost {PayoffDate} c.
Arguments keepCheaper {PayoffDate} best current.
Arguments findBestLoan {PayoffDate} comparisons.
Arguments getLoanSummary Math_pow {PayoffDate} calculatePayoffDate fuel
  loanAmount interestRate loanTerm propertyTax insurance pmi hoaFees fees.

(** ** A reference [Math.pow]

    Used to run the service on concrete inputs: the special cases of
    ECMAScript's [Number::exponentiate] that the service can reach, and for
    a whole exponent the product of that many copies of the base, multiplied
    in binary64.  Exponents that are not whole are outside this instance
    (NaN). *)

(** The whole value of an integral finite number. *)
Definition wholeValue (x : number) : option Z :=
  match Prim2SF x with
  | S754_zero _ => Some 0%Z
  | S754_finite s m e =>
      if (0 <=? e)%Z then Some (cond_Zopp s (Zpos m * 2 ^ e))
      else if (Zpos m mod 2 ^ (- e) =? 0)%Z
           then Some (cond_Zopp s (Zpos m / 2 ^ (- e)))
           else None
  | _ => None
  end.

Definition powPos (base : number) (n : positive) : number :=
  Pos.iter (fun acc => acc * base) 1 n.

Definition powWhole (base exponent : number) : number :=
  if is_nan exponent then nan
  else if exponent =? 0 then 1
  else if is_nan base then nan
  else
    match wholeValue exponent with
    | Some (Zpos n) => powPos base n
    | Some (Zneg n) => 1 / powPos base n
    | _ =>
        if is_infinity exponent then
          if abs base =? 1 then nan
          else if xorb (1 <? abs base) (exponent <? 0) then infinity else 0
        else nan
    end.

(** ** Auxiliary notions for the statements *)

(** The sign bit of a number; NaN has none. *)
Definition signOf (x : spec_float) : option bool :=
  match x with
  | S754_nan => None
  | S754_zero s | S754_infinity s | S754_finite s _ _ => Some s
  end.

(** [x] is +0, a positive finite number or +Infinity. *)
Definition nonNegative (x : number) : Prop := signOf (Prim2SF x) = Some false.

(** What [validateNumber] accepts with its default options: a number that
    is finite (hence not NaN) and not below 0. *)
Definition acceptable (v : value) : bool :=
  match v with
  | VNumber x => is_finite x && negb (x <? 0)
  | _ => false
  end.

(** The errors of [validateNumber] under its default options: status 400
    and one of the messages "... must be a valid number" and
    "... cannot be less than 0". *)
Definition isValidationError (e : AppError) : Prop :=
  statusCode e = 400%Z /\
  exists fieldName,
    message e = MustBeValidNumber fieldName \/
    message e = CannotBeLessThan fieldName 0.

(** Each row's [remainingBalance] is [roundToCents] of the balance before it
    less the row's [principalPayment]. *)
Fixpoint balancesFrom (balance : number) (rows : list Entry) : Prop :=
  match rows with
  | [] => True
  | e :: rows' =>
      remainingBalance e = roundToCents (balance - principalPayment e) /\
      balancesFrom (remainingBalance e) rows'
  end.

(** [b <= a] for every two numbers [a], [b] that follow each other. *)
Fixpoint nonIncreasing (l : list number) : bool :=
  match l with
  | a :: ((b :: _) as l') => (b <=? a) && nonIncreasing l'
  | _ => true
  end.

(** The rational that a finite number is. *)
Definition exactValue (x : number) : option Q :=
  match Prim2SF x with
  | S754_zero _ => Some 0%Q
  | S754_finite s m e =>
      Some (inject_Z (cond_Zopp s (Z.pos m)) * Qpower 2 e)%Q
  | _ => None
  end.

(** The sum, in the rationals, of [f] over the rows. *)
Fixpoint exactSumOf {A : Type} (f : A -> number) (l : list A) : option Q :=
  match l with
  | [] => Some 0%Q
  | a :: l' =>
      match exactValue (f a), exactSumOf f l' with
      | Some x, Some y => Some (x + y)%Q
      | _, _ => None
      end
  end.

(** Every balance is finite and each [remainingBalance] is within one cent,
    in the rationals, of the balance before it less the row's
    [principalPayment]: no [roundToCents] of a balance moves it by more than
    a cent. *)
Fixpoint roundedWithinCent (balance : number) (rows : list Entry) : bool :=
  match rows with
  | [] => true
  | e :: rows' =>
      match exactValue balance, exactValue (principalPayment e),
            exactValue (remainingBalance e) with
      | Some b, Some p, Some b' =>
          Qle_bool (Qabs (b' - (b - p))) (1 # 100)
          && roundedWithinCent (remainingBalance e) rows'
      | _, _, _ => false
      end
  end.

(** The sum of [principalPayment] over the rows, taken in the rationals, is
    within one cent per row of the principal. *)
Definition withinCentPerEntry (principal : number) (schedule : list Entry) : bool :=
  match exactValue principal, exactSumOf principalPayment schedule with
  | Some p, Some total =>
      Qle_bool (Qabs (total - p))
        (inject_Z (Z.of_nat (List.length schedule)) * (1 # 100))%Q
  | _, _ => false
  end.

(** A comparison of the given scenario number and total cost, as
    [getLoanSummary] and the controller build it for 300000 at 4.5%. *)
Definition sampleComparison (scenario : Z) (cost : number) : Comparison unit :=
  {| scenario := scenario;
     summary :=
       {| loanDetails :=
            {| ld_loanAmount := 300000; ld_interestRate := 4.5;
               ld_apr := 4.5; ld_loanTerm := 30; ld_fees := 0 |};
          monthlyPayment :=
            {| principalAndInterest := 1520.06; propertyTax := 0;
               insurance := 0; pmi := 0; hoaFees := 0;
               totalMonthlyPayment := 1520.06;
               breakdown :=
                 {| bd_principal := 1520.06; bd_interest := 0;
                    bd_propertyTax := 0; bd_insurance := 0;
                    bd_pmi := 0; bd_hoaFees := 0 |} |};
          totals := objectLiteral [("totalCost"%string, cost)];
          percentages :=
            {| interestPercentage := 82.41; monthlyPaymentToIncome := None |};
          payoffDate := tt;
          firstPaymentBreakdown := None |} |}.

(** The field that the message of a validation error names: the
    [fieldName] that [validateNumber] puts at the head of each message. *)
Definition fieldOf (m : Message) : string :=
  match m with
  | MustBeValidNumber f | CannotBeZero f
  | CannotBeLessThan f _ | CannotBeGreaterThan f _ => f
  end.

(** What the statements about a loan ask of its input: a finite principal
    above 0, a finite rate of at least 0 and a finite term of [n] months,
    [n] a whole number with [1 <= n < 2^53]. *)
Definition validLoan (loanAmount interestRate loanTerm : number) (n : Z) : Prop :=
  is_finite loanAmount = true /\ (0 <? loanAmount) = true /\
  is_finite interestRate = true /\ (0 <=? interestRate) = true /\
  is_finite loanTerm = true /\ loanTerm * 12 = Z2F n /\ (1 <= n < 2 ^ 53)%Z.

(** The whole numbers [from], [from + 1], ..., [count] of them. *)
Fixpoint countFrom (from : Z) (count : nat) : list Z :=
  match count with
  | O => []
  | S count => from :: countFrom (from + 1) count
  end.

(** The rows that the loop of [generateAmortizationSchedule] pushes from
    [paymentNumber] on, [balance] being the balance and [schedule] the rows
    pushed before: each row is the [scheduleStep] of its turn, its
    [paymentNumber] is not above [numPayments], and a row that another row
    follows has a balance that is not [<= 0]. *)
Fixpoint pushedFrom (loanAmount monthlyPayment monthlyRate numPayments : number)
    (paymentNumber : Z) (balance : number) (schedule rows : list Entry) : Prop :=
  match rows with
  | [] => True
  | e :: rows' =>
      e = scheduleStep loanAmount monthlyPayment monthlyRate numPayments
            paymentNumber balance schedule /\
      (Z2F paymentNumber <=? numPayments) = true /\
      (rows' <> [] -> (remainingBalance e <=? 0) = false) /\
      pushedFrom loanAmount monthlyPayment monthlyRate numPayments
        (paymentNumber + 1) (remainingBalance e) (schedule ++ [e]) rows'
  end.

(** [p] holds of [count] whole numbers from [from] on. *)
Fixpoint allFrom (p : Z -> bool) (from : Z) (count : nat) : bool :=
  match count with
  | O => true
  | S count => p from && allFrom p (from + 1) count
  end.

(** ** The other helpers of mathUtils.js *)

(** [Math.ceil]: the least integral number not below [x]; NaN, the
    infinities, the zeros and integral numbers are returned as they are, and
    a negative number above -1 gives -0. *)
Definition Math_ceil (x : number) : number :=
  match Prim2SF x with
  | S754_finite s m e =>
      if (0 <=? e)%Z then x
      else if s then - Z2F (Z.shiftr (Zpos m) (- e))
      else Z2F (Z.shiftr (Zpos m + 2 ^ (- e) - 1) (- e))
  | _ => x
  end.

Section MathUtils.

Variable Math_pow : number -> number -> number.

(** [Math.log], implementation-approximated like [Math.pow]. *)
Variable Math_log : number -> number.

Definition roundToDecimals (v : value) (decimals : number) : number :=
  match v with
  | VNumber x =>
      if is_nan x then 0
      else
        let factor := Math_pow 10 decimals in
        Math_round (x * factor) / factor
  | _ => 0
  end.

Definition calculateCompoundInterest (principal rate periods time : value)
  : result number :=
  principal <- validateNumber principal "Principal" defaultOptions ;;
  rate <- validateNumber rate "Interest rate" defaultOptions ;;
  periods <- validateNumber periods "Compounding periods" defaultOptions ;;
  time <- validateNumber time "Time" defaultOptions ;;
  let amount := principal * Math_pow (1 + rate / periods) (periods * time) in
  Ok (roundToCents amount).

Definition calculatePresentValue (futureValue rate periods : value)
  : result number :=
  futureValue <- validateNumber futureValue "Future value" defaultOptions ;;
  rate <- validateNumber rate "Interest rate"
            {| min := 0; max := infinity; allowZero := false |} ;;
  periods <- validateNumber periods "Number of periods" defaultOptions ;;
  let presentValue := futureValue / Math_pow (1 + rate) periods in
  Ok (roundToCents presentValue).

Definition calculateFutureValueAnnuity (payment rate periods : value)
  : result number :=
  payment <- validateNumber payment "Payment amount" defaultOptions ;;
  rate <- validateNumber rate "Interest rate" defaultOptions ;;
  periods <- validateNumber periods "Number of periods" defaultOptions ;;
  if rate =? 0 then Ok (roundToCents (payment * periods))
  else
    let futureValue := payment * ((Math_pow (1 + rate) periods - 1) / rate) in
    Ok (roundToCents futureValue).

Definition calculateEffectiveAnnualRate (nominalRate compoundingPeriods : value)
  : result number :=
  nominalRate <- validateNumber nominalRate "Nominal rate" defaultOptions ;;
  compoundingPeriods <-
    validateNumber compoundingPeriods "Compounding periods"
      {| min := 0; max := infinity; allowZero := false |} ;;
  let effectiveRate :=
    Math_pow (1 + nominalRate / compoundingPeriods) compoundingPeriods - 1 in
  Ok (roundToDecimals (effectiveRate * 100) 4).

(** [validateLoanParameters] returns [true] or throws. *)
Definition validateLoanParameters (loanAmount interestRate loanTerm : value)
  : result bool :=
  _ <- validateNumber loanAmount "Loan amount"
         {| min := 1; max := 100000000; allowZero := true |} ;;
  _ <- validateNumber interestRate "Interest rate"
         {| min := 0; max := 50; allowZero := true |} ;;
  _ <- validateNumber loanTerm "Loan term"
         {| min := 1; max := 50; allowZero := true |} ;;
  Ok true.

Definition calculatePercentageChange (oldValue newValue : value) : result number :=
  oldValue <- validateNumber oldValue "Old value" defaultOptions ;;
  newValue <- validateNumber newValue "New value" defaultOptions ;;
  if oldValue =? 0 then Ok (if 0 <? newValue then 100 else 0)
  else
    let change := (newValue - oldValue) / oldValue * 100 in
    Ok (roundToDecimals change 2).

Definition calculatePaymentNumberForBalance
    (loanAmount interestRate monthlyPayment targetBalance : value) : result number :=
  loanAmount <- validateNumber loanAmount "Loan amount" defaultOptions ;;
  interestRate <- validateNumber interestRate "Interest rate" defaultOptions ;;
  monthlyPayment <- validateNumber monthlyPayment "Monthly payment" defaultOptions ;;
  targetBalance <- validateNumber targetBalance "Target balance" defaultOptions ;;
  if interestRate =? 0 then
    Ok (Math_ceil ((loanAmount - targetBalance) / monthlyPayment))
  else
    let monthlyRate := interestRate / 100 / 12 in
    let numerator := Math_log (1 + targetBalance * monthlyRate / monthlyPayment) in
    let denominator := Math_log (1 + monthlyRate) in
    Ok (Math_ceil (- numerator / denominator)).

End MathUtils.

(** ** errorUtils.js *)

Module ErrorUtils.

(** The decimal text of a whole number, as a template literal writes it. *)
Definition textOf (n : Z) : string :=
  DecimalString.NilZero.string_of_int (Z.to_int n).

(** The fields that the constructor of [AppError] derives: [status] from
    the text of [statusCode], and [isOperational]. *)
Definition status (e : AppError) : string :=
  if String.prefix "4" (textOf (statusCode e)) then "fail" else "error".

Definition isOperational (e : AppError) : bool := true.

(** The [validateNumber] of this module has no options and messages of its
    own:
    - [MustBeValidNumber f]: "f must be a valid number"
    - [CannotBeNegative f]: "f cannot be negative";
    it returns nothing. *)
Inductive Message : Type :=
| MustBeValidNumber (fieldName : string)
| CannotBeNegative (fieldName : string).

Inductive Outcome : Type :=
| Returned
| Thrown (message : Message) (statusCode : Z).

Definition validateNumber (v : value) (fieldName : string) : Outcome :=
  match v with
  | VNumber x =>
      if is_nan x || negb (is_finite x) then
        Thrown (MustBeValidNumber fieldName) 400
      else if x <? 0 then Thrown (CannotBeNegative fieldName) 400
      else Returned
  | _ => Thrown (MustBeValidNumber fieldName) 400
  end.

End ErrorUtils.

(** ** logger.js

    What the middleware [logger] writes to the console when it runs: the
    line of the request and, for a POST, PUT or PATCH with a body, the body
    without three of its properties.  The time stamp of the line is left
    out, and so is the function that the middleware puts in the place of
    [res.send], which runs later. *)

Module Logger.

Section Logger.

(** The values of the properties of a body. *)
Variable V : Type.

(** [req.body] as the JSON parser leaves it: an object, that is the list of
    its properties. *)
Definition Body : Type := list (string * V).

(** [delete o.key] *)
Fixpoint delete (o : Body) (key : string) : Body :=
  match o with
  | [] => []
  | (key', v) :: o' =>
      if String.eqb key key' then delete o' key else (key', v) :: delete o' key
  end.

(** [o.key]; [None] stands for [undefined]. *)
Fixpoint lookup (o : Body) (key : string) : option V :=
  match o with
  | [] => None
  | (key', v) :: o' => if String.eqb key key' then Some v else lookup o' key
  end.

(** A call of [console.log]. *)
Inductive Logged : Type :=
| RequestLine (method url ip : string)
| RequestBody (sanitizedBody : Body).

(** [body] is [None] when [req.body] is absent. *)
Definition logger (method url ip : string) (body : option Body) : list Logged :=
  RequestLine method url ip ::
  match body with
  | Some body =>
      if existsb (String.eqb method) ["POST"; "PUT"; "PATCH"]%string then
        let sanitizedBody := body in
        let sanitizedBody := delete sanitizedBody "password" in
        let sanitizedBody := delete sanitizedBody "token" in
        let sanitizedBody := delete sanitizedBody "apiKey" in
        [RequestBody sanitizedBody]
      else []
  | None => []
  end.

End Logger.

Arguments delete {V} o key.
Arguments lookup {V} o key.
Arguments RequestLine {V} method url ip.
Arguments RequestBody {V} sanitizedBody.
Arguments logger {V} method url ip body.

End Logger.

(** The properties that [logger] takes out of a body. *)
Definition sensitive (key : string) : bool :=
  existsb (String.eqb key) ["password"; "token"; "apiKey"]%string.

(** ** mortgageController.js

    A handler either answers ([res.status (...).json (...)]) or passes what
    it caught on ([next (error)]). *)

Module MortgageController.

(** [req.body], as the handlers destructure it; the optional costs are
    numbers or absent, which is what the schema of the routes admits. *)
Record Body : Type := mkBody {
  body_loanAmount : value;
  body_interestRate : value;
  body_loanTerm : value;
  body_propertyTax : option number;
  body_insurance : option number;
  body_pmi : option number;
  body_hoaFees : option number;
  body_fees : option number
}.

(** What a handler can catch: an [AppError] of the service, the RangeError
    that [getLoanSummary] throws out of [calculatePayoffDate], the handler's
    own [new AppError ("At least 2 loan scenarios required for comparison",
    400)], and the TypeError of [reduce] on an empty array. *)
Inductive Caught : Type :=
| OfService (e : AppError)
| RangeErrorOfService
| AtLeastTwoLoans
| ReduceOfEmptyArray.

(** What was thrown, as the handler catches it. *)
Definition caught (error : Exception) : Caught :=
  match error with
  | OfAppError e => OfService e
  | RangeError => RangeErrorOfService
  end.

Record Response (A : Type) : Type := mkResponse {
  res_status : Z;
  res_success : bool;
  res_data : A;
  res_message : string
}.

Arguments mkResponse {A} _ _ _ _.
Arguments res_status {A} _.
Arguments res_success {A} _.
Arguments res_data {A} _.
Arguments res_message {A} _.

Inductive Handled (A : Type) : Type :=
| Json (response : Response A)
| Next (error : Caught).

Arguments Json {A} response.
Arguments Next {A} error.

(** The [data] of the answers. *)
Record AmortizationData : Type := mkAmortizationData {
  am_schedule : list Entry;
  am_totalPayments : nat;
  am_totalInterest : number;
  am_totalPrincipal : number
}.

Record APRData : Type := mkAPRData {
  apr_apr : number;
  apr_interestRate : number;
  apr_difference : number
}.

Section Handlers.

Variable Math_pow : number -> number -> number.
Variable PayoffDate : Type.
Variable calculatePayoffDate : number -> option PayoffDate.

Record ComparisonData : Type := mkComparisonData {
  cmp_comparisons : list (Comparison PayoffDate);
  cmp_recommendedLoan : Comparison PayoffDate
}.

Definition calculatePayment (body : Body) : Handled MonthlyPayment :=
  match
    calculateMonthlyPayment Math_pow
      (body_loanAmount body) (body_interestRate body) (body_loanTerm body)
      (Some (orZero (body_propertyTax body)))
      (Some (orZero (body_insurance body)))
      (Some (orZero (body_pmi body)))
      (Some (orZero (body_hoaFees body)))
  with
  | Ok result =>
      Json (mkResponse 200 true result "Monthly payment calculated successfully")
  | Throw error => Next (OfService error)
  end.

Definition generateAmortization (fuel : nat) (body : Body)
  : option (Handled AmortizationData) :=
  match
    generateAmortizationSchedule Math_pow fuel
      (body_loanAmount body) (body_interestRate body) (body_loanTerm body)
  with
  | None => None
  | Some (Ok schedule) =>
      Some (Json (mkResponse 200 true
                    {| am_schedule := schedule;
                       am_totalPayments := List.length schedule;
                       am_totalInterest := sumOf interestPayment schedule;
                       am_totalPrincipal := numberOf (body_loanAmount body) |}
                    "Amortization schedule generated successfully"))
  | Some (Throw error) => Some (Next (OfService error))
  end.

Definition calculateAPR (body : Body) : Handled APRData :=
  match
    calculateAPR Math_pow
      (body_loanAmount body) (body_interestRate body) (body_loanTerm body)
      (Some (orZero (body_fees body)))
  with
  | Ok apr =>
      let interestRate := numberOf (body_interestRate body) in
      Json (mkResponse 200 true
              {| apr_apr := apr;
                 apr_interestRate := interestRate;
                 apr_difference := apr - interestRate |}
              "APR calculated successfully")
  | Throw error => Next (OfService error)
  end.

(** [loans.map ((loan, index) => ({ scenario: index + 1,
    ...getLoanSummary (loan) }))], from [index] on: the first loan for which
    the service throws ends the map. *)
Fixpoint summaries (fuel : nat) (index : Z) (loans : list Body)
  : option (outcome Exception (list (Comparison PayoffDate))) :=
  match loans with
  | [] => Some (Ok [])
  | loan :: loans =>
      match
        getLoanSummary Math_pow calculatePayoffDate fuel
          (body_loanAmount loan) (body_interestRate loan) (body_loanTerm loan)
          (body_propertyTax loan) (body_insurance loan) (body_pmi loan)
          (body_hoaFees loan) (body_fees loan)
      with
      | None => None
      | Some (Throw error) => Some (Throw error)
      | Some (Ok summary) =>
          match summaries fuel (index + 1)%Z loans with
          | None => None
          | Some (Throw error) => Some (Throw error)
          | Some (Ok comparisons) =>
              Some (Ok ({| scenario := index + 1; summary := summary |}
                        :: comparisons))
          end
      end
  end.

(** [compareLoans]; [loans] is [None] when [req.body.loans] is no array. *)
Definition compareLoans (fuel : nat) (loans : option (list Body))
  : option (Handled ComparisonData) :=
  match loans with
  | None => Some (Next AtLeastTwoLoans)
  | Some loans =>
      if (List.length loans <? 2)%nat then Some (Next AtLeastTwoLoans)
      else
        match summaries fuel 0 loans with
        | None => None
        | Some (Throw error) => Some (Next (caught error))
        | Some (Ok comparisons) =>
            match findBestLoan comparisons with
            | None => Some (Next ReduceOfEmptyArray)
            | Some recommendedLoan =>
                Some (Json (mkResponse 200 true
                              {| cmp_comparisons := comparisons;
                                 cmp_recommendedLoan := recommendedLoan |}
                              "Loan comparison completed successfully"))
            end
        end
  end.

Definition getLoanSummary (fuel : nat) (body : Body)
  : option (Handled (LoanSummary PayoffDate)) :=
  match
    getLoanSummary Math_pow calculatePayoffDate fuel
      (body_loanAmount body) (body_interestRate body) (body_loanTerm body)
      (Some (orZero (body_propertyTax body)))
      (Some (orZero (body_insurance body)))
      (Some (orZero (body_pmi body)))
      (Some (orZero (body_hoaFees body)))
      (Some (orZero (body_fees body)))
  with
  | None => None
  | Some (Ok summary) =>
      Some (Json (mkResponse 200 true summary
                    "Loan summary calculated successfully"))
  | Some (Throw error) => Some (Next (caught error))
  end.

End Handlers.

End MortgageController.

(** The three numbers of a body are what [validateNumber] accepts. *)
Definition acceptableBody (body : MortgageController.Body) : bool :=
  acceptable (MortgageController.body_loanAmount body) &&
  acceptable (MortgageController.body_interestRate body) &&
  acceptable (MortgageController.body_loanTerm body).

(** A body whose three numbers make a [validLoan] of at most [fuel]
    months. *)
Definition validBody (fuel : nat) (body : MortgageController.Body) : Prop :=
  exists loanAmount interestRate loanTerm n,
    MortgageController.body_loanAmount body = VNumber loanAmount /\
    MortgageController.body_interestRate body = VNumber interestRate /\
    MortgageController.body_loanTerm body = VNumber loanTerm /\
    validLoan loanAmount interestRate loanTerm n /\ (Z.to_nat n <= fuel)%nat.

(** [mortgageService.getLoanSummary (loan)]. *)
Definition summaryOf (Math_pow : number -> number -> number)
    {PayoffDate : Type} (calculatePayoffDate : number -> option PayoffDate)
    (fuel : nat) (loan : MortgageController.Body)
  : option (outcome Exception (LoanSummary PayoffDate)) :=
  getLoanSummary Math_pow calculatePayoffDate fuel
    (MortgageController.body_loanAmount loan)
    (MortgageController.body_interestRate loan)
    (MortgageController.body_loanTerm loan)
    (MortgageController.body_propertyTax loan)
    (MortgageController.body_insurance loan)
    (MortgageController.body_pmi loan)
    (MortgageController.body_hoaFees loan)
    (MortgageController.body_fees loan).

(** [calculatePayoffDate] returns a date for the term of the body. *)
Definition datedBody {PayoffDate : Type}
    (calculatePayoffDate : number -> option PayoffDate)
    (body : MortgageController.Body) : Prop :=
  calculatePayoffDate (numberOf (MortgageController.body_loanTerm body)) <> None.

(** ** Auxiliary notions for the statements on rounding *)

(** [mrs] is the quotient [N / D] with its rounding bits: [shr_r] says that
    the fraction left is at least a half, [shr_s] that it is neither 0 nor
    a half. *)
Definition represents (mrs : shr_record) (N D : Z) : Prop :=
  (0 < D /\ 0 <= N /\ shr_m mrs = N / D /\
   shr_r mrs = (D <=? 2 * (N mod D)) /\
   shr_s mrs = negb ((N mod D =? 0) || (2 * (N mod D) =? D)))%Z.

(** The rational that a finite number is, on its [SpecFloat] form. *)
Definition valueOf (x : spec_float) : option Q :=
  match x with
  | S754_zero _ => Some 0%Q
  | S754_finite s m e => Some (inject_Z (cond_Zopp s (Z.pos m)) * Qpower 2 e)%Q
  | _ => None
  end.

(** The relative error of one rounding of binary64, [2^-53], and its
    absolute error near 0, [2^-1075]: half the distance of 1 to the next
    number, and half the least positive number. *)
Definition unitRoundoff : Q := 1 # (2 ^ 53).
Definition leastError : Q := 1 # (2 ^ 1075).

(** A bound on what the roundings of the schedule can add to a balance in
    [j] rows: four cents a row, compounded at 4.17% a row. *)
Fixpoint growth (j : nat) : Q :=
  match j with
  | O => 0
  | S j => growth j * (10417 # 10000) + (4 # 100)
  end.

(** The ranges that the request validation (validation.js) lets through: a
    principal of at most 100,000,000, a rate of at most 50 percent and a
    term of at most 50 years, that is [n <= 600] months. *)
Definition inRange (loanAmount interestRate : number) (n : Z) : Prop :=
  (loanAmount <=? 100000000) = true /\ (interestRate <=? 50) = true /\
  (n <= 600)%Z.

(** What the statements on rounding ask of [Math.pow], at the one point
    where the payment formula calls it: the power of the base
    [1 + monthlyRate >= 1] is at least 1 and at most 1e300.  Nothing is
    asked at a rate equal to 0, where [Math.pow] is not called. *)
Definition powInRange (Math_pow : number -> number -> number)
    (interestRate loanTerm : number) : Prop :=
  (interestRate =? 0) = true \/
  let power := Math_pow (1 + interestRate / 100 / 12) (loanTerm * 12) in
  (1 <=? power) = true /\ (power <=? 1e300) = true.

(** [totalPayments] is within two cents per row, and one cent, of the
    principal plus [totalInterest], all three being finite. *)
Definition totalsAgree (principal totalPayments totalInterest : number)
    (rows : nat) : bool :=
  match exactValue principal, exactValue totalPayments,
        exactValue totalInterest with
  | Some p, Some paid, Some interest =>
      Qle_bool (Qabs (paid - (p + interest)))
        (inject_Z (2 * Z.of_nat rows + 1) * (1 # 100))%Q
  | _, _, _ => false
  end.

(** * Facts about binary64 arithmetic *)

Section Binary64.

#[local] Open Scope Z_scope.

Lemma shr_1_nonneg mrs : 0 <= shr_m mrs -> 0 <= shr_m (shr_1 mrs).
Proof.
  destruct mrs as [m r s]; destruct m as [|p|p]; simpl; try lia;
    destruct p; simpl; lia.
Qed.

Lemma iter_pos_shr_1_nonneg p :
  forall mrs, 0 <= shr_m mrs -> 0 <= shr_m (iter_pos shr_1 p mrs).
Proof.
  induction p as [p IH|p IH|]; simpl; intros mrs H.
  - apply IH, IH, shr_1_nonneg, H.
  - apply IH, IH, H.
  - apply shr_1_nonneg, H.
Qed.

Lemma shr_fexp_nonneg m e l :
  0 <= m -> 0 <= shr_m (fst (shr_fexp prec emax m e l)).
Proof.
  intros H. unfold shr_fexp, shr.
  assert (H0 : 0 <= shr_m (shr_record_of_loc m l))
    by (destruct l as [|[]]; simpl; exact H).
  destruct (fexp prec emax (Zdigits2 m + e) - e); simpl; auto.
  apply iter_pos_shr_1_nonneg, H0.
Qed.

Lemma round_nearest_even_nonneg m l : 0 <= m -> 0 <= round_nearest_even m l.
Proof.
  intros H. destruct l as [|[]]; simpl; try lia.
  destruct (Z.even m); lia.
Qed.

(** Rounding a non-negative mantissa gives a zero, a finite number or an
    infinity of the sign asked for, never NaN. *)
Lemma binary_round_aux_sign s m e l :
  0 <= m -> signOf (binary_round_aux prec emax s m e l) = Some s.
Proof.
  intros H. unfold binary_round_aux.
  pose proof (shr_fexp_nonneg m e l H) as H1.
  destruct (shr_fexp prec emax m e l) as [mrs' e'].
  simpl in H1.
  pose proof (shr_fexp_nonneg
                (round_nearest_even (shr_m mrs') (loc_of_shr_record mrs')) e'
                loc_Exact (round_nearest_even_nonneg _ _ H1)) as H2.
  destruct (shr_fexp prec emax _ e' loc_Exact) as [mrs'' e''].
  simpl in H2.
  destruct (shr_m mrs'') as [|q|q]; try lia; simpl; auto.
  destruct (e'' <=? _); reflexivity.
Qed.

Lemma binary_normalize_sign m e :
  0 <= m -> signOf (binary_normalize prec emax m e false) = Some false.
Proof.
  intros H. destruct m as [|q|q]; try lia; simpl; auto.
  unfold binary_round.
  destruct (shl_align q e _) as [mz ez].
  apply binary_round_aux_sign. lia.
Qed.

Lemma SFmul_finite_sign x sx sy my ey :
  signOf x = Some sx ->
  signOf (SFmul prec emax x (S754_finite sy my ey)) = Some (xorb sx sy).
Proof.
  destruct x as [s|s| |s m e]; simpl; intros H; inversion H; subst; auto.
  apply binary_round_aux_sign. lia.
Qed.

Lemma SFdiv_finite_sign x sx sy my ey :
  signOf x = Some sx ->
  signOf (SFdiv prec emax x (S754_finite sy my ey)) = Some (xorb sx sy).
Proof.
  destruct x as [s|s| |s m e]; simpl; intros H; inversion H; subst; auto.
  unfold SFdiv_core_binary.
  set (e' := Z.min _ _). set (m' := match e - ey - e' with
                                     | 0 => Z.pos m
                                     | Z.pos _ => Z.shiftl (Z.pos m) (e - ey - e')
                                     | Z.neg _ => 0
                                     end).
  assert (Hm : 0 <= m').
  { unfold m'. destruct (e - ey - e'); try lia. apply Z.shiftl_nonneg. lia. }
  pose proof (Z.div_pos m' (Z.pos my) Hm ltac:(lia)) as Hq.
  unfold Z.div in Hq.
  destruct (Z.div_eucl m' (Z.pos my)) as [q r]. simpl in Hq.
  apply binary_round_aux_sign, Hq.
Qed.

Lemma digits2_pos_size p : digits2_pos p = Pos.size p.
Proof. induction p; simpl; congruence. Qed.

Lemma digits2_pos_bounds p :
  2 ^ (Z.pos (digits2_pos p) - 1) <= Z.pos p < 2 ^ Z.pos (digits2_pos p).
Proof.
  rewrite digits2_pos_size. split.
  - pose proof (Pos.size_le p) as H.
    apply Pos2Z.pos_le_pos in H. rewrite Pos2Z.inj_pow in H.
    replace (Z.pos (Pos.size p)) with (Z.succ (Z.pos (Pos.size p) - 1)) in H by lia.
    rewrite Z.pow_succ_r in H by lia. lia.
  - pose proof (Pos.size_gt p) as H.
    apply Pos2Z.pos_lt_pos in H. rewrite Pos2Z.inj_pow in H. exact H.
Qed.

(** The two shapes of a valid finite binary64 number. *)
Lemma bounded_digits m e :
  bounded prec emax m e = true ->
  -1074 <= e /\ Z.pos (digits2_pos m) <= 53 /\
  (-1074 < e -> Z.pos (digits2_pos m) = 53).
Proof.
  unfold bounded, canonical_mantissa, fexp, SpecFloat.emin, prec, emax.
  intros H. apply andb_prop in H. destruct H as [H _].
  apply Z.eqb_eq in H. lia.
Qed.

(** Of two valid positive numbers the one with the larger exponent is the
    larger one. *)
Lemma bounded_exponent_lt m e m' e' :
  bounded prec emax m e = true -> bounded prec emax m' e' = true ->
  e' < e -> Z.pos m' < Z.pos m * 2 ^ (e - e').
Proof.
  intros H H' He.
  apply bounded_digits in H. apply bounded_digits in H'.
  destruct H as (_ & _ & Hd). destruct H' as (He' & Hd' & _).
  pose proof (digits2_pos_bounds m) as Hm.
  pose proof (digits2_pos_bounds m') as Hm'.
  rewrite Hd in Hm by lia. simpl in Hm.
  assert (Z.pos m' < 2 ^ 53).
  { eapply Z.lt_le_trans; [apply Hm'|]. apply Z.pow_le_mono_r; lia. }
  assert (2 ^ 1 <= 2 ^ (e - e')) by (apply Z.pow_le_mono_r; lia).
  change (2 ^ 1) with 2 in *. change (2 ^ 52) with 4503599627370496 in *.
  change (2 ^ 53) with 9007199254740992 in *. nia.
Qed.

Lemma shl_align_value m e ez :
  ez <= e -> Z.pos (fst (shl_align m e ez)) = Z.pos m * 2 ^ (e - ez).
Proof.
  intros H. unfold shl_align.
  destruct (ez - e) as [|d|d] eqn:Hd; cbn [fst]; try lia.
  - replace (e - ez) with 0 by lia. rewrite Z.pow_0_r. lia.
  - replace (e - ez) with (Z.pos d) by lia.
    change (Pos.iter xO m d) with (shift_pos d m).
    rewrite shift_pos_correct, Z.pow_pos_fold. lia.
Qed.

Lemma SFsub_finite_nonneg m e sy m' e' :
  bounded prec emax m e = true -> bounded prec emax m' e' = true ->
  SFltb (S754_finite false m e) (S754_finite sy m' e') = false ->
  signOf (SFsub prec emax (S754_finite false m e) (S754_finite sy m' e'))
  = Some false.
Proof.
  intros Vx Vy Hlt.
  change (SFsub prec emax (S754_finite false m e) (S754_finite sy m' e'))
    with (binary_normalize prec emax
            (Z.pos (fst (shl_align m e (Z.min e e'))) -
             cond_Zopp sy (Z.pos (fst (shl_align m' e' (Z.min e e')))))
            (Z.min e e') false).
  apply binary_normalize_sign.
  destruct sy; [simpl; lia|].
  unfold SFltb, SFcompare in Hlt. cbn [cond_Zopp].
  destruct (Z.compare_spec e e') as [He|He|He]; try discriminate.
  - subst e'. rewrite Z.min_id, !shl_align_value, Z.sub_diag, Z.pow_0_r by lia.
    rewrite Pos.compare_cont_spec in Hlt. cbn [Pos.switch_Eq] in Hlt.
    destruct (Pos.compare_spec m m'); try discriminate; subst; lia.
  - rewrite Z.min_r, !shl_align_value, Z.sub_diag, Z.pow_0_r by lia.
    pose proof (bounded_exponent_lt m e m' e' Vx Vy He). lia.
Qed.

(** [x - y] is not negative when [x] is not and [y > x] does not hold. *)
Lemma SFsub_nonneg x y :
  valid_binary x = true -> valid_binary y = true ->
  signOf x = Some false -> SFltb x y = false ->
  signOf (SFsub prec emax x y) = Some false \/ SFsub prec emax x y = S754_nan.
Proof.
  intros Vx Vy Sx Hlt.
  destruct x as [sx|sx| |sx m e]; simpl in Sx; inversion Sx; subst;
    destruct y as [sy|sy| |sy m' e'];
    try (left; apply SFsub_finite_nonneg; assumption);
    try destruct sy; simpl in *; try discriminate; auto.
Qed.

(** [x - x] is +0, or NaN when [x] is not finite. *)
Lemma SFsub_diag x :
  SFsub prec emax x x = S754_zero false \/ SFsub prec emax x x = S754_nan.
Proof.
  destruct x as [[]|[]| |s m e]; simpl; auto.
  left. rewrite Z.sub_diag. reflexivity.
Qed.

Lemma SFleb_zero_nonneg x :
  signOf x = Some false -> SFleb x (S754_zero false) = true ->
  x = S754_zero false.
Proof.
  destruct x as [s|s| |s m e]; simpl; intros H; inversion H; subst;
    unfold SFleb; simpl; intros; try discriminate; reflexivity.
Qed.

Lemma SFltb_zero_positive x :
  SFltb (S754_zero false) x = true -> signOf x = Some false.
Proof.
  destruct x as [s|[]| |[] m e]; unfold SFltb; simpl; intros;
    try discriminate; reflexivity.
Qed.

Lemma SFleb_zero_not_lt x :
  SFleb (S754_zero false) x = true -> SFltb x (S754_zero false) = false.
Proof.
  destruct x as [s|[]| |[] m e]; unfold SFleb, SFltb; simpl; intros;
    try discriminate; reflexivity.
Qed.

Lemma SFltb_infinity_l x : SFltb (S754_infinity false) x = false.
Proof. destruct x as [s|[]| |[] m e]; reflexivity. Qed.

Lemma SFcompare_refl x : signOf x <> None -> SFcompare x x = Some Eq.
Proof.
  destruct x as [[]|[]| |[] m e]; simpl; intros H; try congruence.
  - rewrite Z.compare_refl, Pos.compare_cont_refl. reflexivity.
  - rewrite Z.compare_refl, Pos.compare_cont_refl. reflexivity.
Qed.

Lemma digits2_pos_unique m k :
  2 ^ (k - 1) <= Z.pos m < 2 ^ k -> Z.pos (digits2_pos m) = k.
Proof.
  intros [Hl Hu]. pose proof (digits2_pos_bounds m) as [Hl' Hu'].
  assert (0 < k).
  { destruct (Z_lt_le_dec 0 k) as [|Hk]; auto.
    rewrite (Z.pow_neg_r 2 (k - 1)) in Hl by lia.
    assert (2 ^ k <= 2 ^ 0) by (apply Z.pow_le_mono_r; lia).
    rewrite Z.pow_0_r in *. lia. }
  destruct (Z.lt_trichotomy (Z.pos (digits2_pos m)) k) as [Hd|[Hd|Hd]]; auto.
  - assert (2 ^ Z.pos (digits2_pos m) <= 2 ^ (k - 1))
      by (apply Z.pow_le_mono_r; lia). lia.
  - assert (2 ^ k <= 2 ^ (Z.pos (digits2_pos m) - 1))
      by (apply Z.pow_le_mono_r; lia). lia.
Qed.

Lemma digits2_pos_mono p q :
  (p <= q)%positive -> Z.pos (digits2_pos p) <= Z.pos (digits2_pos q).
Proof.
  intros H. pose proof (digits2_pos_bounds p) as [Hl _].
  pose proof (digits2_pos_bounds q) as [_ Hu].
  destruct (Z_le_gt_dec (Z.pos (digits2_pos p)) (Z.pos (digits2_pos q)))
    as [|Hd]; auto.
  assert (2 ^ Z.pos (digits2_pos q) <= 2 ^ (Z.pos (digits2_pos p) - 1))
    by (apply Z.pow_le_mono_r; lia).
  lia.
Qed.

Lemma shl_align_exponent m e ez : ez <= e -> snd (shl_align m e ez) = ez.
Proof.
  intros H. unfold shl_align.
  destruct (ez - e) as [|d|d] eqn:Hd; cbn [snd]; lia.
Qed.

(** A mantissa of 53 digits within the exponent range is left as it is. *)
Lemma binary_round_aux_exact mz ez :
  Z.pos (digits2_pos mz) = 53 -> -1074 <= ez <= 971 ->
  binary_round_aux prec emax false (Z.pos mz) ez loc_Exact
  = S754_finite false mz ez.
Proof.
  intros Hd He.
  assert (Hs : forall m, Z.pos (digits2_pos m) = 53 ->
            shr_fexp prec emax (Z.pos m) ez loc_Exact
            = ({| shr_m := Z.pos m; shr_r := false; shr_s := false |}, ez)).
  { intros m Hm. unfold shr_fexp, shr, fexp, SpecFloat.emin, prec, emax.
    cbn [Zdigits2]. rewrite Hm.
    replace (Z.max (53 + ez - 53) (3 - 1024 - 53) - ez) with 0 by lia.
    reflexivity. }
  unfold binary_round_aux. rewrite (Hs mz Hd).
  cbn [shr_m loc_of_shr_record round_nearest_even].
  rewrite (Hs mz Hd). cbn [shr_m].
  replace (ez <=? emax - prec) with true; [reflexivity|].
  symmetry. apply Z.leb_le. unfold emax, prec. lia.
Qed.

(** The binary64 number of a whole number of at most 53 digits. *)
Lemma binary_normalize_whole p :
  Z.pos (digits2_pos p) <= 53 ->
  exists mz,
    binary_normalize prec emax (Z.pos p) 0 false
    = S754_finite false mz (Z.pos (digits2_pos p) - 53) /\
    Z.pos mz = Z.pos p * 2 ^ (53 - Z.pos (digits2_pos p)).
Proof.
  intros Hd. set (d := Z.pos (digits2_pos p)) in *.
  cbn [binary_normalize]. unfold binary_round.
  assert (Hf : fexp prec emax (d + 0) = d - 53)
    by (unfold fexp, SpecFloat.emin, prec, emax; lia).
  fold d. rewrite Hf.
  pose proof (shl_align_value p 0 (d - 53) ltac:(lia)) as Hv.
  pose proof (shl_align_exponent p 0 (d - 53) ltac:(lia)) as Hx.
  destruct (shl_align p 0 (d - 53)) as [mz ez]. cbn [fst snd] in Hv, Hx.
  subst ez. replace (0 - (d - 53)) with (53 - d) in Hv by lia.
  exists mz. split; [|exact Hv].
  apply binary_round_aux_exact; [|lia].
  apply digits2_pos_unique. rewrite Hv.
  pose proof (digits2_pos_bounds p) as [Hl Hu]. fold d in Hl, Hu.
  assert (Hp : 0 < 2 ^ (53 - d)) by (apply Z.pow_pos_nonneg; lia).
  replace (2 ^ (53 - 1)) with (2 ^ (d - 1) * 2 ^ (53 - d))
    by (rewrite <- Z.pow_add_r by lia; f_equal; lia).
  replace (2 ^ 53) with (2 ^ d * 2 ^ (53 - d))
    by (rewrite <- Z.pow_add_r by lia; f_equal; lia).
  split; nia.
Qed.

Lemma digits2_pos_53 p : Z.pos p < 2 ^ 53 -> Z.pos (digits2_pos p) <= 53.
Proof.
  intros H. pose proof (digits2_pos_bounds p) as [Hl _].
  destruct (Z_le_gt_dec (Z.pos (digits2_pos p)) 53) as [|Hd]; auto.
  assert (2 ^ 53 <= 2 ^ (Z.pos (digits2_pos p) - 1))
    by (apply Z.pow_le_mono_r; lia).
  lia.
Qed.

(** Whole numbers below 2^53 compare as numbers the way they compare as
    integers. *)
Lemma SFleb_whole p q :
  (p <= q)%positive -> Z.pos q < 2 ^ 53 ->
  SFleb (binary_normalize prec emax (Z.pos p) 0 false)
        (binary_normalize prec emax (Z.pos q) 0 false) = true.
Proof.
  intros Hpq Hq.
  assert (Hp : Z.pos p < 2 ^ 53) by lia.
  destruct (binary_normalize_whole p (digits2_pos_53 p Hp)) as (mp & -> & Hmp).
  destruct (binary_normalize_whole q (digits2_pos_53 q Hq)) as (mq & -> & Hmq).
  pose proof (digits2_pos_mono p q Hpq) as Hd.
  unfold SFleb, SFcompare.
  destruct (Z.compare_spec (Z.pos (digits2_pos p) - 53)
              (Z.pos (digits2_pos q) - 53)) as [He|He|He]; try reflexivity; try lia.
  rewrite Pos.compare_cont_spec. cbn [Pos.switch_Eq].
  assert (Hle : Z.pos mp <= Z.pos mq).
  { rewrite Hmp, Hmq.
    replace (Z.pos (digits2_pos q)) with (Z.pos (digits2_pos p)) by lia.
    apply Z.mul_le_mono_nonneg_r; [apply Z.pow_nonneg|]; lia. }
  destruct (Pos.compare_spec mp mq); try reflexivity. lia.
Qed.

End Binary64.

(** * Facts about the built-ins and [roundToCents] *)

(** The rounding convention: halves go towards +Infinity, and a negative
    number that rounds to zero gives -0. *)
Example Math_round_convention :
  Math_round 2.5 = 3 /\ Math_round (-2.5) = -2 /\ Math_round (-1.5) = -1 /\
  Math_round 0.5 = 1 /\ Math_round (-0.5) = neg_zero /\
  Math_round 0.49999999999999994 = 0 /\ Math_round (-0.2) = neg_zero /\
  Math_round 4503599627370495.5 = 4503599627370496 /\
  Math_round 1e300 = 1e300 /\ Math_round infinity = infinity.
Proof. repeat split; reflexivity. Qed.

Example roundToCents_convention :
  roundToCents 1520.0556 = 1520.06 /\ roundToCents 6.125 = 6.13 /\
  roundToCents 0.285 = 0.28 /\ roundToCents (-0.125) = -0.12 /\
  roundToCents infinity = infinity /\ roundToCents VNull = 0.
Proof. repeat split; reflexivity. Qed.

Example Z2F_360 : Z2F 360 = 360.
Proof. reflexivity. Qed.

(** An object literal that defines a key twice keeps the second value. *)
Example objectLiteral_duplicate_key :
  objectLiteral [("totalPayments"%string, 1); ("totalPayments"%string, 2);
                 ("totalCost"%string, 3)]
  = [("totalPayments"%string, 2); ("totalCost"%string, 3)].
Proof. reflexivity. Qed.

Lemma Prim2SF_100 : Prim2SF 100 = S754_finite false 7036874417766400 (-46).
Proof. reflexivity. Qed.

Lemma Prim2SF_0 : Prim2SF 0 = S754_zero false.
Proof. reflexivity. Qed.

Lemma is_nan_signOf x :
  is_nan x = match signOf (Prim2SF x) with None => true | Some _ => false end.
Proof.
  unfold is_nan. rewrite FloatAxioms.eqb_spec. unfold SFeqb.
  destruct (signOf (Prim2SF x)) eqn:H.
  - rewrite SFcompare_refl by congruence. reflexivity.
  - destruct (Prim2SF x); try discriminate. reflexivity.
Qed.

Lemma nonNegative_not_nan x : nonNegative x -> is_nan x = false.
Proof. unfold nonNegative. intros H. rewrite is_nan_signOf, H. reflexivity. Qed.

Lemma is_nan_eq x : is_nan x = true -> x = nan.
Proof.
  rewrite is_nan_signOf. intros H. apply Prim2SF_inj.
  destruct (Prim2SF x); try discriminate. reflexivity.
Qed.

Lemma signOf_mul_100 x s :
  signOf (Prim2SF x) = Some s -> signOf (Prim2SF (x * 100)) = Some s.
Proof.
  intros H. rewrite FloatAxioms.mul_spec, Prim2SF_100. unfold SF64mul.
  rewrite (SFmul_finite_sign _ s) by exact H. rewrite xorb_false_r. reflexivity.
Qed.

Lemma signOf_div_100 x s :
  signOf (Prim2SF x) = Some s -> signOf (Prim2SF (x / 100)) = Some s.
Proof.
  intros H. rewrite FloatAxioms.div_spec, Prim2SF_100. unfold SF64div.
  rewrite (SFdiv_finite_sign _ s) by exact H. rewrite xorb_false_r. reflexivity.
Qed.

Lemma signOf_Z2F n : signOf (Prim2SF (Z2F n)) = Some false.
Proof.
  unfold Z2F. rewrite of_uint63_spec. apply binary_normalize_sign.
  apply Uint63.to_Z_bounded.
Qed.

(** [Math.round] keeps the sign bit and yields NaN only for NaN. *)
Lemma signOf_Math_round x :
  signOf (Prim2SF (Math_round x)) = signOf (Prim2SF x).
Proof.
  unfold Math_round. destruct (Prim2SF x) as [s|s| |s m e] eqn:Hx;
    try (rewrite Hx; reflexivity).
  destruct (0 <=? e)%Z; [rewrite Hx; reflexivity|].
  destruct s; simpl.
  - rewrite FloatAxioms.opp_spec.
    match goal with |- context [Prim2SF (Z2F ?n)] =>
      generalize (signOf_Z2F n); destruct (Prim2SF (Z2F n)) end;
      simpl; intros H; inversion H; reflexivity.
  - apply signOf_Z2F.
Qed.

(** [roundToCents] keeps the sign bit of a number that is not NaN. *)
Lemma signOf_roundToCents x s :
  signOf (Prim2SF x) = Some s -> signOf (Prim2SF (roundToCents x)) = Some s.
Proof.
  intros H. unfold roundToCents. rewrite is_nan_signOf, H.
  apply signOf_div_100. rewrite signOf_Math_round. apply signOf_mul_100, H.
Qed.

(** [roundToCents] never returns NaN. *)
Lemma roundToCents_not_nan v : is_nan (roundToCents v) = false.
Proof.
  destruct v as [x| | |b|s]; try reflexivity.
  destruct (signOf (Prim2SF x)) as [s|] eqn:H.
  - rewrite is_nan_signOf, (signOf_roundToCents x s H). reflexivity.
  - unfold roundToCents. rewrite (is_nan_signOf x), H. reflexivity.
Qed.

Lemma roundToCents_nonNegative x :
  nonNegative x \/ is_nan x = true -> nonNegative (roundToCents x).
Proof.
  intros [H|H].
  - apply signOf_roundToCents, H.
  - apply is_nan_eq in H. subst x. reflexivity.
Qed.

Lemma sub_nonNegative x y :
  nonNegative x -> (x <? y) = false ->
  nonNegative (x - y) \/ is_nan (x - y) = true.
Proof.
  unfold nonNegative. intros Hx Hlt. rewrite FloatAxioms.ltb_spec in Hlt.
  rewrite is_nan_signOf, FloatAxioms.sub_spec. unfold SF64sub.
  destruct (SFsub_nonneg (Prim2SF x) (Prim2SF y)
              (Prim2SF_valid x) (Prim2SF_valid y) Hx Hlt) as [H|H];
    rewrite H; auto.
Qed.

Lemma roundToCents_sub_diag x : roundToCents (x - x) = 0.
Proof.
  assert (H : x - x = 0 \/ x - x = nan).
  { destruct (SFsub_diag (Prim2SF x)) as [H|H]; [left|right];
      apply Prim2SF_inj; rewrite FloatAxioms.sub_spec; exact H. }
  destruct H as [H|H]; rewrite H; reflexivity.
Qed.

Lemma nonNegative_leb_0 x : nonNegative x -> (x <=? 0) = true -> x = 0.
Proof.
  unfold nonNegative. intros Hx Hle. rewrite FloatAxioms.leb_spec, Prim2SF_0 in Hle.
  apply Prim2SF_inj. rewrite Prim2SF_0. apply SFleb_zero_nonneg; assumption.
Qed.

Lemma ltb_0_nonNegative x : (0 <? x) = true -> nonNegative x.
Proof.
  rewrite FloatAxioms.ltb_spec, Prim2SF_0. apply SFltb_zero_positive.
Qed.

Lemma ltb_0_not_ltb x : (0 <? x) = true -> (x <? 0) = false.
Proof.
  rewrite !FloatAxioms.ltb_spec, Prim2SF_0.
  destruct (Prim2SF x) as [s|[]| |[] m e]; unfold SFltb; simpl; intros;
    try discriminate; reflexivity.
Qed.

Lemma leb_0_not_ltb x : (0 <=? x) = true -> (x <? 0) = false.
Proof. rewrite FloatAxioms.leb_spec, FloatAxioms.ltb_spec, Prim2SF_0. apply SFleb_zero_not_lt. Qed.

Lemma ltb_infinity_l x : (infinity <? x) = false.
Proof. rewrite FloatAxioms.ltb_spec. apply SFltb_infinity_l. Qed.

Lemma Prim2SF_Z2F n :
  (0 <= n < 2 ^ 63)%Z ->
  Prim2SF (Z2F n) = binary_normalize prec emax n 0 false.
Proof.
  intros H. unfold Z2F. rewrite of_uint63_spec, Uint63.of_Z_spec.
  rewrite Z.mod_small; [reflexivity|].
  change Uint63.wB with (2 ^ 63)%Z. exact H.
Qed.

Lemma leb_Z2F k n :
  (1 <= k <= n)%Z -> (n < 2 ^ 53)%Z -> (Z2F k <=? Z2F n) = true.
Proof.
  intros Hk Hn. rewrite FloatAxioms.leb_spec.
  assert (H63 : (2 ^ 53 < 2 ^ 63)%Z) by reflexivity.
  rewrite !Prim2SF_Z2F by lia.
  destruct k as [|p|p]; try lia. destruct n as [|q|q]; try lia.
  apply SFleb_whole; lia.
Qed.

Lemma eqb_Z2F_refl n : (Z2F n =? Z2F n) = true.
Proof.
  rewrite FloatAxioms.eqb_spec. unfold SFeqb.
  rewrite SFcompare_refl; [reflexivity|]. rewrite signOf_Z2F. discriminate.
Qed.

Lemma Prim2SF_12 : Prim2SF 12 = S754_finite false 6755399441055744 (-49).
Proof. reflexivity. Qed.

Lemma signOf_mul_12 x s :
  signOf (Prim2SF x) = Some s -> signOf (Prim2SF (x * 12)) = Some s.
Proof.
  intros H. rewrite FloatAxioms.mul_spec, Prim2SF_12. unfold SF64mul.
  rewrite (SFmul_finite_sign _ s) by exact H. rewrite xorb_false_r. reflexivity.
Qed.

Lemma nonNegative_not_ltb_0 x : nonNegative x -> (x <? 0) = false.
Proof.
  unfold nonNegative. rewrite FloatAxioms.ltb_spec, Prim2SF_0.
  destruct (Prim2SF x) as [s|s| |s m e]; simpl; intros H; inversion H;
    reflexivity.
Qed.

Lemma is_finite_not_nan x : is_finite x = true -> is_nan x = false.
Proof. unfold is_finite. destruct (is_nan x); [discriminate|reflexivity]. Qed.

(** A finite number whose twelvefold is not negative is not negative. *)
Lemma mul_12_nonNegative x :
  is_finite x = true -> nonNegative (x * 12) -> nonNegative x.
Proof.
  intros Hf H. apply is_finite_not_nan in Hf. rewrite is_nan_signOf in Hf.
  unfold nonNegative in *.
  destruct (signOf (Prim2SF x)) as [s|] eqn:Hs; [|discriminate].
  rewrite (signOf_mul_12 x s Hs) in H. exact H.
Qed.

Lemma leb_1_nonNegative x : (1 <=? x) = true -> nonNegative x.
Proof.
  unfold nonNegative. rewrite FloatAxioms.leb_spec.
  change (Prim2SF 1) with (S754_finite false 4503599627370496 (-52)).
  destruct (Prim2SF x) as [s|[]| |[] m e]; unfold SFleb; simpl; intros;
    try discriminate; reflexivity.
Qed.

Lemma eqb_0_zero x : (x =? 0) = true -> exists s, Prim2SF x = S754_zero s.
Proof.
  rewrite FloatAxioms.eqb_spec, Prim2SF_0.
  destruct (Prim2SF x) as [s|[]| |[] m e]; unfold SFeqb; simpl; intros;
    try discriminate. exists s. reflexivity.
Qed.

Lemma eqb_0_acceptable x : (x =? 0) = true -> acceptable x = true.
Proof.
  intros H. destruct (eqb_0_zero x H) as [s Hs].
  unfold acceptable, is_finite, is_infinity.
  rewrite is_nan_signOf, FloatAxioms.eqb_spec, FloatAxioms.abs_spec,
    FloatAxioms.ltb_spec, Hs.
  reflexivity.
Qed.

(** ** [validateNumber] *)

Lemma validateNumber_acceptable v fieldName :
  acceptable v = true ->
  validateNumber v fieldName defaultOptions = Ok (numberOf v).
Proof.
  destruct v as [x| | |b|s]; try discriminate. simpl.
  intros H. apply andb_prop in H. destruct H as [Hf Hlt].
  rewrite (is_finite_not_nan x Hf), Hf. simpl.
  apply negb_true_iff in Hlt. rewrite Hlt, ltb_infinity_l. reflexivity.
Qed.

Lemma validateNumber_not_acceptable v fieldName :
  acceptable v = false ->
  exists e, validateNumber v fieldName defaultOptions = Throw e /\
            isValidationError e.
Proof.
  assert (H1 : isValidationError (mkAppError (MustBeValidNumber fieldName) 400))
    by (split; [reflexivity|exists fieldName; left; reflexivity]).
  assert (H2 : isValidationError (mkAppError (CannotBeLessThan fieldName 0) 400))
    by (split; [reflexivity|exists fieldName; right; reflexivity]).
  destruct v as [x| | |b|s]; simpl; intros H;
    try (eexists; split; [reflexivity|exact H1]).
  destruct (is_nan x || negb (is_finite x)) eqn:Hf;
    [eexists; split; [reflexivity|exact H1]|].
  apply orb_false_elim in Hf. destruct Hf as [_ Hf].
  apply negb_false_iff in Hf. rewrite Hf in H. simpl in H.
  apply negb_false_iff in H. rewrite H.
  eexists; split; [reflexivity|exact H2].
Qed.

Lemma acceptable_number x :
  is_finite x = true -> (x <? 0) = false -> acceptable x = true.
Proof. intros Hf Hlt. simpl. rewrite Hf, Hlt. reflexivity. Qed.

(** * Properties of the service *)

(** ** [calculatePrincipalAndInterest] *)

(** The zero-rate branch.  For a finite principal above 0 and a finite term
    of at least one month, [calculatePrincipalAndInterest] at a rate equal
    to 0 returns [roundToCents] of the principal divided by the number of
    months; the branch taken does not call [Math.pow]. *)
Lemma calculatePrincipalAndInterest_zero_rate
    (Math_pow : number -> number -> number) (loanAmount annualRate termYears : number) :
  is_finite loanAmount = true -> (0 <? loanAmount) = true ->
  (annualRate =? 0) = true ->
  is_finite termYears = true -> (1 <=? termYears * 12) = true ->
  calculatePrincipalAndInterest Math_pow loanAmount annualRate termYears
  = Ok (roundToCents (loanAmount / (termYears * 12))).
Proof.
  intros HfP HP Hr HfT HT.
  unfold calculatePrincipalAndInterest.
  rewrite (validateNumber_acceptable loanAmount)
    by (apply acceptable_number; auto using ltb_0_not_ltb).
  rewrite (validateNumber_acceptable annualRate) by (apply eqb_0_acceptable, Hr).
  rewrite (validateNumber_acceptable termYears)
    by (apply acceptable_number; auto;
        apply nonNegative_not_ltb_0, mul_12_nonNegative, leb_1_nonNegative; auto).
  cbn [bind numberOf]. rewrite Hr. reflexivity.
Qed.

(** The second scenario of the specification: 100000 at 0% over 120 months. *)
Example scenario_zero_rate_payment_833 :
  calculatePrincipalAndInterest powWhole 100000 0 10 = Ok 833.33.
Proof. reflexivity. Qed.

Lemma calculatePrincipalAndInterest_acceptable Math_pow la ar ty :
  acceptable la = true -> acceptable ar = true -> acceptable ty = true ->
  exists x, calculatePrincipalAndInterest Math_pow la ar ty = Ok x /\
            is_nan x = false.
Proof.
  intros Hla Har Hty. unfold calculatePrincipalAndInterest.
  rewrite !validateNumber_acceptable by assumption. cbn [bind].
  destruct (numberOf ar =? 0); eexists; split; try reflexivity;
    apply roundToCents_not_nan.
Qed.

(** C2, as the code has it.  [calculatePrincipalAndInterest] throws, and
    then an [AppError] of status 400 saying "must be a valid number" or
    "cannot be less than 0", exactly when one of its arguments is not a
    number, is NaN or an infinity, or is below 0; for every other input,
    a zero principal, a zero term and an overflowing [Math.pow] included,
    it returns a number, which is never NaN. *)
Theorem calculatePrincipalAndInterest_throws_iff
    (Math_pow : number -> number -> number) (loanAmount annualRate termYears : value) :
  if acceptable loanAmount && acceptable annualRate && acceptable termYears
  then exists x,
         calculatePrincipalAndInterest Math_pow loanAmount annualRate termYears
         = Ok x /\ is_nan x = false
  else exists e,
         calculatePrincipalAndInterest Math_pow loanAmount annualRate termYears
         = Throw e /\ isValidationError e.
Proof.
  destruct (acceptable loanAmount) eqn:Hla; cbn [andb].
  - destruct (acceptable annualRate) eqn:Har; cbn [andb].
    + destruct (acceptable termYears) eqn:Hty.
      * apply calculatePrincipalAndInterest_acceptable; assumption.
      * unfold calculatePrincipalAndInterest.
        rewrite !validateNumber_acceptable by assumption. cbn [bind].
        destruct (validateNumber_not_acceptable termYears "Loan term" Hty)
          as (e & -> & He).
        exists e. split; [reflexivity|exact He].
    + unfold calculatePrincipalAndInterest.
      rewrite !validateNumber_acceptable by assumption. cbn [bind].
      destruct (validateNumber_not_acceptable annualRate "Interest rate" Har)
        as (e & -> & He).
      exists e. split; [reflexivity|exact He].
  - unfold calculatePrincipalAndInterest.
    destruct (validateNumber_not_acceptable loanAmount "Loan amount" Hla)
      as (e & -> & He).
    exists e. split; [reflexivity|exact He].
Qed.

(** C2 fails on the code: a term of zero years is accepted and the payment
    returned is Infinity. *)
Lemma calculatePrincipalAndInterest_zero_term :
  calculatePrincipalAndInterest powWhole 200000 4.5 0 = Ok infinity.
Proof. reflexivity. Qed.

(** A zero principal is accepted as well, and so is a rate at which
    [(1 + r) ^ n] overflows: the payment returned is 0. *)
Example calculatePrincipalAndInterest_zero_principal :
  calculatePrincipalAndInterest powWhole 0 4.5 30 = Ok 0.
Proof. reflexivity. Qed.

Example calculatePrincipalAndInterest_overflow :
  powWhole (1 + 1e30 / 100 / 12) (1 * 12) = infinity /\
  calculatePrincipalAndInterest powWhole 100000 1e30 1 = Ok 0.
Proof. split; reflexivity. Qed.

(** ** [calculateAPR] *)

(** C5, as the code has it.  With fees equal to 0, [calculateAPR] on accepted
    arguments returns [roundToCents] of the nominal rate, the rate rounded
    to two decimals, without entering the Newton-Raphson loop. *)
Theorem calculateAPR_zero_fees
    (Math_pow : number -> number -> number)
    (loanAmount interestRate loanTerm : value) (fees : number) :
  acceptable loanAmount = true -> acceptable interestRate = true ->
  acceptable loanTerm = true -> (fees =? 0) = true ->
  calculateAPR Math_pow loanAmount interestRate loanTerm (Some fees)
  = Ok (roundToCents (numberOf interestRate)).
Proof.
  intros Hla Hir Hlt Hf. unfold calculateAPR.
  rewrite !validateNumber_acceptable by assumption. cbn [bind].
  rewrite Hf, orb_true_r. reflexivity.
Qed.

Lemma calculateAPR_zero_fees_witness :
  calculateAPR powWhole 300000 6.5 30 (Some 0) = Ok (roundToCents 6.5).
Proof.
  apply (calculateAPR_zero_fees powWhole 300000 6.5 30 0); reflexivity.
Defined.

(** The third scenario of the specification: a rate of two decimals comes
    back as it is. *)
Example scenario_zero_fees_apr_6_5 :
  calculateAPR powWhole 300000 6.5 30 (Some 0) = Ok 6.5.
Proof. reflexivity. Qed.

(** C5 fails on the code: the nominal rate 6.125 comes back as 6.13. *)
Lemma calculateAPR_rounds_nominal_rate :
  calculateAPR powWhole 300000 6.125 30 (Some 0) = Ok 6.13 /\
  calculateAPR powWhole 300000 6.125 30 (Some 0) <> Ok 6.125.
Proof.
  split; [reflexivity|].
  intros H.
  assert (H' : match calculateAPR powWhole 300000 6.125 30 (Some 0) with
               | Ok x => x =? 6.125
               | Throw _ => false
               end = true) by (rewrite H; reflexivity).
  discriminate H'.
Qed.

Lemma calculateAPR_truthy_fees Math_pow la ir lt fees monthlyPayment :
  acceptable la = true -> acceptable ir = true -> acceptable lt = true ->
  truthy fees = true ->
  calculatePrincipalAndInterest Math_pow la ir lt = Ok monthlyPayment ->
  calculateAPR Math_pow la ir lt (Some fees)
  = Ok (roundToCents
          (aprLoop Math_pow maxIterations monthlyPayment
             (numberOf la - fees) (numberOf lt) (numberOf ir))).
Proof.
  intros Hla Hir Hlt Hf Hmp. unfold calculateAPR.
  rewrite !validateNumber_acceptable by assumption. cbn [bind].
  assert (H0 : (fees =? 0) = false).
  { unfold truthy in Hf. apply negb_true_iff, orb_false_elim in Hf. tauto. }
  rewrite Hf, H0, Hmp. reflexivity.
Qed.

(** C4, as the code has it.  [calculateAPR] has no convergence flag and no
    failure of its own: on accepted arguments with truthy fees it returns
    [roundToCents] of the estimate that [aprLoop] ends with, after at most
    [maxIterations] steps and whether or not the tolerance was met; that
    number is never NaN. *)
Theorem calculateAPR_returns_last_estimate
    (Math_pow : number -> number -> number)
    (loanAmount interestRate loanTerm : value) (fees : number) :
  acceptable loanAmount = true -> acceptable interestRate = true ->
  acceptable loanTerm = true -> truthy fees = true ->
  exists monthlyPayment,
    calculatePrincipalAndInterest Math_pow loanAmount interestRate loanTerm
    = Ok monthlyPayment /\
    calculateAPR Math_pow loanAmount interestRate loanTerm (Some fees)
    = Ok (roundToCents
            (aprLoop Math_pow maxIterations monthlyPayment
               (numberOf loanAmount - fees) (numberOf loanTerm)
               (numberOf interestRate))) /\
    is_nan (roundToCents
              (aprLoop Math_pow maxIterations monthlyPayment
                 (numberOf loanAmount - fees) (numberOf loanTerm)
                 (numberOf interestRate))) = false.
Proof.
  intros Hla Hir Hlt Hf.
  destruct (calculatePrincipalAndInterest_acceptable Math_pow _ _ _ Hla Hir Hlt)
    as (mp & Hmp & _).
  exists mp. split; [exact Hmp|]. split; [|apply roundToCents_not_nan].
  apply calculateAPR_truthy_fees; assumption.
Qed.

Lemma calculateAPR_returns_last_estimate_witness :
  exists monthlyPayment,
    calculatePrincipalAndInterest powWhole 300000 6.5 30 = Ok monthlyPayment /\
    calculateAPR powWhole 300000 6.5 30 (Some 5000)
    = Ok (roundToCents
            (aprLoop powWhole maxIterations monthlyPayment
               (300000 - 5000) 30 6.5)) /\
    is_nan (roundToCents
              (aprLoop powWhole maxIterations monthlyPayment
                 (300000 - 5000) 30 6.5)) = false.
Proof.
  apply (calculateAPR_returns_last_estimate powWhole 300000 6.5 30 5000);
    reflexivity.
Defined.

(** C4 fails on the code: at a nominal rate of 0 with fees of 1000 the first
    update is NaN, no later step meets the tolerance, and after the 100
    iterations the caller gets the plain number 0. *)
Lemma calculateAPR_unflagged_zero :
  aprStep powWhole 277.78 (100000 - 1000) 30 0 = Some nan /\
  aprStep powWhole 277.78 (100000 - 1000) 30 nan = Some nan /\
  calculatePrincipalAndInterest powWhole 100000 0 30 = Ok 277.78 /\
  calculateAPR powWhole 100000 0 30 (Some 1000) = Ok 0.
Proof. repeat split; vm_compute; reflexivity. Qed.

(** ** [roundToCents] *)

(** C10.  [roundToCents] returns 0 for a value that is not a number and for
    NaN; hence a NaN annuity payment leaves [calculatePrincipalAndInterest]
    as 0, and a NaN estimate leaves [calculateAPR] as 0. *)
Theorem roundToCents_NaN_is_zero :
  (forall v : value,
      match v with VNumber x => is_nan x | _ => true end = true ->
      roundToCents v = 0) /\
  (forall (Math_pow : number -> number -> number)
          (loanAmount annualRate termYears : number),
      acceptable loanAmount = true -> acceptable annualRate = true ->
      acceptable termYears = true -> (annualRate =? 0) = false ->
      let monthlyRate := annualRate / 100 / 12 in
      let numPayments := termYears * 12 in
      is_nan (loanAmount *
              (monthlyRate * Math_pow (1 + monthlyRate) numPayments) /
              (Math_pow (1 + monthlyRate) numPayments - 1)) = true ->
      calculatePrincipalAndInterest Math_pow loanAmount annualRate termYears
      = Ok 0) /\
  (forall (Math_pow : number -> number -> number)
          (loanAmount interestRate loanTerm fees monthlyPayment : number),
      acceptable loanAmount = true -> acceptable interestRate = true ->
      acceptable loanTerm = true -> truthy fees = true ->
      calculatePrincipalAndInterest Math_pow loanAmount interestRate loanTerm
      = Ok monthlyPayment ->
      is_nan (aprLoop Math_pow maxIterations monthlyPayment
                (loanAmount - fees) loanTerm interestRate) = true ->
      calculateAPR Math_pow loanAmount interestRate loanTerm (Some fees)
      = Ok 0).
Proof.
  split; [|split].
  - intros [x| | |b|s] H; try reflexivity. simpl. rewrite H. reflexivity.
  - intros Math_pow la ar ty Hla Har Hty Hr mr np Hnan.
    unfold calculatePrincipalAndInterest.
    rewrite !validateNumber_acceptable by assumption. cbn [bind numberOf].
    rewrite Hr. fold mr np. cbn [roundToCents]. rewrite Hnan. reflexivity.
  - intros Math_pow la ir lt fees mp Hla Hir Hlt Hf Hmp Hnan.
    rewrite (calculateAPR_truthy_fees Math_pow la ir lt fees mp)
      by assumption.
    cbn [numberOf roundToCents]. rewrite Hnan. reflexivity.
Qed.

Lemma roundToCents_NaN_is_zero_witness :
  roundToCents VUndefined = 0 /\ roundToCents (VString "12.5") = 0 /\
  roundToCents nan = 0 /\
  calculatePrincipalAndInterest powWhole 100000 1e30 1 = Ok 0 /\
  calculateAPR powWhole 100000 0 30 (Some 1000) = Ok 0.
Proof.
  destruct roundToCents_NaN_is_zero as (H1 & H2 & H3).
  split; [apply (H1 VUndefined); reflexivity|].
  split; [apply (H1 (VString "12.5")); reflexivity|].
  split; [apply (H1 (VNumber nan)); reflexivity|].
  split.
  - apply (H2 powWhole 100000 1e30 1); reflexivity.
  - apply (H3 powWhole 100000 0 30 1000 277.78); vm_compute; reflexivity.
Defined.

(** ** [findBestLoan] *)

Section FindBestLoan.

Context {PayoffDate : Type}.

Lemma fold_keepCheaper_In (l : list (Comparison PayoffDate)) :
  forall first, In (fold_left keepCheaper l first) (first :: l).
Proof.
  induction l as [|c l IH]; intros first; cbn [fold_left].
  - left. reflexivity.
  - destruct (IH (keepCheaper first c)) as [H|H]; [|right; right; exact H].
    rewrite <- H. unfold keepCheaper.
    destruct (lessThan (totalCost c) (totalCost first));
      [right; left; reflexivity|left; reflexivity].
Qed.

Lemma fold_keepCheaper_stays (l : list (Comparison PayoffDate)) :
  forall best,
    (forall c, In c l -> lessThan (totalCost c) (totalCost best) = false) ->
    fold_left keepCheaper l best = best.
Proof.
  induction l as [|c l IH]; intros best H; cbn [fold_left]; [reflexivity|].
  unfold keepCheaper at 2. rewrite (H c) by (left; reflexivity).
  apply IH. intros c' Hc'. apply H. right. exact Hc'.
Qed.

(** C9.  When an entry costs strictly less than every entry before it and
    no entry after it costs strictly less, [findBestLoan] returns that
    entry: among the entries of minimal [totals.totalCost] the first in
    input order, whatever their other fields. *)
Theorem findBestLoan_first_of_the_cheapest
    (earlier later : list (Comparison PayoffDate)) (best : Comparison PayoffDate) :
  (forall c, In c earlier -> lessThan (totalCost best) (totalCost c) = true) ->
  (forall c, In c later -> lessThan (totalCost c) (totalCost best) = false) ->
  findBestLoan (earlier ++ best :: later) = Some best.
Proof.
  intros Hearlier Hlater. unfold findBestLoan.
  destruct earlier as [|first rest]; cbn [app].
  - f_equal. apply fold_keepCheaper_stays, Hlater.
  - f_equal. rewrite fold_left_app. cbn [fold_left].
    assert (H : keepCheaper (fold_left keepCheaper rest first) best = best).
    { unfold keepCheaper at 1.
      rewrite (Hearlier _ (fold_keepCheaper_In rest first)). reflexivity. }
    rewrite H. apply fold_keepCheaper_stays, Hlater.
Qed.

End FindBestLoan.

Lemma findBestLoan_first_of_the_cheapest_witness :
  findBestLoan
    ([sampleComparison 1 600000] ++
     sampleComparison 2 500000 ::
     [sampleComparison 3 500000; sampleComparison 4 550000])
  = Some (sampleComparison 2 500000).
Proof.
  apply (findBestLoan_first_of_the_cheapest
           [sampleComparison 1 600000] 
           [sampleComparison 3 500000; sampleComparison 4 550000]
           (sampleComparison 2 500000)).
  - intros c [<-|[]]. reflexivity.
  - intros c [<-|[<-|[]]]; reflexivity.
Defined.

(** ** [generateAmortizationSchedule] *)

Lemma generateAmortizationSchedule_acceptable Math_pow fuel la ir lt :
  acceptable la = true -> acceptable ir = true -> acceptable lt = true ->
  exists monthlyPayment,
    calculatePrincipalAndInterest Math_pow la ir lt = Ok monthlyPayment /\
    generateAmortizationSchedule Math_pow fuel la ir lt
    = option_map Ok
        (scheduleLoop fuel (numberOf la) monthlyPayment
           (numberOf ir / 100 / 12) (numberOf lt * 12) 1 (numberOf la) []).
Proof.
  intros Hla Hir Hlt.
  destruct (calculatePrincipalAndInterest_acceptable Math_pow _ _ _ Hla Hir Hlt)
    as (mp & Hmp & _).
  exists mp. split; [exact Hmp|].
  unfold generateAmortizationSchedule.
  rewrite !validateNumber_acceptable by assumption. cbn [bind].
  rewrite Hmp. reflexivity.
Qed.

Lemma generateAmortizationSchedule_not_acceptable Math_pow fuel la ir lt :
  acceptable la && acceptable ir && acceptable lt = false ->
  exists e, generateAmortizationSchedule Math_pow fuel la ir lt = Some (Throw e) /\
            isValidationError e.
Proof.
  intros H. unfold generateAmortizationSchedule.
  destruct (acceptable la) eqn:Hla.
  - rewrite (validateNumber_acceptable la) by assumption. cbn [bind].
    destruct (acceptable ir) eqn:Hir.
    + rewrite (validateNumber_acceptable ir) by assumption. cbn [bind].
      destruct (acceptable lt) eqn:Hlt; [discriminate|].
      destruct (validateNumber_not_acceptable lt "Loan term" Hlt)
        as (e & -> & He).
      exists e. split; [reflexivity|exact He].
    + destruct (validateNumber_not_acceptable ir "Interest rate" Hir)
        as (e & -> & He).
      exists e. split; [reflexivity|exact He].
  - destruct (validateNumber_not_acceptable la "Loan amount" Hla)
      as (e & -> & He).
    exists e. split; [reflexivity|exact He].
Qed.

Section ScheduleLoop.

Variables loanAmount monthlyPayment monthlyRate : number.
Variable n : Z.
Hypothesis n_whole : (1 <= n < 2 ^ 53)%Z.

Lemma scheduleStep_nonNegative numPayments k balance schedule :
  nonNegative balance ->
  nonNegative
    (remainingBalance
       (scheduleStep loanAmount monthlyPayment monthlyRate numPayments
          k balance schedule)).
Proof.
  intros Hb. unfold scheduleStep. cbn [remainingBalance].
  match goal with |- context [if ?c then _ else _] => destruct c eqn:Hc end.
  - rewrite roundToCents_sub_diag. reflexivity.
  - apply orb_false_elim in Hc. destruct Hc as [_ Hc].
    apply roundToCents_nonNegative, sub_nonNegative; assumption.
Qed.

Lemma scheduleStep_final balance schedule :
  remainingBalance
    (scheduleStep loanAmount monthlyPayment monthlyRate (Z2F n)
       n balance schedule) = 0.
Proof.
  unfold scheduleStep. cbn [remainingBalance].
  rewrite eqb_Z2F_refl. cbn [orb]. apply roundToCents_sub_diag.
Qed.

(** From a balance that is not negative the loop returns, its last row has
    a balance of exactly 0, no row has a negative or NaN balance, and each
    balance is the one before less the principal paid, rounded to cents. *)
Lemma scheduleLoop_ends fuel :
  forall k balance schedule,
    (1 <= k <= n)%Z -> (Z.to_nat (n - k) < fuel)%nat -> nonNegative balance ->
    exists rows e,
      scheduleLoop fuel loanAmount monthlyPayment monthlyRate (Z2F n)
        k balance schedule = Some (schedule ++ rows ++ [e]) /\
      remainingBalance e = 0 /\
      Forall (fun e' => nonNegative (remainingBalance e')) (rows ++ [e]) /\
      balancesFrom balance (rows ++ [e]).
Proof.
  induction fuel as [|fuel IH]; intros k balance schedule Hk Hfuel Hb; [lia|].
  cbn [scheduleLoop]. rewrite leb_Z2F by lia.
  set (e0 := scheduleStep loanAmount monthlyPayment monthlyRate (Z2F n)
               k balance schedule).
  pose proof (scheduleStep_nonNegative (Z2F n) k balance schedule Hb) as H0.
  fold e0 in H0.
  destruct (remainingBalance e0 <=? 0) eqn:Hle.
  - exists [], e0. cbn [app].
    repeat split; auto using nonNegative_leb_0.
  - destruct (Z.eq_dec k n) as [->|Hne].
    + unfold e0 in Hle. rewrite scheduleStep_final in Hle. discriminate Hle.
    + destruct (IH (k + 1)%Z (remainingBalance e0) (schedule ++ [e0]))
        as (rows & e & Hloop & Hzero & Hall & Hchain); try lia; auto.
      exists (e0 :: rows), e. rewrite Hloop, <- app_assoc. cbn [app].
      repeat split; auto.
Qed.

End ScheduleLoop.

(** A property of every row that [scheduleStep] builds holds of every row
    of the schedule returned. *)
Lemma scheduleLoop_Forall (Q : Entry -> Prop) la mp r np :
  (forall k b schedule, Q (scheduleStep la mp r np k b schedule)) ->
  forall fuel k b schedule out,
    Forall Q schedule ->
    scheduleLoop fuel la mp r np k b schedule = Some out -> Forall Q out.
Proof.
  intros HQ. induction fuel as [|fuel IH]; intros k b schedule out Hs H;
    cbn [scheduleLoop] in H; [discriminate|].
  destruct (Z2F k <=? np); [|inversion H; subst; exact Hs].
  assert (Hs' : Forall Q (schedule ++ [scheduleStep la mp r np k b schedule]))
    by (apply Forall_app; split; [exact Hs|constructor; [apply HQ|constructor]]).
  destruct (remainingBalance _ <=? 0).
  - inversion H; subst. exact Hs'.
  - eapply IH; eassumption.
Qed.

(** What the statements below need of a valid input: the three arguments
    are accepted and the schedule loop starts from the principal. *)
Lemma generateAmortizationSchedule_valid Math_pow fuel
    (loanAmount interestRate loanTerm : number) n :
  is_finite loanAmount = true -> (0 <? loanAmount) = true ->
  is_finite interestRate = true -> (0 <=? interestRate) = true ->
  is_finite loanTerm = true -> loanTerm * 12 = Z2F n ->
  nonNegative loanAmount /\
  exists monthlyPayment,
    calculatePrincipalAndInterest Math_pow loanAmount interestRate loanTerm
    = Ok monthlyPayment /\
    generateAmortizationSchedule Math_pow fuel loanAmount interestRate loanTerm
    = option_map Ok
        (scheduleLoop fuel loanAmount monthlyPayment
           (interestRate / 100 / 12) (Z2F n) 1 loanAmount []).
Proof.
  intros HfP HP Hfr Hr HfT HT.
  split; [apply ltb_0_nonNegative, HP|].
  assert (HnT : nonNegative loanTerm).
  { apply mul_12_nonNegative; [exact HfT|]. rewrite HT. apply signOf_Z2F. }
  destruct (generateAmortizationSchedule_acceptable Math_pow fuel
              loanAmount interestRate loanTerm) as (mp & Hmp & Hgen).
  - apply acceptable_number; auto using ltb_0_not_ltb.
  - apply acceptable_number; auto using leb_0_not_ltb.
  - apply acceptable_number; auto using nonNegative_not_ltb_0.
  - exists mp. split; [exact Hmp|]. rewrite Hgen. cbn [numberOf].
    rewrite HT. reflexivity.
Qed.

(** Zero-balance termination.  For a finite principal above 0, a finite
    rate of at least 0 and a finite term whose number of months
    [loanTerm * 12] is a whole number [n] with [1 <= n < 2^53],
    [generateAmortizationSchedule] returns a schedule that is not empty,
    the [remainingBalance] of its last row is exactly 0, and no row has a
    negative or NaN [remainingBalance]. *)
Lemma generateAmortizationSchedule_ends_at_zero
    (Math_pow : number -> number -> number)
    (loanAmount interestRate loanTerm : number) (n : Z) (fuel : nat) :
  is_finite loanAmount = true -> (0 <? loanAmount) = true ->
  is_finite interestRate = true -> (0 <=? interestRate) = true ->
  is_finite loanTerm = true -> loanTerm * 12 = Z2F n ->
  (1 <= n < 2 ^ 53)%Z -> (Z.to_nat n <= fuel)%nat ->
  exists rows e,
    generateAmortizationSchedule Math_pow fuel loanAmount interestRate loanTerm
    = Some (Ok (rows ++ [e])) /\
    remainingBalance e = 0 /\
    Forall (fun e' => nonNegative (remainingBalance e')) (rows ++ [e]).
Proof.
  intros HfP HP Hfr Hr HfT HT Hn Hfuel.
  destruct (generateAmortizationSchedule_valid Math_pow fuel
              loanAmount interestRate loanTerm n HfP HP Hfr Hr HfT HT)
    as (HnP & mp & _ & ->).
  destruct (scheduleLoop_ends loanAmount mp (interestRate / 100 / 12) n Hn
              fuel 1%Z loanAmount []) as (rows & e & -> & Hzero & Hall & _);
    try lia; auto.
  exists rows, e. auto.
Qed.

Example generateAmortizationSchedule_ends_at_zero_300000 :
  exists rows e,
    generateAmortizationSchedule powWhole 360 300000 4.5 30
    = Some (Ok (rows ++ [e])) /\
    remainingBalance e = 0 /\
    Forall (fun e' => nonNegative (remainingBalance e')) (rows ++ [e]).
Proof.
  apply (generateAmortizationSchedule_ends_at_zero powWhole 300000 4.5 30 360);
    try reflexivity.
  split; [lia|reflexivity].
Qed.

(** C1 fails on the code.  For a principal of 1000.466 at 47% over 30 years
    the payment is 39.18, the first balance is rounded up to 1000.47, whose
    interest is 39.19, and from there each row pays a principal of -0.01 or
    less: the sequence of [remainingBalance] is not non-increasing (it
    rises from 1000.47 to 138393.41 before the last row brings it to 0). *)
Theorem generateAmortizationSchedule_balance_grows :
  calculatePrincipalAndInterest powWhole 1000.466 47 30 = Ok 39.18 /\
  exists schedule,
    generateAmortizationSchedule powWhole 360 1000.466 47 30
    = Some (Ok schedule) /\
    map remainingBalance (firstn 3 schedule) = [1000.47; 1000.48; 1000.49] /\
    map principalPayment (firstn 3 schedule) = [0; -0.01; -0.01] /\
    map remainingBalance (skipn 358 schedule) = [138393.41; 0] /\
    nonIncreasing (map remainingBalance schedule) = false.
Proof.
  split; [reflexivity|].
  assert (H : match generateAmortizationSchedule powWhole 360 1000.466 47 30 with
              | Some (Ok schedule) =>
                  map remainingBalance (firstn 3 schedule)
                  = [1000.47; 1000.48; 1000.49] /\
                  map principalPayment (firstn 3 schedule) = [0; -0.01; -0.01] /\
                  map remainingBalance (skipn 358 schedule) = [138393.41; 0] /\
                  nonIncreasing (map remainingBalance schedule) = false
              | _ => False
              end) by (vm_compute; repeat split; reflexivity).
  destruct (generateAmortizationSchedule powWhole 360 1000.466 47 30)
    as [[schedule|e]|]; try contradiction.
  exists schedule. split; [reflexivity|exact H].
Qed.

(** That schedule is the same for every [Math.pow] with which the payment
    comes out as 39.18. *)
Lemma balance_grows_for_any_pow
    (Math_pow : number -> number -> number) (fuel : nat) :
  calculatePrincipalAndInterest Math_pow 1000.466 47 30 = Ok 39.18 ->
  generateAmortizationSchedule Math_pow fuel 1000.466 47 30
  = generateAmortizationSchedule powWhole fuel 1000.466 47 30.
Proof.
  intros H. unfold generateAmortizationSchedule. rewrite H.
  change (calculatePrincipalAndInterest powWhole 1000.466 47 30)
    with (@Ok AppError float 39.18).
  reflexivity.
Qed.

(** The balance grows as well when [(1 + r) ^ n] overflows: at a rate of
    1e30 percent the payment comes out as 0. *)
Example overflow_balance_grows :
  exists schedule,
    generateAmortizationSchedule powWhole 12 100000 1e30 1
    = Some (Ok schedule) /\
    nonIncreasing (map remainingBalance schedule) = false.
Proof.
  assert (H : match generateAmortizationSchedule powWhole 12 100000 1e30 1 with
              | Some (Ok schedule) =>
                  nonIncreasing (map remainingBalance schedule) = false
              | _ => False
              end) by (vm_compute; reflexivity).
  destruct (generateAmortizationSchedule powWhole 12 100000 1e30 1)
    as [[schedule|e]|]; try contradiction.
  exists schedule. split; [reflexivity|exact H].
Qed.

(** The schedule of that input is the same for every [Math.pow] that
    overflows at [(1 + r) ^ 12]. *)
Lemma overflow_schedule_for_any_pow
    (Math_pow : number -> number -> number) (fuel : nat) :
  Math_pow (1 + 1e30 / 100 / 12) (1 * 12) = infinity ->
  generateAmortizationSchedule Math_pow fuel 100000 1e30 1
  = generateAmortizationSchedule powWhole fuel 100000 1e30 1.
Proof.
  intros H. unfold generateAmortizationSchedule, calculatePrincipalAndInterest.
  change (validateNumber 100000 "Loan amount" defaultOptions) with (@Ok AppError float 100000).
  change (validateNumber 1e30 "Interest rate" defaultOptions) with (@Ok AppError float 1e30).
  change (validateNumber 1 "Loan term" defaultOptions) with (@Ok AppError float 1).
  cbn [bind]. change (1e30 =? 0) with false. cbv iota. rewrite H.
  reflexivity.
Qed.

(** ** Conservation of the principal *)

Lemma exactSumOf_principalPayment rows :
  forall balance qb,
    exactValue balance = Some qb -> roundedWithinCent balance rows = true ->
    exists total qlast,
      exactSumOf principalPayment rows = Some total /\
      exactValue (fold_left (fun _ e => remainingBalance e) rows balance)
      = Some qlast /\
      (Qabs (total - (qb - qlast))
       <= inject_Z (Z.of_nat (List.length rows)) * (1 # 100))%Q.
Proof.
  induction rows as [|e rows IH]; intros balance qb Hb H.
  - exists 0%Q, qb. split; [reflexivity|]. split; [exact Hb|].
    apply Qabs_Qle_condition. cbn [List.length Z.of_nat].
    change (inject_Z 0) with 0%Q. lra.
  - cbn [roundedWithinCent] in H. rewrite Hb in H.
    destruct (exactValue (principalPayment e)) as [p|] eqn:Hp; [|discriminate].
    destruct (exactValue (remainingBalance e)) as [b'|] eqn:Hb'; [|discriminate].
    apply andb_prop in H. destruct H as [H1 H2].
    apply Qle_bool_iff, Qabs_Qle_condition in H1.
    destruct (IH (remainingBalance e) b' Hb' H2) as (total & qlast & Hs & Hl & Hq).
    exists (p + total)%Q, qlast.
    cbn [exactSumOf fold_left]. rewrite Hp, Hs. split; [reflexivity|].
    split; [exact Hl|].
    apply Qabs_Qle_condition in Hq. apply Qabs_Qle_condition.
    cbn [List.length]. rewrite Nat2Z.inj_succ. unfold Z.succ.
    rewrite inject_Z_plus. change (inject_Z 1) with 1%Q. lra.
Qed.

(** When the last balance is 0 and no rounding of a balance moves it by more
    than a cent, the principal payments add up to the principal to within
    one cent per row. *)
Lemma withinCentPerEntry_of_roundedWithinCent principal rows e :
  remainingBalance e = 0 ->
  roundedWithinCent principal (rows ++ [e]) = true ->
  withinCentPerEntry principal (rows ++ [e]) = true.
Proof.
  intros Hzero H. unfold withinCentPerEntry.
  destruct (exactValue principal) as [qb|] eqn:Hb.
  - destruct (exactSumOf_principalPayment (rows ++ [e]) principal qb Hb H)
      as (total & qlast & -> & Hl & Hq).
    rewrite fold_left_app in Hl. cbn [fold_left] in Hl. rewrite Hzero in Hl.
    change (exactValue 0) with (Some 0%Q) in Hl. inversion Hl; subst qlast.
    apply Qle_bool_iff. apply Qabs_Qle_condition in Hq.
    apply Qabs_Qle_condition. lra.
  - destruct rows; cbn [app roundedWithinCent] in H; rewrite Hb in H;
      discriminate H.
Qed.

(** C7 fails on the code: at the rate of 1e30 percent the payment is 0, the
    principal payments are negative until the last row, and their sum, far
    from the principal of 100000, is below 0. *)
Lemma generateAmortizationSchedule_principal_not_conserved :
  exists schedule,
    generateAmortizationSchedule powWhole 12 100000 1e30 1
    = Some (Ok schedule) /\
    withinCentPerEntry 100000 schedule = false.
Proof.
  assert (H : match generateAmortizationSchedule powWhole 12 100000 1e30 1 with
              | Some (Ok schedule) => withinCentPerEntry 100000 schedule = false
              | _ => False
              end) by (vm_compute; reflexivity).
  destruct (generateAmortizationSchedule powWhole 12 100000 1e30 1)
    as [[schedule|e]|]; try contradiction.
  exists schedule. split; [reflexivity|exact H].
Qed.

(** On the first scenario of the specification the sum is within that
    tolerance. *)
Example generateAmortizationSchedule_principal_conserved_300000 :
  exists schedule,
    generateAmortizationSchedule powWhole 360 300000 4.5 30
    = Some (Ok schedule) /\
    withinCentPerEntry 300000 schedule = true /\
    nonIncreasing (map remainingBalance schedule) = true.
Proof.
  assert (H : match generateAmortizationSchedule powWhole 360 300000 4.5 30 with
              | Some (Ok schedule) =>
                  withinCentPerEntry 300000 schedule = true /\
                  nonIncreasing (map remainingBalance schedule) = true
              | _ => False
              end) by (vm_compute; split; reflexivity).
  destruct (generateAmortizationSchedule powWhole 360 300000 4.5 30)
    as [[schedule|e]|]; try contradiction.
  exists schedule. split; [reflexivity|exact H].
Qed.

(** C3, as the code has it.  [generateAmortizationSchedule] has no check for
    negative amortization.  It throws only the errors of [validateNumber],
    on arguments that [validateNumber] does not accept; and on a valid input
    whose payment is less than or equal to the interest of the first period
    it returns a schedule. *)
Theorem generateAmortizationSchedule_no_negative_amortization_error
    (Math_pow : number -> number -> number) :
  (forall fuel (loanAmount interestRate loanTerm : value) e,
      generateAmortizationSchedule Math_pow fuel loanAmount interestRate loanTerm
      = Some (Throw e) ->
      isValidationError e /\
      acceptable loanAmount && acceptable interestRate && acceptable loanTerm
      = false) /\
  (forall (loanAmount interestRate loanTerm monthlyPayment : number)
          (n : Z) (fuel : nat),
      is_finite loanAmount = true -> (0 <? loanAmount) = true ->
      is_finite interestRate = true -> (0 <=? interestRate) = true ->
      is_finite loanTerm = true -> loanTerm * 12 = Z2F n ->
      (1 <= n < 2 ^ 53)%Z -> (Z.to_nat n <= fuel)%nat ->
      calculatePrincipalAndInterest Math_pow loanAmount interestRate loanTerm
      = Ok monthlyPayment ->
      (monthlyPayment <=? roundToCents (loanAmount * (interestRate / 100 / 12)))
      = true ->
      exists rows e,
        generateAmortizationSchedule Math_pow fuel loanAmount interestRate loanTerm
        = Some (Ok (rows ++ [e]))).
Proof.
  split.
  - intros fuel la ir lt e H.
    destruct (acceptable la && acceptable ir && acceptable lt) eqn:Hacc.
    + apply andb_prop in Hacc. destruct Hacc as [Hacc Hlt].
      apply andb_prop in Hacc. destruct Hacc as [Hla Hir].
      destruct (generateAmortizationSchedule_acceptable Math_pow fuel la ir lt
                  Hla Hir Hlt) as (mp & _ & Hgen).
      rewrite Hgen in H. destruct (scheduleLoop _ _ _ _ _ _ _ _); discriminate H.
    + destruct (generateAmortizationSchedule_not_acceptable Math_pow fuel
                  la ir lt Hacc) as (e' & He' & Hv).
      rewrite He' in H. inversion H; subst. split; [exact Hv|reflexivity].
  - intros P r T mp n fuel HfP HP Hfr Hr HfT HT Hn Hfuel _ _.
    destruct (generateAmortizationSchedule_valid Math_pow fuel P r T n
                HfP HP Hfr Hr HfT HT) as (HnP & mp' & _ & ->).
    destruct (scheduleLoop_ends P mp' (r / 100 / 12) n Hn fuel 1%Z P [])
      as (rows & e & -> & _); try lia; auto.
    exists rows, e. reflexivity.
Qed.

Lemma generateAmortizationSchedule_no_negative_amortization_error_witness :
  exists rows e,
    generateAmortizationSchedule powWhole 360 1000.466 47 30
    = Some (Ok (rows ++ [e])).
Proof.
  apply (proj2 (generateAmortizationSchedule_no_negative_amortization_error
                  powWhole) 1000.466 47 30 39.18 360%Z 360%nat);
    try reflexivity.
  split; [lia|reflexivity].
Defined.

(** C3 fails on the code: for a principal of 1000.466 at 47% over 30 years
    the payment, 39.18, equals the interest of the first period, and what
    comes back is a schedule of 360 rows, not an error. *)
Lemma generateAmortizationSchedule_negative_amortization_accepted :
  calculatePrincipalAndInterest powWhole 1000.466 47 30 = Ok 39.18 /\
  roundToCents (1000.466 * (47 / 100 / 12)) = 39.18 /\
  (39.18 <=? 39.18) = true /\
  exists schedule,
    generateAmortizationSchedule powWhole 360 1000.466 47 30
    = Some (Ok schedule) /\
    List.length schedule = 360%nat.
Proof.
  split; [reflexivity|]. split; [reflexivity|]. split; [reflexivity|].
  assert (H : match generateAmortizationSchedule powWhole 360 1000.466 47 30 with
              | Some (Ok schedule) => List.length schedule = 360%nat
              | _ => False
              end) by (vm_compute; reflexivity).
  destruct (generateAmortizationSchedule powWhole 360 1000.466 47 30)
    as [[schedule|e]|]; try contradiction.
  exists schedule. split; [reflexivity|exact H].
Qed.

(** The same without [Math.pow]: a principal of one cent at 0% over one
    year has a payment of 0, equal to the interest, and gets a schedule. *)
Example generateAmortizationSchedule_one_cent :
  calculatePrincipalAndInterest powWhole 0.01 0 1 = Ok 0 /\
  roundToCents (0.01 * (0 / 100 / 12)) = 0 /\
  option_map (fun r => match r with
                       | Ok schedule => map remainingBalance schedule
                       | Throw _ => []
                       end)
    (generateAmortizationSchedule powWhole 12 0.01 0 1)
  = Some [0.01; 0.01; 0.01; 0.01; 0.01; 0.01; 0.01; 0.01; 0.01; 0.01; 0.01; 0].
Proof. repeat split; vm_compute; reflexivity. Qed.

(** ** [getLoanSummary] *)

Lemma generateAmortizationSchedule_rows Math_pow fuel la ir lt schedule :
  generateAmortizationSchedule Math_pow fuel la ir lt = Some (Ok schedule) ->
  exists loanAmount monthlyPayment monthlyRate numPayments,
    scheduleLoop fuel loanAmount monthlyPayment monthlyRate numPayments
      1 loanAmount [] = Some schedule.
Proof.
  unfold generateAmortizationSchedule.
  destruct (validateNumber la _ _) as [P|e]; cbn [bind]; [|discriminate].
  destruct (validateNumber ir _ _) as [r|e]; cbn [bind]; [|discriminate].
  destruct (validateNumber lt _ _) as [T|e]; cbn [bind]; [|discriminate].
  destruct (calculatePrincipalAndInterest Math_pow la ir lt) as [mp|e];
    cbn [bind]; [|discriminate].
  intros H. exists P, mp, (r / 100 / 12), (T * 12).
  destruct (scheduleLoop _ _ _ _ _ _ _ _) as [out|]; [|discriminate].
  inversion H; subst. reflexivity.
Qed.

(** Of the two definitions of [totalPayments] in the [totals] literal the
    second takes effect: in every summary returned, [totals.totalPayments]
    is [roundToCents] of the sum of [paymentAmount] over the schedule,
    [totals.totalInterest] is [roundToCents] of the sum of
    [interestPayment], and the [paymentAmount] of every row is
    [roundToCents] of its [principalPayment] plus its [interestPayment]. *)
Lemma getLoanSummary_totalPayments
    (Math_pow : number -> number -> number)
    {PayoffDate : Type} (calculatePayoffDate : number -> option PayoffDate)
    (fuel : nat) (loanAmount interestRate loanTerm : value)
    (propertyTax insurance pmi hoaFees fees : option number)
    (s : LoanSummary PayoffDate) :
  getLoanSummary Math_pow calculatePayoffDate fuel loanAmount interestRate
    loanTerm propertyTax insurance pmi hoaFees fees = Some (Ok s) ->
  exists schedule,
    generateAmortizationSchedule Math_pow fuel loanAmount interestRate loanTerm
    = Some (Ok schedule) /\
    get (totals s) "totalPayments"
    = Some (roundToCents (sumOf paymentAmount schedule)) /\
    get (totals s) "totalInterest"
    = Some (roundToCents (sumOf interestPayment schedule)) /\
    Forall (fun e => paymentAmount e
                     = roundToCents (principalPayment e + interestPayment e))
           schedule.
Proof.
  unfold getLoanSummary.
  destruct (calculateMonthlyPayment _ _ _ _ _ _ _ _) as [mp|e]; [|discriminate].
  destruct (generateAmortizationSchedule Math_pow fuel loanAmount interestRate
              loanTerm) as [[schedule|e]|] eqn:Hgen; try discriminate.
  destruct (calculateAPR _ _ _ _ _) as [apr|e]; [|discriminate].
  destruct (calculatePayoffDate _) as [date|]; [|discriminate].
  intros H. inversion H; subst s. clear H.
  exists schedule. split; [reflexivity|]. split; [reflexivity|].
  split; [reflexivity|].
  destruct (generateAmortizationSchedule_rows _ _ _ _ _ _ Hgen)
    as (P & mp' & r & N & Hloop).
  eapply scheduleLoop_Forall; [| |exact Hloop]; [|constructor].
  intros k b schedule'. reflexivity.
Qed.

(** C6 fails on the code: for a principal of 1e307 at 0% over one year the
    balance after the first payment, times 100, overflows; the last payment
    is Infinity and so is [totalPayments], while the principal plus
    [totalInterest] is 1e307. *)
Lemma getLoanSummary_infinite_totalPayments :
  exists s,
    getLoanSummary powWhole (fun _ => Some tt) 12 1e307 0 1
      None None None None None = Some (Ok s) /\
    get (totals s) "totalPayments" = Some infinity /\
    get (totals s) "totalPrincipal" = Some 1e307 /\
    get (totals s) "totalInterest" = Some 0 /\
    is_finite (1e307 + 0) = true.
Proof.
  assert (H : match getLoanSummary powWhole (fun _ => Some tt) 12 1e307 0 1
                      None None None None None with
              | Some (Ok s) =>
                  get (totals s) "totalPayments" = Some infinity /\
                  get (totals s) "totalPrincipal" = Some 1e307 /\
                  get (totals s) "totalInterest" = Some 0 /\
                  is_finite (1e307 + 0) = true
              | _ => False
              end) by (vm_compute; repeat split; reflexivity).
  destruct (getLoanSummary powWhole (fun _ => Some tt) 12 1e307 0 1
              None None None None None) as [[s|e]|]; try contradiction.
  exists s. split; [reflexivity|exact H].
Qed.

(** * More facts about binary64 arithmetic *)

Section Binary64Order.

#[local] Open Scope Z_scope.

Lemma SFcompare_swap x y :
  SFcompare y x = option_map CompOpp (SFcompare x y).
Proof.
  destruct x as [[]|[]| |[] mx ex], y as [[]|[]| |[] my ey]; try reflexivity;
    cbn [SFcompare option_map]; f_equal;
    rewrite (Z.compare_antisym ex ey);
    destruct (ex ?= ey); cbn [CompOpp]; try reflexivity;
    rewrite !Pos.compare_cont_spec; cbn [Pos.switch_Eq];
    rewrite (Pos.compare_antisym mx my);
    destruct (mx ?= my)%positive; reflexivity.
Qed.

Lemma SFcompare_some x y :
  signOf x <> None -> signOf y <> None -> exists c, SFcompare x y = Some c.
Proof.
  destruct x as [sx|sx| |sx mx ex], y as [sy|sy| |sy my ey]; cbn [signOf];
    intros Hx Hy; try congruence; eexists; reflexivity.
Qed.

Lemma SFltb_trans x y z :
  SFltb x y = true -> SFltb y z = true -> SFltb x z = true.
Proof.
  unfold SFltb.
  destruct x as [[]|[]| |[] mx ex], y as [[]|[]| |[] my ey],
           z as [[]|[]| |[] mz ez]; cbn [SFcompare];
    try discriminate; try reflexivity;
    rewrite ?Pos.compare_cont_spec; cbn [Pos.switch_Eq];
    destruct (Z.compare_spec ex ey); try discriminate;
    destruct (Z.compare_spec ey ez); try discriminate;
    destruct (Z.compare_spec ex ez); try reflexivity; try lia;
    destruct (Pos.compare_spec mx my); try discriminate;
    destruct (Pos.compare_spec my mz); try discriminate;
    destruct (Pos.compare_spec mx mz); try reflexivity; try lia;
    subst; try lia; cbn; intros; try discriminate; try reflexivity.
Qed.

Lemma SFltb_irrefl x : SFltb x x = false.
Proof.
  unfold SFltb.
  destruct x as [[]|[]| |[] m e]; cbn [SFcompare]; try reflexivity;
    rewrite Z.compare_refl, Pos.compare_cont_refl; reflexivity.
Qed.

(** A product has the sign that its factors give it, or is NaN. *)
Lemma SFmul_sign x y sx sy :
  signOf x = Some sx -> signOf y = Some sy ->
  signOf (SFmul prec emax x y) = Some (xorb sx sy) \/
  SFmul prec emax x y = S754_nan.
Proof.
  destruct x as [s|s| |s m e], y as [s'|s'| |s' m' e']; cbn [signOf SFmul];
    intros Hx Hy; inversion Hx; inversion Hy; subst; auto.
  left. apply binary_round_aux_sign. lia.
Qed.

Lemma binary_normalize_not_nan m e sz :
  signOf (binary_normalize prec emax m e sz) <> None.
Proof.
  destruct m as [|p|p]; cbn [binary_normalize signOf]; try discriminate;
    unfold binary_round; destruct (shl_align p e _) as [mz ez];
    rewrite binary_round_aux_sign by lia; discriminate.
Qed.

End Binary64Order.

(** * More facts about numbers *)

Example Math_ceil_convention :
  Math_ceil 1.2 = 2 /\ Math_ceil (-1.2) = -1 /\ Math_ceil 0.5 = 1 /\
  Math_ceil (-0.5) = neg_zero /\ Math_ceil 5 = 5 /\ Math_ceil 1e300 = 1e300 /\
  Math_ceil 5e-324 = 1 /\ Math_ceil nan = nan /\
  Math_ceil neg_infinity = neg_infinity /\
  Math_ceil 4503599627370495.5 = 4503599627370496 /\
  Math_ceil 359.00000000000006 = 360.
Proof. repeat split; reflexivity. Qed.

Lemma not_nan_signOf x : is_nan x = false -> signOf (Prim2SF x) <> None.
Proof. rewrite is_nan_signOf. destruct (signOf (Prim2SF x)); congruence. Qed.

(** Of two numbers neither of which is NaN, one is [<=] the other. *)
Lemma ltb_false_leb x y :
  is_nan x = false -> is_nan y = false -> (x <? y) = false -> (y <=? x) = true.
Proof.
  intros Hx Hy. rewrite FloatAxioms.ltb_spec, FloatAxioms.leb_spec.
  unfold SFltb, SFleb. rewrite (SFcompare_swap (Prim2SF x) (Prim2SF y)).
  destruct (SFcompare_some _ _ (not_nan_signOf x Hx) (not_nan_signOf y Hy))
    as [[] ->]; cbn; congruence.
Qed.

Lemma leb_not_ltb x y : (x <=? y) = true -> (y <? x) = false.
Proof.
  rewrite FloatAxioms.ltb_spec, FloatAxioms.leb_spec.
  unfold SFltb, SFleb. rewrite (SFcompare_swap (Prim2SF x) (Prim2SF y)).
  destruct (SFcompare (Prim2SF x) (Prim2SF y)) as [[]|]; cbn; congruence.
Qed.

Lemma ltb_trans x y z : (x <? y) = true -> (y <? z) = true -> (x <? z) = true.
Proof. rewrite !FloatAxioms.ltb_spec. apply SFltb_trans. Qed.

Lemma ltb_irrefl x : (x <? x) = false.
Proof. rewrite FloatAxioms.ltb_spec. apply SFltb_irrefl. Qed.

Lemma eqb_0_cases x : (x =? 0) = true -> x = 0 \/ x = neg_zero.
Proof.
  intros H. destruct (eqb_0_zero x H) as [[] Hs]; [right|left];
    apply Prim2SF_inj; rewrite Hs; reflexivity.
Qed.

(** A number times a zero is a zero or NaN. *)
Lemma mul_zero_cases x z :
  z = 0 \/ z = neg_zero -> x * z = 0 \/ x * z = neg_zero \/ x * z = nan.
Proof.
  intros Hz.
  assert (H : exists s, Prim2SF z = S754_zero s)
    by (destruct Hz; subst z; eexists; reflexivity).
  destruct H as [sz Hsz].
  assert (H : Prim2SF (x * z) = S754_zero false \/
              Prim2SF (x * z) = S754_zero true \/ Prim2SF (x * z) = S754_nan).
  { rewrite FloatAxioms.mul_spec, Hsz. unfold SF64mul.
    destruct (Prim2SF x) as [s|s| |s m e]; cbn [SFmul]; auto;
      destruct (xorb s sz); auto. }
  destruct H as [H|[H|H]]; [left|right; left|right; right];
    apply Prim2SF_inj; rewrite H; reflexivity.
Qed.

Lemma add_0_zero z : z = 0 \/ z = neg_zero -> 0 + z = 0.
Proof. intros [->| ->]; reflexivity. Qed.

Lemma mul_nonNegative x y :
  nonNegative x -> nonNegative y ->
  nonNegative (x * y) \/ is_nan (x * y) = true.
Proof.
  unfold nonNegative. intros Hx Hy.
  rewrite is_nan_signOf, FloatAxioms.mul_spec. unfold SF64mul.
  destruct (SFmul_sign _ _ _ _ Hx Hy) as [H|H]; rewrite H; auto.
Qed.

Lemma signOf_div_12 x s :
  signOf (Prim2SF x) = Some s -> signOf (Prim2SF (x / 12)) = Some s.
Proof.
  intros H. rewrite FloatAxioms.div_spec, Prim2SF_12. unfold SF64div.
  rewrite (SFdiv_finite_sign _ s) by exact H. rewrite xorb_false_r. reflexivity.
Qed.

Lemma leb_0_cases x : (0 <=? x) = true -> nonNegative x \/ (x =? 0) = true.
Proof.
  unfold nonNegative.
  rewrite FloatAxioms.leb_spec, FloatAxioms.eqb_spec, Prim2SF_0.
  destruct (Prim2SF x) as [s|[]| |[] m e]; unfold SFleb, SFeqb; cbn;
    intros; try discriminate; auto.
Qed.

Lemma nonNegative_positive x :
  nonNegative x -> (x <=? 0) = false -> (0 <? x) = true.
Proof.
  unfold nonNegative.
  rewrite FloatAxioms.leb_spec, FloatAxioms.ltb_spec, Prim2SF_0.
  destruct (Prim2SF x) as [s|s| |s m e]; unfold SFleb, SFltb; cbn;
    intros H; inversion H; subst; intros; try discriminate; reflexivity.
Qed.

(** A finite number is a zero or [(-1)^s * m * 2^e]. *)
Lemma is_finite_cases x :
  is_finite x = true ->
  match Prim2SF x with
  | S754_zero _ | S754_finite _ _ _ => True
  | _ => False
  end.
Proof.
  unfold is_finite, is_infinity.
  rewrite is_nan_signOf, FloatAxioms.eqb_spec, FloatAxioms.abs_spec.
  destruct (Prim2SF x) as [s|s| |s m e]; cbn; auto; discriminate.
Qed.

(** Taking a finite number away never gives NaN. *)
Lemma sub_finite_not_nan a b :
  is_nan a = false -> is_finite b = true -> is_nan (a - b) = false.
Proof.
  intros Ha Hb. apply is_finite_cases in Hb.
  rewrite is_nan_signOf in Ha. rewrite is_nan_signOf, FloatAxioms.sub_spec.
  unfold SF64sub.
  destruct (Prim2SF a) as [sa|sa| |sa ma ea]; try discriminate;
    destruct (Prim2SF b) as [sb|sb| |sb mb eb]; try contradiction;
    try (destruct sa, sb; reflexivity); try reflexivity.
  cbn [SFsub].
  match goal with |- context [signOf ?t] => destruct (signOf t) eqn:E end;
    [reflexivity|].
  exfalso. apply (binary_normalize_not_nan _ _ _ E).
Qed.

Lemma sub_diag_finite x : is_finite x = true -> x - x = 0.
Proof.
  intros Hf.
  pose proof (sub_finite_not_nan x x (is_finite_not_nan x Hf) Hf) as Hn.
  assert (H : x - x = 0 \/ x - x = nan).
  { destruct (SFsub_diag (Prim2SF x)) as [H|H]; [left|right];
      apply Prim2SF_inj; rewrite FloatAxioms.sub_spec; exact H. }
  destruct H as [H|H]; [exact H|]. rewrite H in Hn. discriminate Hn.
Qed.

Lemma div_0_positive x : (0 <? x) = true -> 0 / x = 0.
Proof.
  intros H. apply Prim2SF_inj.
  rewrite FloatAxioms.ltb_spec, Prim2SF_0 in H.
  rewrite FloatAxioms.div_spec, Prim2SF_0. unfold SF64div.
  destruct (Prim2SF x) as [s|[]| |[] m e]; unfold SFltb in H; cbn in H;
    try discriminate; reflexivity.
Qed.

(** What lies between two finite numbers is finite. *)
Lemma between_finite lo hi x :
  is_finite lo = true -> is_finite hi = true ->
  (lo <=? x) = true -> (x <=? hi) = true -> is_finite x = true.
Proof.
  intros Hlo Hhi. apply is_finite_cases in Hlo. apply is_finite_cases in Hhi.
  unfold is_finite, is_infinity.
  rewrite is_nan_signOf, !FloatAxioms.leb_spec, FloatAxioms.eqb_spec,
    FloatAxioms.abs_spec.
  destruct (Prim2SF lo) as [sl|sl| |sl ml el]; try contradiction;
    destruct (Prim2SF hi) as [sh|sh| |sh mh eh]; try contradiction;
    destruct (Prim2SF x) as [s|[]| |s m e]; unfold SFleb; cbn;
    intros; try discriminate; try reflexivity;
    destruct sl; try discriminate; destruct sh; try discriminate.
Qed.

Lemma mul_finite_not_nan x f s :
  is_finite f = true -> (f =? 0) = false ->
  signOf (Prim2SF x) = Some s -> signOf (Prim2SF (x * f)) <> None.
Proof.
  intros Hf Hz Hx. apply is_finite_cases in Hf.
  rewrite FloatAxioms.eqb_spec, Prim2SF_0 in Hz.
  rewrite FloatAxioms.mul_spec. unfold SF64mul.
  destruct (Prim2SF f) as [sf|sf| |sf mf ef]; try contradiction.
  - destruct sf; discriminate Hz.
  - rewrite (SFmul_finite_sign _ s) by exact Hx. discriminate.
Qed.

Lemma div_finite_not_nan x f s :
  is_finite f = true -> (f =? 0) = false ->
  signOf (Prim2SF x) = Some s -> signOf (Prim2SF (x / f)) <> None.
Proof.
  intros Hf Hz Hx. apply is_finite_cases in Hf.
  rewrite FloatAxioms.eqb_spec, Prim2SF_0 in Hz.
  rewrite FloatAxioms.div_spec. unfold SF64div.
  destruct (Prim2SF f) as [sf|sf| |sf mf ef]; try contradiction.
  - destruct sf; discriminate Hz.
  - rewrite (SFdiv_finite_sign _ s) by exact Hx. discriminate.
Qed.

Lemma truthy_0 : truthy 0 = false.
Proof. reflexivity. Qed.

(** [(x || 0) || 0] is [x || 0]. *)
Lemma orZero_idempotent o : orZero (Some (orZero o)) = orZero o.
Proof.
  destruct o as [x|]; [|reflexivity]. cbn [orZero].
  destruct (truthy x) eqn:E; [rewrite E|]; reflexivity.
Qed.

Lemma sumOf_app {A : Type} (f : A -> number) l a :
  sumOf f (l ++ [a]) = sumOf f l + f a.
Proof. unfold sumOf. rewrite fold_left_app. reflexivity. Qed.

Lemma lessThan_trans a b c :
  lessThan a b = true -> lessThan b c = true -> lessThan a c = true.
Proof.
  destruct a as [x|], b as [y|], c as [z|]; cbn [lessThan]; try discriminate.
  apply ltb_trans.
Qed.

Lemma lessThan_irrefl a : lessThan a a = false.
Proof. destruct a as [x|]; [apply ltb_irrefl|reflexivity]. Qed.

Lemma allFrom_spec p count :
  forall from, allFrom p from count = true ->
  forall c, (from <= c < from + Z.of_nat count)%Z -> p c = true.
Proof.
  induction count as [|count IH]; intros from H c Hc; [lia|].
  cbn [allFrom] in H. apply andb_prop in H. destruct H as [H0 H].
  destruct (Z.eq_dec c from) as [->|Hne]; [exact H0|].
  apply (IH (from + 1)%Z H). lia.
Qed.

(** * Further properties of the service *)

(** ** Validation *)

Lemma acceptable_split la ir lt :
  acceptable la && acceptable ir && acceptable lt = true ->
  acceptable la = true /\ acceptable ir = true /\ acceptable lt = true.
Proof.
  intros H. apply andb_prop in H. destruct H as [H Hlt].
  apply andb_prop in H. tauto.
Qed.

Lemma calculatePrincipalAndInterest_not_acceptable Math_pow la ar ty :
  acceptable la && acceptable ar && acceptable ty = false ->
  exists e, calculatePrincipalAndInterest Math_pow la ar ty = Throw e /\
            isValidationError e.
Proof.
  intros H. unfold calculatePrincipalAndInterest.
  destruct (acceptable la) eqn:Hla.
  - rewrite (validateNumber_acceptable la) by assumption. cbn [bind].
    destruct (acceptable ar) eqn:Har.
    + rewrite (validateNumber_acceptable ar) by assumption. cbn [bind].
      destruct (acceptable ty) eqn:Hty; [discriminate|].
      destruct (validateNumber_not_acceptable ty "Loan term" Hty)
        as (e & -> & He).
      exists e. split; [reflexivity|exact He].
    + destruct (validateNumber_not_acceptable ar "Interest rate" Har)
        as (e & -> & He).
      exists e. split; [reflexivity|exact He].
  - destruct (validateNumber_not_acceptable la "Loan amount" Hla)
      as (e & -> & He).
    exists e. split; [reflexivity|exact He].
Qed.

Lemma calculateMonthlyPayment_acceptable Math_pow la ir lt tax ins mi hoa :
  acceptable la = true -> acceptable ir = true -> acceptable lt = true ->
  exists payment,
    calculateMonthlyPayment Math_pow la ir lt tax ins mi hoa = Ok payment.
Proof.
  intros Hla Hir Hlt.
  destruct (calculatePrincipalAndInterest_acceptable Math_pow _ _ _ Hla Hir Hlt)
    as (x & Hx & _).
  unfold calculateMonthlyPayment. rewrite Hx. eexists. reflexivity.
Qed.


Lemma validateNumber_Throw_field v fieldName e :
  validateNumber v fieldName defaultOptions = Throw e ->
  acceptable v = false /\ fieldOf (message e) = fieldName /\
  statusCode e = 400%Z.
Proof.
  intros H. destruct (acceptable v) eqn:Hacc.
  - rewrite validateNumber_acceptable in H by assumption. discriminate H.
  - split; [reflexivity|].
    destruct v as [x| | |b|s]; cbn [validateNumber] in H;
      try (inversion H; subst; split; reflexivity).
    cbn [defaultOptions allowZero min max negb andb] in H.
    repeat match type of H with
           | context [if ?c then _ else _] => destruct c
           end; inversion H; subst; split; reflexivity.
Qed.

Lemma validateNumber_Ok v fieldName x :
  validateNumber v fieldName defaultOptions = Ok x -> acceptable v = true.
Proof.
  intros H. destruct (acceptable v) eqn:Hacc; [reflexivity|].
  destruct (validateNumber_not_acceptable v fieldName Hacc) as (e & He & _).
  rewrite He in H. discriminate H.
Qed.

(** X2.  The functions of the service fail alike.  When
    [calculatePrincipalAndInterest] throws, the error has status 400 and
    names the first of the loan amount, the interest rate and the loan term
    that [validateNumber] does not accept; and [calculateMonthlyPayment],
    [generateAmortizationSchedule], [calculateAPR] and [getLoanSummary]
    throw that same error on the same three arguments, whatever their other
    arguments are. *)
Theorem service_functions_throw_alike
    (Math_pow : number -> number -> number)
    {PayoffDate : Type} (calculatePayoffDate : number -> option PayoffDate)
    (fuel : nat) (loanAmount interestRate loanTerm : value)
    (tax ins mi hoa fees : option number) (e : AppError) :
  calculatePrincipalAndInterest Math_pow loanAmount interestRate loanTerm
  = Throw e ->
  statusCode e = 400%Z /\
  fieldOf (message e)
  = (if negb (acceptable loanAmount) then "Loan amount"
     else if negb (acceptable interestRate) then "Interest rate"
     else "Loan term")%string /\
  calculateMonthlyPayment Math_pow loanAmount interestRate loanTerm
    tax ins mi hoa = Throw e /\
  generateAmortizationSchedule Math_pow fuel loanAmount interestRate loanTerm
  = Some (Throw e) /\
  calculateAPR Math_pow loanAmount interestRate loanTerm fees = Throw e /\
  getLoanSummary Math_pow calculatePayoffDate fuel
    loanAmount interestRate loanTerm tax ins mi hoa fees
  = Some (Throw (OfAppError e)).
Proof.
  intros H.
  assert (Hm : calculateMonthlyPayment Math_pow loanAmount interestRate loanTerm
                 tax ins mi hoa = Throw e)
    by (unfold calculateMonthlyPayment; rewrite H; reflexivity).
  assert (Hs : getLoanSummary Math_pow calculatePayoffDate fuel
                 loanAmount interestRate loanTerm tax ins mi hoa fees
               = Some (Throw (OfAppError e)))
    by (unfold getLoanSummary; rewrite Hm; reflexivity).
  unfold generateAmortizationSchedule, calculateAPR.
  unfold calculatePrincipalAndInterest in H.
  destruct (validateNumber loanAmount _ _) as [la|e1] eqn:E1; cbn [bind] in *.
  - rewrite (validateNumber_Ok _ _ _ E1). cbn [negb].
    destruct (validateNumber interestRate _ _) as [ir|e2] eqn:E2; cbn [bind] in *.
    + rewrite (validateNumber_Ok _ _ _ E2). cbn [negb].
      destruct (validateNumber loanTerm _ _) as [lt|e3] eqn:E3; cbn [bind] in *.
      * destruct (ir =? 0); discriminate H.
      * inversion H; subst e3.
        destruct (validateNumber_Throw_field _ _ _ E3) as (_ & Hf & Hc).
        repeat split; auto.
    + inversion H; subst e2.
      destruct (validateNumber_Throw_field _ _ _ E2) as (-> & Hf & Hc).
      repeat split; auto.
  - inversion H; subst e1.
    destruct (validateNumber_Throw_field _ _ _ E1) as (-> & Hf & Hc).
    repeat split; auto.
Qed.

Lemma service_functions_throw_alike_witness :
  statusCode (mkAppError (CannotBeLessThan "Interest rate" 0) 400) = 400%Z /\
  fieldOf (message (mkAppError (CannotBeLessThan "Interest rate" 0) 400))
  = (if negb (acceptable 300000) then "Loan amount"
     else if negb (acceptable (-4.5)) then "Interest rate"
     else "Loan term")%string /\
  calculateMonthlyPayment powWhole 300000 (-4.5) VUndefined
    None None None None
  = Throw (mkAppError (CannotBeLessThan "Interest rate" 0) 400) /\
  generateAmortizationSchedule powWhole 360 300000 (-4.5) VUndefined
  = Some (Throw (mkAppError (CannotBeLessThan "Interest rate" 0) 400)) /\
  calculateAPR powWhole 300000 (-4.5) VUndefined (Some 3000)
  = Throw (mkAppError (CannotBeLessThan "Interest rate" 0) 400) /\
  getLoanSummary powWhole (fun _ => Some tt) 360 300000 (-4.5) VUndefined
    None None None None (Some 3000)
  = Some (Throw (OfAppError
                   (mkAppError (CannotBeLessThan "Interest rate" 0) 400))).
Proof.
  apply (service_functions_throw_alike powWhole (fun _ => Some tt) 360
           300000 (-4.5) VUndefined None None None None (Some 3000)
           (mkAppError (CannotBeLessThan "Interest rate" 0) 400)).
  reflexivity.
Defined.

(** ** The rows of the schedule *)

Lemma scheduleLoop_pushedFrom la mp r np fuel :
  forall k b schedule out,
    scheduleLoop fuel la mp r np k b schedule = Some out ->
    exists rows, out = schedule ++ rows /\ pushedFrom la mp r np k b schedule rows.
Proof.
  induction fuel as [|fuel IH]; intros k b schedule out H;
    cbn [scheduleLoop] in H; [discriminate|].
  destruct (Z2F k <=? np) eqn:Hk.
  - set (e := scheduleStep la mp r np k b schedule) in *.
    destruct (remainingBalance e <=? 0) eqn:Hb.
    + inversion H; subst out. exists [e]. split; [reflexivity|].
      cbn [pushedFrom]. repeat split; auto. congruence.
    + destruct (IH _ _ _ _ H) as (rows & -> & Hrows).
      exists (e :: rows). rewrite <- app_assoc. split; [reflexivity|].
      cbn [pushedFrom]. auto.
  - inversion H; subst out. exists []. rewrite app_nil_r. split; reflexivity.
Qed.

Lemma pushedFrom_paymentNumber la mp r np rows :
  forall k b schedule,
    pushedFrom la mp r np k b schedule rows ->
    map paymentNumber rows = countFrom k (List.length rows).
Proof.
  induction rows as [|e rows IH]; intros k b schedule H; [reflexivity|].
  destruct H as (-> & _ & _ & H). cbn [map List.length countFrom].
  f_equal. apply (IH _ _ _ H).
Qed.

Lemma pushedFrom_cumulativeInterest la mp r np rows :
  forall k b schedule,
    pushedFrom la mp r np k b schedule rows ->
    forall i e, nth_error rows i = Some e ->
      cumulativeInterest e
      = sumOf interestPayment (schedule ++ firstn (S i) rows).
Proof.
  induction rows as [|e0 rows IH]; intros k b schedule H i e Hi.
  - destruct i; discriminate.
  - destruct H as (He0 & _ & _ & H). destruct i as [|i].
    + inversion Hi; subst e. cbn [firstn]. rewrite sumOf_app.
      subst e0. reflexivity.
    + cbn [nth_error] in Hi. rewrite (IH _ _ _ H i e Hi).
      rewrite <- app_assoc. reflexivity.
Qed.

Lemma pushedFrom_Forall (Q : Entry -> Prop) la mp r np rows :
  (forall k b schedule, Q (scheduleStep la mp r np k b schedule)) ->
  forall k b schedule, pushedFrom la mp r np k b schedule rows -> Forall Q rows.
Proof.
  intros HQ. induction rows as [|e rows IH]; intros k b schedule H; constructor.
  - destruct H as (-> & _). apply HQ.
  - destruct H as (_ & _ & _ & H). apply (IH _ _ _ H).
Qed.

Lemma pushedFrom_not_last la mp r np rows :
  forall k b schedule e,
    pushedFrom la mp r np k b schedule (rows ++ [e]) ->
    Forall (fun e' => (remainingBalance e' <=? 0) = false) rows.
Proof.
  induction rows as [|e0 rows IH]; intros k b schedule e H; constructor.
  - destruct H as (_ & _ & H & _). apply H. destruct rows; discriminate.
  - destruct H as (_ & _ & _ & H). apply (IH _ _ _ _ H).
Qed.

(** The loop pushes at least one row and at most one row for each
    [paymentNumber] up to [n]. *)
Lemma scheduleLoop_length la mp r n fuel :
  (n < 2 ^ 53)%Z ->
  forall k b schedule out,
    (1 <= k <= n)%Z ->
    scheduleLoop fuel la mp r (Z2F n) k b schedule = Some out ->
    (List.length schedule + 1 <= List.length out
     <= List.length schedule + Z.to_nat (n - k + 1))%nat.
Proof.
  intros Hn. induction fuel as [|fuel IH]; intros k b schedule out Hk H;
    cbn [scheduleLoop] in H; [discriminate|].
  rewrite leb_Z2F in H by lia.
  set (e := scheduleStep la mp r (Z2F n) k b schedule) in *.
  destruct (remainingBalance e <=? 0) eqn:Hb.
  - inversion H; subst out. rewrite length_app. cbn [List.length]. lia.
  - destruct (Z.eq_dec k n) as [->|Hne].
    + unfold e in Hb. rewrite scheduleStep_final in Hb. discriminate Hb.
    + apply IH in H; [|lia]. rewrite length_app in H. cbn [List.length] in H. lia.
Qed.

(** A schedule that [generateAmortizationSchedule] returns is what the loop
    returns from the first payment on, the three arguments being accepted. *)
Lemma generateAmortizationSchedule_loop Math_pow fuel la ir lt schedule :
  generateAmortizationSchedule Math_pow fuel la ir lt = Some (Ok schedule) ->
  acceptable la = true /\ acceptable ir = true /\ acceptable lt = true /\
  exists monthlyPayment,
    calculatePrincipalAndInterest Math_pow la ir lt = Ok monthlyPayment /\
    scheduleLoop fuel (numberOf la) monthlyPayment (numberOf ir / 100 / 12)
      (numberOf lt * 12) 1 (numberOf la) [] = Some schedule.
Proof.
  intros H.
  destruct (acceptable la && acceptable ir && acceptable lt) eqn:Hacc.
  - apply acceptable_split in Hacc. destruct Hacc as (Hla & Hir & Hlt).
    destruct (generateAmortizationSchedule_acceptable Math_pow fuel la ir lt
                Hla Hir Hlt) as (mp & Hmp & Hgen).
    repeat split; auto. exists mp. split; [exact Hmp|].
    rewrite Hgen in H. destruct (scheduleLoop _ _ _ _ _ _ _ _); [|discriminate].
    inversion H; subst. reflexivity.
  - destruct (generateAmortizationSchedule_not_acceptable Math_pow fuel
                la ir lt Hacc) as (e & He & _).
    rewrite He in H. discriminate H.
Qed.

(** The schedule of a valid loan. *)
Lemma validLoan_schedule Math_pow fuel la ir lt n :
  validLoan la ir lt n -> (Z.to_nat n <= fuel)%nat ->
  exists monthlyPayment rows e,
    calculatePrincipalAndInterest Math_pow la ir lt = Ok monthlyPayment /\
    generateAmortizationSchedule Math_pow fuel la ir lt = Some (Ok (rows ++ [e])) /\
    scheduleLoop fuel la monthlyPayment (ir / 100 / 12) (Z2F n) 1 la []
    = Some (rows ++ [e]) /\
    remainingBalance e = 0 /\
    Forall (fun e' => nonNegative (remainingBalance e')) (rows ++ [e]) /\
    nonNegative la.
Proof.
  intros (HfP & HP & Hfr & Hr & HfT & HT & Hn) Hfuel.
  destruct (generateAmortizationSchedule_valid Math_pow fuel la ir lt n
              HfP HP Hfr Hr HfT HT) as (HnP & mp & Hmp & Hgen).
  destruct (scheduleLoop_ends la mp (ir / 100 / 12) n Hn fuel 1%Z la [])
    as (rows & e & Hloop & Hzero & Hall & _); try lia; auto.
  exists mp, rows, e. rewrite Hgen, Hloop. repeat split; auto.
Qed.

(** X3.  For a valid loan of [n] months, [generateAmortizationSchedule]
    returns at least one row and at most [n] rows, and their
    [paymentNumber]s are 1, 2, 3, ... in this order. *)
Theorem generateAmortizationSchedule_numbered
    (Math_pow : number -> number -> number)
    (loanAmount interestRate loanTerm : number) (n : Z) (fuel : nat) :
  validLoan loanAmount interestRate loanTerm n -> (Z.to_nat n <= fuel)%nat ->
  exists schedule,
    generateAmortizationSchedule Math_pow fuel loanAmount interestRate loanTerm
    = Some (Ok schedule) /\
    (1 <= List.length schedule <= Z.to_nat n)%nat /\
    map paymentNumber schedule = countFrom 1 (List.length schedule).
Proof.
  intros Hv Hfuel.
  destruct (validLoan_schedule Math_pow fuel _ _ _ n Hv Hfuel)
    as (mp & rows & e & _ & Hgen & Hloop & _).
  exists (rows ++ [e]). split; [exact Hgen|].
  assert (Hn : (1 <= n < 2 ^ 53)%Z) by apply Hv.
  split.
  - apply scheduleLoop_length in Hloop; [|lia|lia].
    cbn [List.length] in Hloop. replace (n - 1 + 1)%Z with n in Hloop by lia. lia.
  - destruct (scheduleLoop_pushedFrom _ _ _ _ _ _ _ _ _ Hloop)
      as (rows' & Heq & Hp).
    cbn [app] in Heq. subst rows'.
    apply (pushedFrom_paymentNumber _ _ _ _ _ _ _ _ Hp).
Qed.

Lemma generateAmortizationSchedule_numbered_witness :
  exists schedule,
    generateAmortizationSchedule powWhole 360 300000 4.5 30 = Some (Ok schedule) /\
    (1 <= List.length schedule <= Z.to_nat 360)%nat /\
    map paymentNumber schedule = countFrom 1 (List.length schedule).
Proof.
  apply (generateAmortizationSchedule_numbered powWhole 300000 4.5 30 360 360).
  - repeat split; try reflexivity; lia.
  - reflexivity.
Defined.

(** X4.  The loop stops at the first row whose balance is [<= 0]: in the
    schedule of a valid loan every row before the last has a
    [remainingBalance] above 0, and the last has exactly 0. *)
Theorem generateAmortizationSchedule_positive_until_last
    (Math_pow : number -> number -> number)
    (loanAmount interestRate loanTerm : number) (n : Z) (fuel : nat) :
  validLoan loanAmount interestRate loanTerm n -> (Z.to_nat n <= fuel)%nat ->
  exists rows e,
    generateAmortizationSchedule Math_pow fuel loanAmount interestRate loanTerm
    = Some (Ok (rows ++ [e])) /\
    Forall (fun e' => (0 <? remainingBalance e') = true) rows /\
    remainingBalance e = 0.
Proof.
  intros Hv Hfuel.
  destruct (validLoan_schedule Math_pow fuel _ _ _ n Hv Hfuel)
    as (mp & rows & e & _ & Hgen & Hloop & Hzero & Hall & _).
  exists rows, e. split; [exact Hgen|]. split; [|exact Hzero].
  destruct (scheduleLoop_pushedFrom _ _ _ _ _ _ _ _ _ Hloop)
    as (rows' & Heq & Hp).
  cbn [app] in Heq. subst rows'.
  apply pushedFrom_not_last in Hp.
  apply Forall_app in Hall. destruct Hall as [Hall _].
  rewrite Forall_forall in *. intros e' He'.
  apply nonNegative_positive; auto.
Qed.

Lemma generateAmortizationSchedule_positive_until_last_witness :
  exists rows e,
    generateAmortizationSchedule powWhole 360 300000 4.5 30
    = Some (Ok (rows ++ [e])) /\
    Forall (fun e' => (0 <? remainingBalance e') = true) rows /\
    remainingBalance e = 0.
Proof.
  apply (generateAmortizationSchedule_positive_until_last
           powWhole 300000 4.5 30 360 360).
  - repeat split; try reflexivity; lia.
  - reflexivity.
Defined.

Lemma last_default {A : Type} (d d' : A) l :
  forall y, last (y :: l) d = last (y :: l) d'.
Proof.
  induction l as [|z l IH]; intros y; [reflexivity|].
  change (last (z :: l) d = last (z :: l) d'). apply IH.
Qed.

Lemma last_cons {A : Type} (x d : A) l : last (x :: l) d = last l x.
Proof.
  destruct l as [|y l]; [reflexivity|].
  change (last (y :: l) d = last (y :: l) x). apply last_default.
Qed.

Lemma pushedFrom_last la mp r np rows :
  forall k b schedule e,
    pushedFrom la mp r np k b schedule (rows ++ [e]) ->
    e = scheduleStep la mp r np (k + Z.of_nat (List.length rows))
          (last (map remainingBalance rows) b) (schedule ++ rows).
Proof.
  induction rows as [|e0 rows IH]; intros k b schedule e H.
  - destruct H as (-> & _). cbn [List.length Z.of_nat map last].
    rewrite Z.add_0_r, app_nil_r. reflexivity.
  - destruct H as (_ & _ & _ & H). apply IH in H.
    cbn [map]. rewrite last_cons.
    cbn [List.length]. rewrite Nat2Z.inj_succ.
    replace (k + Z.succ (Z.of_nat (List.length rows)))%Z
      with (k + 1 + Z.of_nat (List.length rows))%Z by lia.
    rewrite <- app_assoc in H. exact H.
Qed.

(** X5.  The final payment.  When the schedule of a valid loan runs its full
    [n] rows, the [principalPayment] of the last row is the balance that the
    row before it left (the loan amount, when [n] is 1), whatever the fixed
    payment is, and its [paymentAmount] is that balance plus the row's
    interest, rounded to cents. *)
Theorem generateAmortizationSchedule_final_payment
    (Math_pow : number -> number -> number)
    (loanAmount interestRate loanTerm : number) (n : Z) (fuel : nat) :
  validLoan loanAmount interestRate loanTerm n -> (Z.to_nat n <= fuel)%nat ->
  exists rows e,
    generateAmortizationSchedule Math_pow fuel loanAmount interestRate loanTerm
    = Some (Ok (rows ++ [e])) /\
    (Z.of_nat (List.length (rows ++ [e])) = n ->
     principalPayment e = last (map remainingBalance rows) loanAmount /\
     paymentAmount e
     = roundToCents (last (map remainingBalance rows) loanAmount
                     + interestPayment e)).
Proof.
  intros Hv Hfuel.
  destruct (validLoan_schedule Math_pow fuel _ _ _ n Hv Hfuel)
    as (mp & rows & e & _ & Hgen & Hloop & _).
  exists rows, e. split; [exact Hgen|].
  intros Hlen.
  destruct (scheduleLoop_pushedFrom _ _ _ _ _ _ _ _ _ Hloop)
    as (rows' & Heq & Hp).
  cbn [app] in Heq. subst rows'.
  apply pushedFrom_last in Hp.
  rewrite length_app in Hlen. cbn [List.length] in Hlen.
  replace (1 + Z.of_nat (List.length rows))%Z with n in Hp by lia.
  assert (Hpp : principalPayment e = last (map remainingBalance rows) loanAmount).
  { rewrite Hp. unfold scheduleStep. cbn [principalPayment].
    rewrite eqb_Z2F_refl. reflexivity. }
  split; [exact Hpp|].
  rewrite <- Hpp. rewrite Hp. reflexivity.
Qed.

Lemma generateAmortizationSchedule_final_payment_witness :
  exists rows e,
    generateAmortizationSchedule powWhole 12 100000 6 1
    = Some (Ok (rows ++ [e])) /\
    principalPayment e = last (map remainingBalance rows) 100000 /\
    paymentAmount e
    = roundToCents (last (map remainingBalance rows) 100000 + interestPayment e).
Proof.
  destruct (generateAmortizationSchedule_final_payment powWhole 100000 6 1 12 12)
    as (rows & e & Hgen & H).
  - repeat split; try reflexivity; lia.
  - reflexivity.
  - exists rows, e. split; [exact Hgen|]. apply H.
    assert (Hl : match generateAmortizationSchedule powWhole 12 100000 6 1 with
                 | Some (Ok schedule) => Z.of_nat (List.length schedule) = 12%Z
                 | _ => False
                 end) by (vm_compute; reflexivity).
    rewrite Hgen in Hl. exact Hl.
Defined.

(** X6.  The cumulative columns.  In every schedule returned, the
    [cumulativeInterest] of a row is the sum, added up in binary64 from the
    first row on, of the [interestPayment]s up to and including this row,
    and its [cumulativePrincipal] is [roundToCents] of the loan amount less
    its [remainingBalance]; so the [cumulativeInterest] of the last row is
    the sum of [interestPayment] over the schedule. *)
Theorem generateAmortizationSchedule_cumulative
    (Math_pow : number -> number -> number) (fuel : nat)
    (loanAmount interestRate loanTerm : value) (schedule : list Entry) :
  generateAmortizationSchedule Math_pow fuel loanAmount interestRate loanTerm
  = Some (Ok schedule) ->
  (forall i e,
      nth_error schedule i = Some e ->
      cumulativeInterest e = sumOf interestPayment (firstn (S i) schedule) /\
      cumulativePrincipal e
      = roundToCents (numberOf loanAmount - remainingBalance e)) /\
  (forall rows e,
      schedule = rows ++ [e] ->
      cumulativeInterest e = sumOf interestPayment schedule).
Proof.
  intros H.
  destruct (generateAmortizationSchedule_loop _ _ _ _ _ _ H)
    as (_ & _ & _ & mp & _ & Hloop).
  destruct (scheduleLoop_pushedFrom _ _ _ _ _ _ _ _ _ Hloop)
    as (rows' & Heq & Hp).
  cbn [app] in Heq. subst rows'.
  assert (Hrows : forall i e,
             nth_error schedule i = Some e ->
             cumulativeInterest e
             = sumOf interestPayment (firstn (S i) schedule) /\
             cumulativePrincipal e
             = roundToCents (numberOf loanAmount - remainingBalance e)).
  { intros i e Hi. split.
    - apply (pushedFrom_cumulativeInterest _ _ _ _ _ _ _ _ Hp i e Hi).
    - assert (Hall : Forall (fun e => cumulativePrincipal e
                              = roundToCents (numberOf loanAmount
                                              - remainingBalance e)) schedule)
        by (eapply pushedFrom_Forall; [|exact Hp]; intros; reflexivity).
      rewrite Forall_forall in Hall. apply Hall.
      eapply nth_error_In, Hi. }
  split; [exact Hrows|].
  intros rows e Heq.
  destruct (Hrows (List.length rows) e) as [Hc _].
  - rewrite Heq, nth_error_app2, Nat.sub_diag by lia. reflexivity.
  - rewrite Hc, Heq. f_equal.
    rewrite firstn_all2; [reflexivity|]. rewrite length_app. cbn. lia.
Qed.

Lemma generateAmortizationSchedule_cumulative_witness :
  exists schedule,
    generateAmortizationSchedule powWhole 12 100000 6 1 = Some (Ok schedule) /\
    (forall i e,
        nth_error schedule i = Some e ->
        cumulativeInterest e = sumOf interestPayment (firstn (S i) schedule) /\
        cumulativePrincipal e
        = roundToCents (numberOf 100000 - remainingBalance e)) /\
    (forall rows e,
        schedule = rows ++ [e] ->
        cumulativeInterest e = sumOf interestPayment schedule).
Proof.
  destruct (generateAmortizationSchedule powWhole 12 100000 6 1)
    as [[schedule|e]|] eqn:H; try (vm_compute in H; discriminate H).
  exists schedule. split; [reflexivity|].
  apply (generateAmortizationSchedule_cumulative powWhole 12 100000 6 1
           schedule H).
Defined.

(** At a rate that is a zero, the interest of any balance is a zero. *)
Lemma roundToCents_zero_rate b rate :
  (rate =? 0) = true ->
  roundToCents (b * (rate / 100 / 12)) = 0 \/
  roundToCents (b * (rate / 100 / 12)) = neg_zero.
Proof.
  intros Hr.
  assert (Hz : rate / 100 / 12 = 0 \/ rate / 100 / 12 = neg_zero)
    by (destruct (eqb_0_cases rate Hr); subst rate; [left|right]; reflexivity).
  destruct (mul_zero_cases b _ Hz) as [H|[H|H]]; rewrite H; auto.
Qed.

Lemma interestPayment_not_negative b rate :
  nonNegative b -> (0 <=? rate) = true ->
  (roundToCents (b * (rate / 100 / 12)) <? 0) = false.
Proof.
  intros Hb Hr. destruct (leb_0_cases rate Hr) as [Hn|Hz].
  - apply nonNegative_not_ltb_0, roundToCents_nonNegative, mul_nonNegative;
      [exact Hb|]. apply signOf_div_12, signOf_div_100, Hn.
  - destruct (roundToCents_zero_rate b rate Hz) as [-> | ->]; reflexivity.
Qed.

Lemma pushedFrom_interestPayment la mp rate np rows :
  (0 <=? rate) = true ->
  forall k b schedule,
    nonNegative b ->
    pushedFrom la mp (rate / 100 / 12) np k b schedule rows ->
    Forall (fun e => (interestPayment e <? 0) = false /\
                     is_nan (interestPayment e) = false) rows.
Proof.
  intros Hr. induction rows as [|e rows IH]; intros k b schedule Hb H;
    constructor.
  - destruct H as (-> & _). split.
    + apply interestPayment_not_negative; assumption.
    + apply roundToCents_not_nan.
  - destruct H as (He & _ & _ & H). refine (IH _ _ _ _ H).
    subst e. apply scheduleStep_nonNegative, Hb.
Qed.

(** X7.  In the schedule of a valid loan no [interestPayment] is below 0 and
    none is NaN (while a [principalPayment] can be negative). *)
Theorem generateAmortizationSchedule_interest_not_negative
    (Math_pow : number -> number -> number)
    (loanAmount interestRate loanTerm : number) (n : Z) (fuel : nat) :
  validLoan loanAmount interestRate loanTerm n -> (Z.to_nat n <= fuel)%nat ->
  exists schedule,
    generateAmortizationSchedule Math_pow fuel loanAmount interestRate loanTerm
    = Some (Ok schedule) /\
    Forall (fun e => (interestPayment e <? 0) = false /\
                     is_nan (interestPayment e) = false) schedule.
Proof.
  intros Hv Hfuel.
  destruct (validLoan_schedule Math_pow fuel _ _ _ n Hv Hfuel)
    as (mp & rows & e & _ & Hgen & Hloop & _ & _ & HnP).
  exists (rows ++ [e]). split; [exact Hgen|].
  destruct (scheduleLoop_pushedFrom _ _ _ _ _ _ _ _ _ Hloop)
    as (rows' & Heq & Hp).
  cbn [app] in Heq. subst rows'.
  eapply pushedFrom_interestPayment; [|exact HnP|exact Hp]. apply Hv.
Qed.

Lemma generateAmortizationSchedule_interest_not_negative_witness :
  exists schedule,
    generateAmortizationSchedule powWhole 360 1000.466 47 30
    = Some (Ok schedule) /\
    Forall (fun e => (interestPayment e <? 0) = false /\
                     is_nan (interestPayment e) = false) schedule.
Proof.
  apply (generateAmortizationSchedule_interest_not_negative
           powWhole 1000.466 47 30 360 360).
  - repeat split; try reflexivity; lia.
  - reflexivity.
Defined.

Lemma pushedFrom_zero_rate la mp rate np rows :
  (rate =? 0) = true ->
  forall k b schedule,
    sumOf interestPayment schedule = 0 ->
    pushedFrom la mp (rate / 100 / 12) np k b schedule rows ->
    Forall (fun e => (interestPayment e =? 0) = true /\ cumulativeInterest e = 0)
      rows /\
    sumOf interestPayment (schedule ++ rows) = 0.
Proof.
  intros Hr. induction rows as [|e rows IH]; intros k b schedule Hs H.
  - rewrite app_nil_r. auto.
  - destruct H as (He & _ & _ & H).
    assert (Hi : interestPayment e = 0 \/ interestPayment e = neg_zero)
      by (subst e; apply roundToCents_zero_rate, Hr).
    assert (Hs' : sumOf interestPayment (schedule ++ [e]) = 0)
      by (rewrite sumOf_app, Hs; apply add_0_zero, Hi).
    destruct (IH _ _ _ Hs' H) as (Hall & Hsum).
    rewrite <- app_assoc in Hsum. split; [|exact Hsum].
    constructor; [|exact Hall]. split.
    + destruct Hi as [-> | ->]; reflexivity.
    + rewrite <- Hs', sumOf_app. subst e. reflexivity.
Qed.

(** X8.  A loan at a rate of 0 pays no interest: in every schedule returned
    for a rate equal to 0 (0 or -0) each [interestPayment] is a zero, each
    [cumulativeInterest] is 0, and the sum of [interestPayment] over the
    schedule is 0. *)
Theorem generateAmortizationSchedule_zero_rate_interest
    (Math_pow : number -> number -> number) (fuel : nat)
    (loanAmount loanTerm : value) (interestRate : number)
    (schedule : list Entry) :
  (interestRate =? 0) = true ->
  generateAmortizationSchedule Math_pow fuel loanAmount interestRate loanTerm
  = Some (Ok schedule) ->
  Forall (fun e => (interestPayment e =? 0) = true /\ cumulativeInterest e = 0)
    schedule /\
  sumOf interestPayment schedule = 0.
Proof.
  intros Hr H.
  destruct (generateAmortizationSchedule_loop _ _ _ _ _ _ H)
    as (_ & _ & _ & mp & _ & Hloop).
  destruct (scheduleLoop_pushedFrom _ _ _ _ _ _ _ _ _ Hloop)
    as (rows' & Heq & Hp).
  cbn [app] in Heq. subst rows'. cbn [numberOf] in Hp.
  apply (pushedFrom_zero_rate _ _ _ _ _ Hr _ _ [] eq_refl Hp).
Qed.

Lemma generateAmortizationSchedule_zero_rate_interest_witness :
  exists schedule,
    generateAmortizationSchedule powWhole 120 100000 0 10 = Some (Ok schedule) /\
    Forall (fun e => (interestPayment e =? 0) = true /\ cumulativeInterest e = 0)
      schedule /\
    sumOf interestPayment schedule = 0.
Proof.
  destruct (generateAmortizationSchedule powWhole 120 100000 0 10)
    as [[schedule|e]|] eqn:H; try (vm_compute in H; discriminate H).
  exists schedule. split; [reflexivity|].
  apply (generateAmortizationSchedule_zero_rate_interest powWhole 120
           100000 10 0 schedule); [reflexivity|exact H].
Defined.

(** ** [calculateAPR] and the fees *)

Lemma calculateAPR_acceptable Math_pow la ir lt fees :
  acceptable la = true -> acceptable ir = true -> acceptable lt = true ->
  exists apr, calculateAPR Math_pow la ir lt fees = Ok apr /\ is_nan apr = false.
Proof.
  intros Hla Hir Hlt.
  destruct (calculatePrincipalAndInterest_acceptable Math_pow _ _ _ Hla Hir Hlt)
    as (mp & Hmp & _).
  unfold calculateAPR. rewrite !validateNumber_acceptable by assumption.
  cbn [bind]. rewrite Hmp. cbn [bind].
  destruct fees as [fees|];
    [destruct (negb (truthy fees) || (fees =? 0))|];
    eexists; (split; [reflexivity|apply roundToCents_not_nan]).
Qed.

Lemma calculateAPR_not_acceptable Math_pow la ir lt fees :
  acceptable la && acceptable ir && acceptable lt = false ->
  exists e, calculateAPR Math_pow la ir lt fees = Throw e /\ isValidationError e.
Proof.
  intros H. unfold calculateAPR.
  destruct (acceptable la) eqn:Hla.
  - rewrite (validateNumber_acceptable la) by assumption. cbn [bind].
    destruct (acceptable ir) eqn:Hir.
    + rewrite (validateNumber_acceptable ir) by assumption. cbn [bind].
      destruct (acceptable lt) eqn:Hlt; [discriminate|].
      destruct (validateNumber_not_acceptable lt "Loan term" Hlt)
        as (e & -> & He).
      exists e. split; [reflexivity|exact He].
    + destruct (validateNumber_not_acceptable ir "Interest rate" Hir)
        as (e & -> & He).
      exists e. split; [reflexivity|exact He].
  - destruct (validateNumber_not_acceptable la "Loan amount" Hla)
      as (e & -> & He).
    exists e. split; [reflexivity|exact He].
Qed.

(** [fees || 0] in front of [calculateAPR] changes nothing. *)
Lemma calculateAPR_orZero Math_pow la ir lt fees :
  calculateAPR Math_pow la ir lt (Some (orZero fees))
  = calculateAPR Math_pow la ir lt fees.
Proof.
  unfold calculateAPR.
  destruct (validateNumber la _ _) as [la'|e]; [|reflexivity].
  destruct (validateNumber ir _ _) as [ir'|e]; [|reflexivity].
  destruct (validateNumber lt _ _) as [lt'|e]; [|reflexivity].
  cbn [bind]. destruct fees as [x|]; cbn [orZero].
  - destruct (truthy x) eqn:E.
    + rewrite ?E. reflexivity.
    + rewrite truthy_0, ?E. cbn [negb orb]. reflexivity.
  - rewrite truthy_0. cbn [negb orb]. reflexivity.
Qed.


Lemma div_nan_r x : x / nan = nan.
Proof.
  apply Prim2SF_inj. rewrite FloatAxioms.div_spec. unfold SF64div.
  change (Prim2SF nan) with S754_nan.
  destruct (Prim2SF x); reflexivity.
Qed.

Lemma div_nan_l x : nan / x = nan.
Proof.
  apply Prim2SF_inj. rewrite FloatAxioms.div_spec. unfold SF64div.
  change (Prim2SF nan) with S754_nan. reflexivity.
Qed.

Lemma sub_nan_l x : nan - x = nan.
Proof.
  apply Prim2SF_inj. rewrite FloatAxioms.sub_spec. unfold SF64sub.
  change (Prim2SF nan) with S754_nan. reflexivity.
Qed.

Lemma sub_nan_r x : x - nan = nan.
Proof.
  apply Prim2SF_inj. rewrite FloatAxioms.sub_spec. unfold SF64sub.
  change (Prim2SF nan) with S754_nan.
  destruct (Prim2SF x); reflexivity.
Qed.

(** A NaN estimate stays NaN. *)
Lemma aprStep_nan Math_pow mp adj T : aprStep Math_pow mp adj T nan = Some nan.
Proof.
  unfold aprStep. change (nan / 100 / 12) with nan.
  rewrite div_nan_r, sub_nan_l.
  change (Math_abs nan <? 0.0001) with false. cbv iota.
  rewrite div_nan_l, sub_nan_r. reflexivity.
Qed.

Lemma aprLoop_S Math_pow iterations mp adj T apr :
  aprLoop Math_pow (S iterations) mp adj T apr
  = match aprStep Math_pow mp adj T apr with
    | None => apr
    | Some apr' => aprLoop Math_pow iterations mp adj T apr'
    end.
Proof. reflexivity. Qed.

Lemma aprLoop_nan Math_pow iterations mp adj T :
  aprLoop Math_pow iterations mp adj T nan = nan.
Proof.
  induction iterations as [|k IH]; [reflexivity|].
  rewrite aprLoop_S, aprStep_nan. exact IH.
Qed.

Lemma aprStep_zero_rate Math_pow mp adj T rate :
  (rate =? 0) = true -> Math_pow 1 (- (T * 12)) = 1 ->
  aprStep Math_pow mp adj T rate = Some nan.
Proof.
  intros Hr Hpow. unfold aprStep.
  assert (Hm : rate / 100 / 12 = 0 \/ rate / 100 / 12 = neg_zero)
    by (destruct (eqb_0_cases rate Hr); subst rate; [left|right]; reflexivity).
  assert (H1 : 1 + rate / 100 / 12 = 1) by (destruct Hm as [-> | ->]; reflexivity).
  rewrite H1, Hpow. change (1 - 1) with 0.
  assert (Hpv : mp * 0 / (rate / 100 / 12) = nan).
  { destruct (mul_zero_cases mp 0 (or_introl eq_refl)) as [-> | [-> | ->]];
      destruct Hm as [-> | ->]; reflexivity. }
  rewrite Hpv, sub_nan_l.
  change (Math_abs nan <? 0.0001) with false. cbv iota.
  rewrite div_nan_l, sub_nan_r. reflexivity.
Qed.

(** X10.  An interest-free loan with fees is given an APR of 0.  At a rate
    equal to 0 the first step of the iteration divides 0 by 0, the estimate
    is NaN from then on, and after its 100 iterations [calculateAPR]
    returns 0, whatever the loan amount, the term and the (truthy) fees are
    (given that [Math.pow (1, x)] is 1 at the negated number of months). *)
Theorem calculateAPR_zero_rate_with_fees
    (Math_pow : number -> number -> number)
    (loanAmount loanTerm : value) (interestRate fees : number) :
  acceptable loanAmount = true -> (interestRate =? 0) = true ->
  acceptable loanTerm = true -> truthy fees = true ->
  Math_pow 1 (- (numberOf loanTerm * 12)) = 1 ->
  calculateAPR Math_pow loanAmount interestRate loanTerm (Some fees) = Ok 0.
Proof.
  intros Hla Hr Hlt Hf Hpow.
  assert (Hir : acceptable interestRate = true) by (apply eqb_0_acceptable, Hr).
  destruct (calculatePrincipalAndInterest_acceptable Math_pow _ _ _ Hla Hir Hlt)
    as (mp & Hmp & _).
  rewrite (calculateAPR_truthy_fees Math_pow _ _ _ fees mp) by assumption.
  cbn [numberOf]. unfold maxIterations.
  change 100%nat with (S 99).
  rewrite aprLoop_S, aprStep_zero_rate by assumption.
  rewrite aprLoop_nan. reflexivity.
Qed.

Lemma calculateAPR_zero_rate_with_fees_witness :
  calculateAPR powWhole 250000 0 15 (Some 2500) = Ok 0.
Proof.
  apply (calculateAPR_zero_rate_with_fees powWhole 250000 15 0 2500);
    reflexivity.
Defined.

(** ** [getLoanSummary] as a whole *)

Lemma getLoanSummary_of_schedule Math_pow {PayoffDate : Type}
    (calculatePayoffDate : number -> option PayoffDate)
    fuel la ir lt tax ins mi hoa fees schedule :
  generateAmortizationSchedule Math_pow fuel la ir lt = Some (Ok schedule) ->
  exists payment apr,
    calculateMonthlyPayment Math_pow la ir lt tax ins mi hoa = Ok payment /\
    calculateAPR Math_pow la ir lt (Some (orZero fees)) = Ok apr /\
    getLoanSummary Math_pow calculatePayoffDate fuel la ir lt tax ins mi hoa fees
    = Some
        match calculatePayoffDate (numberOf lt) with
        | None => Throw RangeError
        | Some date =>
            Ok {| loanDetails :=
                    {| ld_loanAmount := numberOf la;
                       ld_interestRate := numberOf ir;
                       ld_apr := apr;
                       ld_loanTerm := numberOf lt;
                       ld_fees := orZero fees |};
                  monthlyPayment := payment;
                  totals :=
                    objectLiteral
                      [("totalPayments"%string,
                          roundToCents
                            (totalMonthlyPayment payment * numberOf lt * 12));
                       ("totalPayments"%string,
                          roundToCents (sumOf paymentAmount schedule));
                       ("totalInterest"%string,
                          roundToCents (sumOf interestPayment schedule));
                       ("totalPrincipal"%string, numberOf la);
                       ("totalCost"%string,
                          roundToCents
                            (numberOf la + sumOf interestPayment schedule
                             + orZero fees))];
                  percentages :=
                    {| interestPercentage :=
                         roundToCents
                           (sumOf interestPayment schedule / numberOf la * 100);
                       monthlyPaymentToIncome := None |};
                  payoffDate := date;
                  firstPaymentBreakdown := hd_error schedule |}
        end.
Proof.
  intros H.
  destruct (generateAmortizationSchedule_loop _ _ _ _ _ _ H)
    as (Hla & Hir & Hlt & _).
  destruct (calculateMonthlyPayment_acceptable Math_pow la ir lt tax ins mi hoa
              Hla Hir Hlt) as (payment & Hp).
  destruct (calculateAPR_acceptable Math_pow la ir lt (Some (orZero fees))
              Hla Hir Hlt) as (apr & Hapr & _).
  exists payment, apr. split; [exact Hp|]. split; [exact Hapr|].
  unfold getLoanSummary. rewrite Hp, H, Hapr. reflexivity.
Qed.

Lemma getLoanSummary_not_acceptable Math_pow {PayoffDate : Type}
    (calculatePayoffDate : number -> option PayoffDate)
    fuel la ir lt tax ins mi hoa fees :
  acceptable la && acceptable ir && acceptable lt = false ->
  exists e,
    getLoanSummary Math_pow calculatePayoffDate fuel la ir lt tax ins mi hoa fees
    = Some (Throw (OfAppError e)) /\ isValidationError e.
Proof.
  intros H.
  destruct (calculatePrincipalAndInterest_not_acceptable Math_pow _ _ _ H)
    as (e & He & Hv).
  exists e. unfold getLoanSummary, calculateMonthlyPayment. rewrite He.
  auto.
Qed.



(** X12.  A term of 0 years is accepted.  With an accepted loan amount and
    rate and a term equal to 0, [generateAmortizationSchedule] returns the
    empty schedule, and [getLoanSummary], with the date that
    [calculatePayoffDate] returns for the term, returns a summary whose
    [firstPaymentBreakdown] is [null] and whose [totalPayments] and
    [totalInterest] are 0 (and throws the RangeError of
    [calculatePayoffDate] only if that throws for the term). *)
Theorem zero_term_is_accepted
    (Math_pow : number -> number -> number)
    {PayoffDate : Type} (calculatePayoffDate : number -> option PayoffDate)
    (fuel : nat) (loanAmount interestRate : value) (loanTerm : number)
    (tax ins mi hoa fees : option number) :
  acceptable loanAmount = true -> acceptable interestRate = true ->
  (loanTerm =? 0) = true ->
  generateAmortizationSchedule Math_pow (S fuel) loanAmount interestRate loanTerm
  = Some (Ok []) /\
  match calculatePayoffDate loanTerm with
  | None =>
      getLoanSummary Math_pow calculatePayoffDate (S fuel)
        loanAmount interestRate loanTerm tax ins mi hoa fees
      = Some (Throw RangeError)
  | Some date =>
      exists s,
        getLoanSummary Math_pow calculatePayoffDate (S fuel)
          loanAmount interestRate loanTerm tax ins mi hoa fees = Some (Ok s) /\
        payoffDate s = date /\
        firstPaymentBreakdown s = None /\
        get (totals s) "totalPayments" = Some 0 /\
        get (totals s) "totalInterest" = Some 0
  end.
Proof.
  intros Hla Hir Hlt0.
  assert (Hlt : acceptable loanTerm = true) by (apply eqb_0_acceptable, Hlt0).
  assert (Hgen : generateAmortizationSchedule Math_pow (S fuel)
                   loanAmount interestRate loanTerm = Some (Ok [])).
  { destruct (generateAmortizationSchedule_acceptable Math_pow (S fuel) _ _ _
                Hla Hir Hlt) as (mp & _ & ->).
    cbn [numberOf scheduleLoop].
    assert (Hn : (Z2F 1 <=? loanTerm * 12) = false)
      by (destruct (eqb_0_cases loanTerm Hlt0); subst loanTerm; reflexivity).
    rewrite Hn. reflexivity. }
  split; [exact Hgen|].
  destruct (getLoanSummary_of_schedule Math_pow calculatePayoffDate (S fuel)
              loanAmount interestRate loanTerm tax ins mi hoa fees _ Hgen)
    as (payment & apr & _ & _ & Hs).
  cbn [numberOf] in Hs.
  destruct (calculatePayoffDate loanTerm) as [date|]; [|exact Hs].
  eexists. split; [exact Hs|]. repeat split.
Qed.

Lemma zero_term_is_accepted_witness :
  generateAmortizationSchedule powWhole 1 200000 4.5 0 = Some (Ok []) /\
  exists s,
    getLoanSummary powWhole (fun _ => Some tt) 1
      200000 4.5 0 None None None None None = Some (Ok s) /\
    payoffDate s = tt /\
    firstPaymentBreakdown s = None /\
    get (totals s) "totalPayments" = Some 0 /\
    get (totals s) "totalInterest" = Some 0.
Proof.
  apply (zero_term_is_accepted powWhole (fun _ => Some tt) 0 200000 4.5 0);
    reflexivity.
Defined.



(** ** [findBestLoan] and the costs *)

Section CheapestLoan.

Context {PayoffDate : Type}.

(** What [reduce] has kept so far is not beaten by anything it has seen. *)
Lemma fold_keepCheaper_none_cheaper (l : list (Comparison PayoffDate)) :
  forall first seen,
    (forall c, In c seen -> lessThan (totalCost c) (totalCost first) = false) ->
    forall c, In c (seen ++ l) ->
      lessThan (totalCost c) (totalCost (fold_left keepCheaper l first)) = false.
Proof.
  induction l as [|current l IH]; intros first seen Hseen c Hc.
  - rewrite app_nil_r in Hc. apply Hseen, Hc.
  - cbn [fold_left].
    apply (IH (keepCheaper first current) (seen ++ [current]));
      [|rewrite <- app_assoc; exact Hc].
    intros c' Hc'. unfold keepCheaper.
    destruct (lessThan (totalCost current) (totalCost first)) eqn:Hlt;
      apply in_app_or in Hc'; destruct Hc' as [Hc'|[<-|[]]];
      auto using lessThan_irrefl.
    destruct (lessThan (totalCost c') (totalCost current)) eqn:H';
      [|reflexivity].
    rewrite <- (Hseen c' Hc'). symmetry.
    apply (lessThan_trans _ _ _ H' Hlt).
Qed.

Lemma fold_keepCheaper_cheapest (first : Comparison PayoffDate) rest :
  forall c, In c (first :: rest) ->
    lessThan (totalCost c) (totalCost (fold_left keepCheaper rest first))
    = false.
Proof.
  intros c Hc.
  apply (fold_keepCheaper_none_cheaper rest first [first]); [|exact Hc].
  intros c' [<-|[]]. apply lessThan_irrefl.
Qed.

(** X14.  [findBestLoan] throws (the TypeError of [reduce]) only on an
    empty array; on any other it returns an entry of the array, and no
    entry of the array has a [totals.totalCost] strictly below that of the
    entry returned, whatever the costs are (NaN and [undefined]
    included). *)
Theorem findBestLoan_none_cheaper (comparisons : list (Comparison PayoffDate)) :
  match findBestLoan comparisons with
  | None => comparisons = []
  | Some best =>
      In best comparisons /\
      forall c, In c comparisons ->
                lessThan (totalCost c) (totalCost best) = false
  end.
Proof.
  destruct comparisons as [|first rest]; [reflexivity|].
  cbn [findBestLoan]. split.
  - apply fold_keepCheaper_In.
  - apply fold_keepCheaper_cheapest.
Qed.

End CheapestLoan.

(** * The handlers of the controller *)

(** X15.  The defaults of the handlers change nothing.  [calculatePayment],
    [calculateAPR] and [getLoanSummary] replace each optional cost [x] by
    [x || 0] before they call the service, which applies [|| 0] itself:
    each handler answers 200 with what the service returns on the body as
    it came, and passes on what the service throws (for [getLoanSummary],
    an [AppError] or the RangeError of [calculatePayoffDate]). *)
Theorem handlers_defaults_change_nothing
    (Math_pow : number -> number -> number)
    {PayoffDate : Type} (calculatePayoffDate : number -> option PayoffDate)
    (fuel : nat) (body : MortgageController.Body) :
  MortgageController.calculatePayment Math_pow body
  = match calculateMonthlyPayment Math_pow
            (MortgageController.body_loanAmount body)
            (MortgageController.body_interestRate body)
            (MortgageController.body_loanTerm body)
            (MortgageController.body_propertyTax body)
            (MortgageController.body_insurance body)
            (MortgageController.body_pmi body)
            (MortgageController.body_hoaFees body) with
    | Ok result =>
        MortgageController.Json
          (MortgageController.mkResponse 200 true result
             "Monthly payment calculated successfully")
    | Throw error => MortgageController.Next (MortgageController.OfService error)
    end /\
  MortgageController.calculateAPR Math_pow body
  = match calculateAPR Math_pow
            (MortgageController.body_loanAmount body)
            (MortgageController.body_interestRate body)
            (MortgageController.body_loanTerm body)
            (MortgageController.body_fees body) with
    | Ok apr =>
        MortgageController.Json
          (MortgageController.mkResponse 200 true
             {| MortgageController.apr_apr := apr;
                MortgageController.apr_interestRate :=
                  numberOf (MortgageController.body_interestRate body);
                MortgageController.apr_difference :=
                  apr - numberOf (MortgageController.body_interestRate body) |}
             "APR calculated successfully")
    | Throw error => MortgageController.Next (MortgageController.OfService error)
    end /\
  MortgageController.getLoanSummary Math_pow PayoffDate calculatePayoffDate
    fuel body
  = match summaryOf Math_pow calculatePayoffDate fuel body with
    | None => None
    | Some (Ok summary) =>
        Some (MortgageController.Json
                (MortgageController.mkResponse 200 true summary
                   "Loan summary calculated successfully"))
    | Some (Throw error) =>
        Some (MortgageController.Next (MortgageController.caught error))
    end.
Proof.
  split; [|split].
  - unfold MortgageController.calculatePayment, calculateMonthlyPayment.
    rewrite !orZero_idempotent. reflexivity.
  - unfold MortgageController.calculateAPR. rewrite calculateAPR_orZero.
    reflexivity.
  - unfold MortgageController.getLoanSummary, summaryOf, getLoanSummary,
      calculateMonthlyPayment.
    rewrite !orZero_idempotent. reflexivity.
Qed.

(** X16.  For a valid loan of [n] months the handler
    [generateAmortization] answers 200 with the schedule, and in its data
    [totalPayments] is the number of rows (at most [n]; not an amount),
    [totalInterest] is the [cumulativeInterest] of the last row, not
    rounded, and [totalPrincipal] is the loan amount. *)
Theorem controller_generateAmortization_answer
    (Math_pow : number -> number -> number)
    (loanAmount interestRate loanTerm : number) (n : Z) (fuel : nat)
    (tax ins mi hoa fees : option number) :
  validLoan loanAmount interestRate loanTerm n -> (Z.to_nat n <= fuel)%nat ->
  exists rows e,
    generateAmortizationSchedule Math_pow fuel loanAmount interestRate loanTerm
    = Some (Ok (rows ++ [e])) /\
    MortgageController.generateAmortization Math_pow fuel
      (MortgageController.mkBody loanAmount interestRate loanTerm
         tax ins mi hoa fees)
    = Some (MortgageController.Json
              (MortgageController.mkResponse 200 true
                 {| MortgageController.am_schedule := rows ++ [e];
                    MortgageController.am_totalPayments :=
                      List.length (rows ++ [e]);
                    MortgageController.am_totalInterest := cumulativeInterest e;
                    MortgageController.am_totalPrincipal := loanAmount |}
                 "Amortization schedule generated successfully")) /\
    (List.length (rows ++ [e]) <= Z.to_nat n)%nat.
Proof.
  intros Hv Hfuel.
  destruct (validLoan_schedule Math_pow fuel _ _ _ n Hv Hfuel)
    as (mp & rows & e & _ & Hgen & Hloop & _).
  exists rows, e. split; [exact Hgen|].
  assert (Hn : (1 <= n < 2 ^ 53)%Z) by apply Hv.
  split.
  - unfold MortgageController.generateAmortization.
    cbn [MortgageController.body_loanAmount MortgageController.body_interestRate
         MortgageController.body_loanTerm].
    rewrite Hgen. cbn [numberOf]. do 4 f_equal.
    destruct (scheduleLoop_pushedFrom _ _ _ _ _ _ _ _ _ Hloop)
      as (rows' & Heq & Hp).
    cbn [app] in Heq. subst rows'.
    rewrite (pushedFrom_cumulativeInterest _ _ _ _ _ _ _ _ Hp
               (List.length rows) e).
    + cbn [app]. rewrite firstn_all2; [reflexivity|].
      rewrite length_app. cbn. lia.
    + rewrite nth_error_app2, Nat.sub_diag by lia. reflexivity.
  - apply scheduleLoop_length in Hloop; [|lia|lia].
    cbn [List.length] in Hloop. replace (n - 1 + 1)%Z with n in Hloop by lia. lia.
Qed.

Lemma controller_generateAmortization_answer_witness :
  exists rows e,
    generateAmortizationSchedule powWhole 360 300000 4.5 30
    = Some (Ok (rows ++ [e])) /\
    MortgageController.generateAmortization powWhole 360
      (MortgageController.mkBody 300000 4.5 30 None None None None None)
    = Some (MortgageController.Json
              (MortgageController.mkResponse 200 true
                 {| MortgageController.am_schedule := rows ++ [e];
                    MortgageController.am_totalPayments :=
                      List.length (rows ++ [e]);
                    MortgageController.am_totalInterest := cumulativeInterest e;
                    MortgageController.am_totalPrincipal := 300000 |}
                 "Amortization schedule generated successfully")) /\
    (List.length (rows ++ [e]) <= Z.to_nat 360)%nat.
Proof.
  apply (controller_generateAmortization_answer powWhole 300000 4.5 30 360 360).
  - repeat split; try reflexivity; lia.
  - reflexivity.
Defined.

(** X17.  The handler [calculateAPR] answers 200 exactly when
    [validateNumber] accepts the loan amount, the rate and the term, and
    passes the error of [validateNumber] on otherwise.  In its data neither
    [apr] nor [difference] ([apr - interestRate]) is NaN, and with fees that
    are absent, 0 or NaN the [apr] is the rate rounded to cents. *)
Theorem controller_calculateAPR_answer
    (Math_pow : number -> number -> number) (body : MortgageController.Body) :
  if acceptableBody body
  then exists apr,
         MortgageController.calculateAPR Math_pow body
         = MortgageController.Json
             (MortgageController.mkResponse 200 true
                {| MortgageController.apr_apr := apr;
                   MortgageController.apr_interestRate :=
                     numberOf (MortgageController.body_interestRate body);
                   MortgageController.apr_difference :=
                     apr - numberOf (MortgageController.body_interestRate body) |}
                "APR calculated successfully") /\
         is_nan apr = false /\
         is_nan (apr - numberOf (MortgageController.body_interestRate body))
         = false /\
         (orZero (MortgageController.body_fees body) = 0 ->
          apr = roundToCents
                  (numberOf (MortgageController.body_interestRate body)))
  else exists e,
         MortgageController.calculateAPR Math_pow body
         = MortgageController.Next (MortgageController.OfService e) /\
         isValidationError e.
Proof.
  unfold acceptableBody.
  destruct (acceptable _ && acceptable _ && acceptable _) eqn:Hacc.
  - apply acceptable_split in Hacc. destruct Hacc as (Hla & Hir & Hlt).
    destruct (calculateAPR_acceptable Math_pow _ _ _
                (Some (orZero (MortgageController.body_fees body)))
                Hla Hir Hlt) as (apr & Hapr & Hnan).
    exists apr. unfold MortgageController.calculateAPR. rewrite Hapr.
    split; [reflexivity|]. split; [exact Hnan|]. split.
    + apply sub_finite_not_nan; [exact Hnan|].
      destruct (MortgageController.body_interestRate body) as [x| | |b|s];
        try discriminate.
      cbn [acceptable numberOf] in *. apply andb_prop in Hir. tauto.
    + intros Hz. rewrite Hz in Hapr. unfold calculateAPR in Hapr.
      rewrite !validateNumber_acceptable in Hapr by assumption.
      cbn [bind] in Hapr. rewrite truthy_0 in Hapr. cbn [negb orb] in Hapr.
      inversion Hapr. reflexivity.
  - destruct (calculateAPR_not_acceptable Math_pow _ _ _
                (Some (orZero (MortgageController.body_fees body))) Hacc)
      as (e & He & Hv).
    exists e. unfold MortgageController.calculateAPR. rewrite He. auto.
Qed.

(** ** [compareLoans] *)

Lemma validBody_summaryOf Math_pow {PayoffDate : Type}
    (calculatePayoffDate : number -> option PayoffDate) fuel loan :
  validBody fuel loan ->
  match calculatePayoffDate
          (numberOf (MortgageController.body_loanTerm loan)) with
  | None => summaryOf Math_pow calculatePayoffDate fuel loan
            = Some (Throw RangeError)
  | Some date =>
      exists s, summaryOf Math_pow calculatePayoffDate fuel loan = Some (Ok s)
  end.
Proof.
  intros (la & ir & lt & n & Hla & Hir & Hlt & Hv & Hfuel).
  destruct (validLoan_schedule Math_pow fuel _ _ _ n Hv Hfuel)
    as (mp & rows & e & _ & Hgen & _).
  unfold summaryOf. rewrite Hla, Hir, Hlt.
  destruct (getLoanSummary_of_schedule Math_pow calculatePayoffDate fuel
              la ir lt (MortgageController.body_propertyTax loan)
              (MortgageController.body_insurance loan)
              (MortgageController.body_pmi loan)
              (MortgageController.body_hoaFees loan)
              (MortgageController.body_fees loan) _ Hgen)
    as (payment & apr & _ & _ & Hs).
  destruct (calculatePayoffDate (numberOf (VNumber lt))) as [date|];
    [eexists|]; exact Hs.
Qed.

Lemma datedBody_summaryOf Math_pow {PayoffDate : Type}
    (calculatePayoffDate : number -> option PayoffDate) fuel loan :
  validBody fuel loan -> datedBody calculatePayoffDate loan ->
  exists s, summaryOf Math_pow calculatePayoffDate fuel loan = Some (Ok s).
Proof.
  intros Hv Hd.
  pose proof (validBody_summaryOf Math_pow calculatePayoffDate fuel loan Hv)
    as H.
  unfold datedBody in Hd.
  destruct (calculatePayoffDate _) as [date|]; [exact H|contradiction].
Qed.

Section CompareLoans.

Variable Math_pow : number -> number -> number.
Context {PayoffDate : Type}.
Variable calculatePayoffDate : number -> option PayoffDate.
Variable fuel : nat.


Lemma summaries_throw good bad rest error :
  Forall (fun loan => validBody fuel loan /\
                      datedBody calculatePayoffDate loan) good ->
  summaryOf Math_pow calculatePayoffDate fuel bad = Some (Throw error) ->
  forall index,
    MortgageController.summaries Math_pow PayoffDate calculatePayoffDate fuel
      index (good ++ bad :: rest) = Some (Throw error).
Proof.
  intros Hgood Hbad.
  induction Hgood as [|loan good [Hloan Hdate] _ IH]; intros index.
  - cbn [app MortgageController.summaries]. unfold summaryOf in Hbad.
    rewrite Hbad. reflexivity.
  - destruct (datedBody_summaryOf Math_pow calculatePayoffDate fuel loan
                Hloan Hdate) as (s & Hs).
    cbn [app MortgageController.summaries]. unfold summaryOf in Hs.
    rewrite Hs, IH. reflexivity.
Qed.


(** X19.  What [compareLoans] refuses.  A [loans] that is no array or has
    fewer than two elements is answered with the handler's own error
    ("At least 2 loan scenarios required for comparison", 400) and the
    service is not called.  Of at least two loans, the first for which the
    service throws decides, whatever comes after: when a loan that
    [validateNumber] does not accept follows valid ones for whose terms
    [calculatePayoffDate] returns, the handler passes on the error of
    [validateNumber] for it; and when a valid loan for whose term
    [calculatePayoffDate] throws follows such loans, the handler passes on
    the RangeError. *)
Theorem compareLoans_rejects :
  MortgageController.compareLoans Math_pow PayoffDate calculatePayoffDate fuel None
  = Some (MortgageController.Next MortgageController.AtLeastTwoLoans) /\
  (forall loans,
      (List.length loans < 2)%nat ->
      MortgageController.compareLoans Math_pow PayoffDate calculatePayoffDate fuel
        (Some loans)
      = Some (MortgageController.Next MortgageController.AtLeastTwoLoans)) /\
  (forall good bad rest,
      (2 <= List.length (good ++ bad :: rest))%nat ->
      Forall (fun loan => validBody fuel loan /\
                          datedBody calculatePayoffDate loan) good ->
      acceptableBody bad = false ->
      exists e,
        MortgageController.compareLoans Math_pow PayoffDate calculatePayoffDate
          fuel (Some (good ++ bad :: rest))
        = Some (MortgageController.Next (MortgageController.OfService e)) /\
        isValidationError e) /\
  (forall good bad rest,
      (2 <= List.length (good ++ bad :: rest))%nat ->
      Forall (fun loan => validBody fuel loan /\
                          datedBody calculatePayoffDate loan) good ->
      validBody fuel bad ->
      calculatePayoffDate (numberOf (MortgageController.body_loanTerm bad))
      = None ->
      MortgageController.compareLoans Math_pow PayoffDate calculatePayoffDate
        fuel (Some (good ++ bad :: rest))
      = Some (MortgageController.Next MortgageController.RangeErrorOfService)).
Proof.
  split; [reflexivity|]. split; [|split].
  - intros loans Hlen. unfold MortgageController.compareLoans.
    replace (List.length loans <? 2)%nat with true
      by (symmetry; apply Nat.ltb_lt, Hlen).
    reflexivity.
  - intros good bad rest Hlen Hgood Hbad.
    destruct (getLoanSummary_not_acceptable Math_pow calculatePayoffDate fuel
                _ _ _ (MortgageController.body_propertyTax bad)
                (MortgageController.body_insurance bad)
                (MortgageController.body_pmi bad)
                (MortgageController.body_hoaFees bad)
                (MortgageController.body_fees bad) Hbad) as (e & He & Hv).
    exists e. unfold MortgageController.compareLoans.
    replace (List.length (good ++ bad :: rest) <? 2)%nat with false
      by (symmetry; apply Nat.ltb_ge, Hlen).
    rewrite (summaries_throw good bad rest _ Hgood He 0%Z). auto.
  - intros good bad rest Hlen Hgood Hbad Hdate.
    pose proof (validBody_summaryOf Math_pow calculatePayoffDate fuel bad Hbad)
      as He.
    rewrite Hdate in He. unfold MortgageController.compareLoans.
    replace (List.length (good ++ bad :: rest) <? 2)%nat with false
      by (symmetry; apply Nat.ltb_ge, Hlen).
    rewrite (summaries_throw good bad rest _ Hgood He 0%Z). reflexivity.
Qed.

End CompareLoans.


Lemma compareLoans_rejects_witness :
  exists e,
    MortgageController.compareLoans powWhole unit (fun _ => Some tt) 360
      (Some ([MortgageController.mkBody 300000 4.5 30
                None None None None None] ++
             MortgageController.mkBody (-1) 4.5 30 None None None None None ::
             [MortgageController.mkBody VUndefined 4.5 30
                None None None None None]))
    = Some (MortgageController.Next (MortgageController.OfService e)) /\
    isValidationError e.
Proof.
  apply (proj1 (proj2 (proj2 (compareLoans_rejects powWhole
                                (fun _ => Some tt) 360)))
           [MortgageController.mkBody 300000 4.5 30 None None None None None]
           (MortgageController.mkBody (-1) 4.5 30 None None None None None)
           [MortgageController.mkBody VUndefined 4.5 30
              None None None None None]).
  - cbn [List.length app]. lia.
  - repeat constructor; try discriminate.
    exists 300000, 4.5, 30, 360%Z. repeat split; try reflexivity; lia.
  - reflexivity.
Defined.

(** * The other helpers of mathUtils.js and errorUtils.js *)

(** X20.  [roundToDecimals] returns 0 for a value that is not a number and
    for NaN, whatever [decimals] is; at two decimals it is [roundToCents]
    (given that [Math.pow (10, 2)] is 100); and it does not return NaN as
    long as the factor [Math.pow (10, decimals)] is finite and not 0. *)
Theorem roundToDecimals_like_roundToCents
    (Math_pow : number -> number -> number) :
  (forall (v : value) (decimals : number),
      match v with VNumber x => is_nan x | _ => true end = true ->
      roundToDecimals Math_pow v decimals = 0) /\
  (forall v : value,
      Math_pow 10 2 = 100 -> roundToDecimals Math_pow v 2 = roundToCents v) /\
  (forall (v : value) (decimals : number),
      is_finite (Math_pow 10 decimals) = true ->
      (Math_pow 10 decimals =? 0) = false ->
      is_nan (roundToDecimals Math_pow v decimals) = false).
Proof.
  split; [|split].
  - intros [x| | |b|s] d H; try reflexivity.
    cbn [roundToDecimals]. rewrite H. reflexivity.
  - intros [x| | |b|s] H; try reflexivity. cbn [roundToDecimals roundToCents].
    rewrite H. reflexivity.
  - intros [x| | |b|s] d Hf Hz; try reflexivity. cbn [roundToDecimals].
    destruct (is_nan x) eqn:Hx; [reflexivity|].
    rewrite is_nan_signOf in Hx. rewrite is_nan_signOf.
    destruct (signOf (Prim2SF x)) as [s|] eqn:Hs; [|discriminate].
    destruct (signOf (Prim2SF (x * Math_pow 10 d))) as [s'|] eqn:Hm;
      [|exfalso; apply (mul_finite_not_nan x _ s Hf Hz Hs Hm)].
    rewrite <- signOf_Math_round in Hm.
    destruct (signOf (Prim2SF (Math_round (x * Math_pow 10 d) / Math_pow 10 d)))
      eqn:Hd; [reflexivity|].
    exfalso. apply (div_finite_not_nan _ _ s' Hf Hz Hm Hd).
Qed.

Lemma roundToDecimals_like_roundToCents_witness :
  roundToDecimals powWhole nan 4 = 0 /\
  roundToDecimals powWhole (VString "5") 4 = 0 /\
  roundToDecimals powWhole 6.125 2 = roundToCents 6.125 /\
  is_nan (roundToDecimals powWhole 5.09453 4) = false.
Proof.
  destruct (roundToDecimals_like_roundToCents powWhole) as (H1 & H2 & H3).
  split; [apply (H1 (VNumber nan) 4); reflexivity|].
  split; [apply (H1 (VString "5") 4); reflexivity|].
  split; [apply (H2 (VNumber 6.125)); reflexivity|].
  apply (H3 (VNumber 5.09453) 4); reflexivity.
Defined.

(** With finite bounds and zero allowed, [validateNumber] accepts the
    numbers from [min] to [max]. *)
Lemma validateNumber_in_range v fieldName lo hi :
  is_finite lo = true -> is_finite hi = true ->
  (exists x, validateNumber v fieldName
               {| min := lo; max := hi; allowZero := true |} = Ok x) <->
  (exists x, v = VNumber x /\ (lo <=? x) = true /\ (x <=? hi) = true).
Proof.
  intros Hlo Hhi. split.
  - intros [x H]. destruct v as [y| | |b|s]; try discriminate.
    cbn [validateNumber min max allowZero] in H.
    destruct (is_nan y || negb (is_finite y)) eqn:Hf; [discriminate|].
    apply orb_false_elim in Hf. destruct Hf as [Hn _].
    cbn [negb andb] in H.
    destruct (y <? lo) eqn:H1; [discriminate|].
    destruct (hi <? y) eqn:H2; [discriminate|].
    exists y. split; [reflexivity|].
    split; apply ltb_false_leb; auto using is_finite_not_nan.
  - intros (x & -> & H1 & H2).
    assert (Hf : is_finite x = true)
      by (apply (between_finite lo hi); assumption).
    exists x. cbn [validateNumber min max allowZero].
    rewrite (is_finite_not_nan x Hf), Hf. cbn [negb orb andb].
    rewrite (leb_not_ltb _ _ H1), (leb_not_ltb _ _ H2). reflexivity.
Qed.

(** X21.  [validateLoanParameters] returns [true] exactly for three numbers
    with [1 <= loanAmount <= 100000000], [0 <= interestRate <= 50] and
    [1 <= loanTerm <= 50] (a zero loan amount or term is refused by the
    lower bound).  Whatever it accepts the service's own checks accept, and
    whatever it throws has status 400. *)
Theorem validateLoanParameters_accepts_iff
    (loanAmount interestRate loanTerm : value) :
  (validateLoanParameters loanAmount interestRate loanTerm = Ok true <->
   exists a r t,
     loanAmount = VNumber a /\ interestRate = VNumber r /\ loanTerm = VNumber t /\
     (1 <=? a) = true /\ (a <=? 100000000) = true /\
     (0 <=? r) = true /\ (r <=? 50) = true /\
     (1 <=? t) = true /\ (t <=? 50) = true) /\
  (validateLoanParameters loanAmount interestRate loanTerm = Ok true ->
   acceptable loanAmount = true /\ acceptable interestRate = true /\
   acceptable loanTerm = true) /\
  (forall e,
     validateLoanParameters loanAmount interestRate loanTerm = Throw e ->
     statusCode e = 400%Z).
Proof.
  assert (Hiff :
    validateLoanParameters loanAmount interestRate loanTerm = Ok true <->
    exists a r t,
      loanAmount = VNumber a /\ interestRate = VNumber r /\ loanTerm = VNumber t /\
      (1 <=? a) = true /\ (a <=? 100000000) = true /\
      (0 <=? r) = true /\ (r <=? 50) = true /\
      (1 <=? t) = true /\ (t <=? 50) = true).
  { pose proof (validateNumber_in_range loanAmount "Loan amount" 1 100000000
                  eq_refl eq_refl) as H1.
    pose proof (validateNumber_in_range interestRate "Interest rate" 0 50
                  eq_refl eq_refl) as H2.
    pose proof (validateNumber_in_range loanTerm "Loan term" 1 50
                  eq_refl eq_refl) as H3.
    unfold validateLoanParameters. split.
    - intros H.
      destruct (validateNumber loanAmount _ _) as [a|e] eqn:Ea; [|discriminate].
      destruct (validateNumber interestRate _ _) as [r|e] eqn:Er; [|discriminate].
      destruct (validateNumber loanTerm _ _) as [t|e] eqn:Et; [|discriminate].
      destruct (proj1 H1 (ex_intro _ a eq_refl)) as (a' & -> & ? & ?).
      destruct (proj1 H2 (ex_intro _ r eq_refl)) as (r' & -> & ? & ?).
      destruct (proj1 H3 (ex_intro _ t eq_refl)) as (t' & -> & ? & ?).
      exists a', r', t'. repeat split; assumption.
    - intros (a & r & t & -> & -> & -> & Ha1 & Ha2 & Hr1 & Hr2 & Ht1 & Ht2).
      destruct (proj2 H1 (ex_intro _ a (conj eq_refl (conj Ha1 Ha2)))) as [a' ->].
      destruct (proj2 H2 (ex_intro _ r (conj eq_refl (conj Hr1 Hr2)))) as [r' ->].
      destruct (proj2 H3 (ex_intro _ t (conj eq_refl (conj Ht1 Ht2)))) as [t' ->].
      reflexivity. }
  split; [exact Hiff|]. split.
  - intros H. apply Hiff in H.
    destruct H as (a & r & t & -> & -> & -> & Ha1 & Ha2 & Hr1 & Hr2 & Ht1 & Ht2).
    repeat split.
    + apply acceptable_number; [apply (between_finite 1 100000000); auto|].
      apply nonNegative_not_ltb_0, leb_1_nonNegative, Ha1.
    + apply acceptable_number; [apply (between_finite 0 50); auto|].
      apply leb_0_not_ltb, Hr1.
    + apply acceptable_number; [apply (between_finite 1 50); auto|].
      apply nonNegative_not_ltb_0, leb_1_nonNegative, Ht1.
  - intros e. unfold validateLoanParameters, validateNumber.
    cbn [min max allowZero negb andb].
    repeat match goal with
           | |- context [match ?v with VNumber _ => _ | _ => _ end] => destruct v
           | |- context [if ?c then _ else _] => destruct c
           end; cbn [bind]; intros H; inversion H; reflexivity.
Qed.

Lemma validateLoanParameters_accepts_iff_witness :
  validateLoanParameters 300000 4.5 30 = Ok true /\
  acceptable 300000 = true /\ acceptable 4.5 = true /\ acceptable 30 = true.
Proof.
  destruct (validateLoanParameters_accepts_iff 300000 4.5 30)
    as (Hiff & Hacc & _).
  assert (H : validateLoanParameters 300000 4.5 30 = Ok true).
  { apply Hiff. exists 300000, 4.5, 30. repeat split; reflexivity. }
  split; [exact H|apply Hacc, H].
Defined.

Lemma validateNumber_zero_rejected v fieldName x :
  acceptable v = true -> v = VNumber x -> (x =? 0) = true ->
  validateNumber v fieldName {| min := 0; max := infinity; allowZero := false |}
  = Throw (mkAppError (CannotBeZero fieldName) 400).
Proof.
  intros Hacc -> Hz. cbn [acceptable] in Hacc. apply andb_prop in Hacc.
  destruct Hacc as [Hf _].
  cbn [validateNumber allowZero]. rewrite (is_finite_not_nan x Hf), Hf, Hz.
  reflexivity.
Qed.

(** X23.  Where a zero is refused and where it is not.
    [calculatePresentValue] throws "Interest rate cannot be zero" (400) at
    a rate equal to 0, and [calculateEffectiveAnnualRate] throws
    "Compounding periods cannot be zero" (400) for periods equal to 0, 0 and
    -0 alike; [calculateCompoundInterest], which divides the rate by the
    periods as well, accepts periods equal to 0 and returns a number that
    is not NaN. *)
Theorem zero_rate_and_zero_periods
    (Math_pow : number -> number -> number) :
  (forall (futureValue periods : value) (rate : number),
      acceptable futureValue = true -> (rate =? 0) = true ->
      calculatePresentValue Math_pow futureValue rate periods
      = Throw (mkAppError (CannotBeZero "Interest rate") 400)) /\
  (forall (nominalRate : value) (compoundingPeriods : number),
      acceptable nominalRate = true -> (compoundingPeriods =? 0) = true ->
      calculateEffectiveAnnualRate Math_pow nominalRate compoundingPeriods
      = Throw (mkAppError (CannotBeZero "Compounding periods") 400)) /\
  (forall (principal rate time : value) (periods : number),
      acceptable principal = true -> acceptable rate = true ->
      (periods =? 0) = true -> acceptable time = true ->
      exists amount,
        calculateCompoundInterest Math_pow principal rate periods time
        = Ok amount /\ is_nan amount = false).
Proof.
  split; [|split].
  - intros fv periods rate Hfv Hr. unfold calculatePresentValue.
    rewrite (validateNumber_acceptable fv) by assumption. cbn [bind].
    rewrite (validateNumber_zero_rejected rate "Interest rate" rate);
      auto using eqb_0_acceptable.
  - intros nr cp Hnr Hcp. unfold calculateEffectiveAnnualRate.
    rewrite (validateNumber_acceptable nr) by assumption. cbn [bind].
    rewrite (validateNumber_zero_rejected cp "Compounding periods" cp);
      auto using eqb_0_acceptable.
  - intros p r t n Hp Hr Hn Ht. unfold calculateCompoundInterest.
    rewrite (validateNumber_acceptable p), (validateNumber_acceptable r),
      (validateNumber_acceptable n), (validateNumber_acceptable t)
      by auto using eqb_0_acceptable.
    cbn [bind]. eexists. split; [reflexivity|apply roundToCents_not_nan].
Qed.

Lemma zero_rate_and_zero_periods_witness :
  calculatePresentValue powWhole 1000 0 10
  = Throw (mkAppError (CannotBeZero "Interest rate") 400) /\
  calculateEffectiveAnnualRate powWhole 5 neg_zero
  = Throw (mkAppError (CannotBeZero "Compounding periods") 400) /\
  exists amount,
    calculateCompoundInterest powWhole 1000 0.05 0 10 = Ok amount /\
    is_nan amount = false.
Proof.
  destruct (zero_rate_and_zero_periods powWhole) as (H1 & H2 & H3).
  split; [apply (H1 1000 10 0); reflexivity|].
  split; [apply (H2 5 neg_zero); reflexivity|].
  apply (H3 1000 0.05 10 0); reflexivity.
Defined.

(** X24.  The edges of [calculatePercentageChange].  From an old value
    equal to 0 the change is 100 when the new value is above 0 and 0
    otherwise; from a finite value above 0 to the same value it is 0; and
    no change returned is NaN (the last two given that [Math.pow (10, 2)]
    is 100). *)
Theorem calculatePercentageChange_edges
    (Math_pow : number -> number -> number) :
  (forall (oldValue : number) (newValue : value),
      (oldValue =? 0) = true -> acceptable newValue = true ->
      calculatePercentageChange Math_pow oldValue newValue
      = Ok (if 0 <? numberOf newValue then 100 else 0)) /\
  (forall x : number,
      Math_pow 10 2 = 100 -> is_finite x = true -> (0 <? x) = true ->
      calculatePercentageChange Math_pow x x = Ok 0) /\
  (forall (oldValue newValue : value) (change : number),
      Math_pow 10 2 = 100 ->
      calculatePercentageChange Math_pow oldValue newValue = Ok change ->
      is_nan change = false).
Proof.
  split; [|split].
  - intros o n Ho Hn. unfold calculatePercentageChange.
    rewrite (validateNumber_acceptable o) by (apply eqb_0_acceptable, Ho).
    rewrite (validateNumber_acceptable n) by assumption.
    cbn [bind numberOf]. rewrite Ho. reflexivity.
  - intros x Hpow Hf Hx. unfold calculatePercentageChange.
    rewrite !(validateNumber_acceptable x)
      by (apply acceptable_number; auto using ltb_0_not_ltb).
    cbn [bind numberOf].
    assert (Hz : (x =? 0) = false).
    { destruct (x =? 0) eqn:E; [|reflexivity].
      destruct (eqb_0_cases x E) as [-> | ->]; discriminate Hx. }
    rewrite Hz, (sub_diag_finite x Hf), (div_0_positive x Hx).
    unfold roundToDecimals. rewrite Hpow. reflexivity.
  - intros o n c Hpow. unfold calculatePercentageChange.
    destruct (validateNumber o _ _) as [o'|e]; cbn [bind]; [|discriminate].
    destruct (validateNumber n _ _) as [n'|e]; cbn [bind]; [|discriminate].
    destruct (o' =? 0).
    + intros H. inversion H. destruct (0 <? n'); reflexivity.
    + intros H. inversion H. unfold roundToDecimals. rewrite Hpow.
      apply (roundToCents_not_nan ((n' - o') / o' * 100)).
Qed.

Lemma calculatePercentageChange_edges_witness :
  calculatePercentageChange powWhole 0 250 = Ok 100 /\
  calculatePercentageChange powWhole 0 0 = Ok 0 /\
  calculatePercentageChange powWhole 1520.06 1520.06 = Ok 0 /\
  (calculatePercentageChange powWhole 200 250 = Ok 25 /\ is_nan 25 = false).
Proof.
  destruct (calculatePercentageChange_edges powWhole) as (H1 & H2 & H3).
  split; [apply (H1 0 250); reflexivity|].
  split; [apply (H1 0 0); reflexivity|].
  split; [apply (H2 1520.06); reflexivity|].
  split; [reflexivity|apply (H3 200 250 25); reflexivity].
Defined.

(** X25.  At a rate that is not 0, [calculatePaymentNumberForBalance] does
    not depend on the loan amount: the loan amount is validated and then
    not used, so any two accepted loan amounts give the same result (or the
    same error). *)
Theorem calculatePaymentNumberForBalance_ignores_loanAmount
    (Math_log : number -> number)
    (loanAmount loanAmount' interestRate monthlyPayment targetBalance : value) :
  acceptable loanAmount = true -> acceptable loanAmount' = true ->
  match interestRate with VNumber r => r =? 0 | _ => false end = false ->
  calculatePaymentNumberForBalance Math_log
    loanAmount interestRate monthlyPayment targetBalance
  = calculatePaymentNumberForBalance Math_log
      loanAmount' interestRate monthlyPayment targetBalance.
Proof.
  intros H H' Hr. unfold calculatePaymentNumberForBalance.
  rewrite (validateNumber_acceptable loanAmount),
    (validateNumber_acceptable loanAmount') by assumption.
  cbn [bind].
  destruct (validateNumber interestRate _ _) as [r|e] eqn:Er; [|reflexivity].
  cbn [bind].
  destruct (validateNumber monthlyPayment _ _) as [p|e]; [|reflexivity].
  cbn [bind].
  destruct (validateNumber targetBalance _ _) as [t|e]; [|reflexivity].
  cbn [bind].
  assert (Hz : (r =? 0) = false).
  { destruct interestRate as [x| | |b|s]; try discriminate Er.
    cbn [validateNumber] in Er.
    repeat match type of Er with
           | context [if ?c then _ else _] => destruct c; try discriminate Er
           end.
    inversion Er; subst. exact Hr. }
  rewrite Hz. reflexivity.
Qed.

(** The witness takes for [Math.log] its linear approximation near 1. *)
Lemma calculatePaymentNumberForBalance_ignores_loanAmount_witness :
  calculatePaymentNumberForBalance (fun x => x - 1) 300000 4.5 1520.06 100000
  = calculatePaymentNumberForBalance (fun x => x - 1) 1 4.5 1520.06 100000.
Proof.
  apply (calculatePaymentNumberForBalance_ignores_loanAmount
           (fun x => x - 1) 300000 1 4.5 1520.06 100000); reflexivity.
Defined.

(** X26.  The [validateNumber] of errorUtils.js and the [validateNumber] of
    mathUtils.js under its default options accept the same values; where
    they throw, both throw with status 400, the one "must be a valid
    number" where the other does, and "cannot be negative" where the other
    says "cannot be less than 0". *)
Theorem validateNumber_of_errorUtils_agrees (v : value) (fieldName : string) :
  match ErrorUtils.validateNumber v fieldName,
        validateNumber v fieldName defaultOptions with
  | ErrorUtils.Returned, Ok x => v = VNumber x
  | ErrorUtils.Thrown (ErrorUtils.MustBeValidNumber f) code, Throw e =>
      f = fieldName /\ code = 400%Z /\
      e = mkAppError (MustBeValidNumber fieldName) 400
  | ErrorUtils.Thrown (ErrorUtils.CannotBeNegative f) code, Throw e =>
      f = fieldName /\ code = 400%Z /\
      e = mkAppError (CannotBeLessThan fieldName 0) 400
  | _, _ => False
  end.
Proof.
  destruct v as [x| | |b|s]; cbn [ErrorUtils.validateNumber validateNumber]; auto.
  destruct (is_nan x || negb (is_finite x)); auto.
  cbn [defaultOptions allowZero min max negb andb].
  destruct (x <? 0); auto.
  rewrite ltb_infinity_l. reflexivity.
Qed.

(** X27.  For the status codes of HTTP, 100 to 599, the [status] that the
    constructor of [AppError] derives is "fail" exactly for the codes 400
    to 499 and "error" for the others; [isOperational] is always [true]. *)
Theorem AppError_status_of_http_codes (m : Message) (code : Z) :
  (100 <= code <= 599)%Z ->
  ErrorUtils.status (mkAppError m code)
  = (if (400 <=? code)%Z && (code <=? 499)%Z then "fail" else "error")%string /\
  ErrorUtils.isOperational (mkAppError m code) = true.
Proof.
  intros Hc. split; [|reflexivity].
  unfold ErrorUtils.status. cbn [statusCode].
  assert (H : allFrom (fun c =>
                 Bool.eqb (String.prefix "4" (ErrorUtils.textOf c))
                          ((400 <=? c)%Z && (c <=? 499)%Z)) 100 500 = true)
    by (vm_compute; reflexivity).
  pose proof (allFrom_spec _ _ _ H code ltac:(lia)) as Hcode.
  cbv beta in Hcode. apply Bool.eqb_prop in Hcode. rewrite Hcode.
  reflexivity.
Qed.

Lemma AppError_status_of_http_codes_witness :
  ErrorUtils.status (mkAppError (MustBeValidNumber "Loan amount") 400)
  = "fail"%string /\
  ErrorUtils.isOperational (mkAppError (MustBeValidNumber "Loan amount") 400)
  = true.
Proof.
  apply (AppError_status_of_http_codes (MustBeValidNumber "Loan amount") 400).
  lia.
Defined.

(** * What [logger] logs of a body *)

Lemma lookup_delete {V : Type} (o : Logger.Body V) key key' :
  Logger.lookup (Logger.delete o key) key'
  = if String.eqb key' key then None else Logger.lookup o key'.
Proof.
  induction o as [|[k v] o IH]; cbn [Logger.delete Logger.lookup].
  - destruct (String.eqb key' key); reflexivity.
  - destruct (String.eqb_spec key k) as [->|Hne].
    + rewrite IH. destruct (String.eqb_spec key' k); reflexivity.
    + cbn [Logger.lookup]. rewrite IH.
      destruct (String.eqb_spec key' k) as [->|Hne']; [|reflexivity].
      destruct (String.eqb_spec k key); [congruence|reflexivity].
Qed.

Lemma In_delete {V : Type} (o : Logger.Body V) key k v :
  In (k, v) (Logger.delete o key) <-> In (k, v) o /\ k <> key.
Proof.
  induction o as [|[k0 v0] o IH]; cbn [Logger.delete In]; [tauto|].
  destruct (String.eqb_spec key k0) as [->|Hne].
  - rewrite IH. split; [tauto|]. intros [[H|H] Hk]; [|tauto].
    inversion H; subst. congruence.
  - cbn [In]. rewrite IH. split.
    + intros [H|H]; [|tauto]. inversion H; subst. split; [tauto|congruence].
    + tauto.
Qed.

(** X28.  [logger] logs a body only for a POST, PUT or PATCH that has one,
    and never with a property [password], [token] or [apiKey] of its top
    level: in the body logged these three keys are [undefined], every other
    key has the value it has in the body of the request, and the properties
    logged are those of the request whose key is not one of the three. *)
Theorem logger_hides_sensitive_fields {V : Type}
    (method url ip : string) (body : option (Logger.Body V))
    (sanitizedBody : Logger.Body V) :
  In (Logger.RequestBody sanitizedBody) (Logger.logger method url ip body) ->
  exists b,
    body = Some b /\
    (method = "POST" \/ method = "PUT" \/ method = "PATCH")%string /\
    (forall key,
        Logger.lookup sanitizedBody key
        = if sensitive key then None else Logger.lookup b key) /\
    (forall key v,
        In (key, v) sanitizedBody <-> In (key, v) b /\ sensitive key = false).
Proof.
  unfold Logger.logger. intros [H|H]; [discriminate|].
  destruct body as [b|]; [|contradiction].
  destruct (existsb (String.eqb method) ["POST"; "PUT"; "PATCH"]%string) eqn:Hm;
    [|contradiction].
  destruct H as [H|[]]. inversion H; subst sanitizedBody. clear H.
  exists b. split; [reflexivity|]. split.
  - cbn [existsb] in Hm.
    destruct (String.eqb_spec method "POST"); [tauto|].
    destruct (String.eqb_spec method "PUT"); [tauto|].
    destruct (String.eqb_spec method "PATCH"); [tauto|discriminate].
  - split.
    + intros key. rewrite !lookup_delete. unfold sensitive. cbn [existsb].
      destruct (String.eqb key "apiKey"), (String.eqb key "token"),
        (String.eqb key "password"); reflexivity.
    + intros key v. rewrite !In_delete. unfold sensitive. cbn [existsb].
      destruct (String.eqb_spec key "password"), (String.eqb_spec key "token"),
        (String.eqb_spec key "apiKey"); cbn [orb]; split;
        intros; try tauto; try (exfalso; intuition congruence);
        intuition congruence.
Qed.

Lemma logger_hides_sensitive_fields_witness :
  exists b,
    Some [("loanAmount", 300000); ("password", 1234); ("loanTerm", 30);
          ("apiKey", 99)]%string = Some b /\
    ("POST" = "POST" \/ "POST" = "PUT" \/ "POST" = "PATCH")%string /\
    (forall key,
        Logger.lookup [("loanAmount", 300000); ("loanTerm", 30)]%string key
        = if sensitive key then None else Logger.lookup b key) /\
    (forall key v,
        In (key, v) [("loanAmount", 300000); ("loanTerm", 30)]%string
        <-> In (key, v) b /\ sensitive key = false).
Proof.
  apply (logger_hides_sensitive_fields (V := float) "POST" "/api/mortgage/calculate"
           "127.0.0.1"
           (Some [("loanAmount", 300000); ("password", 1234); ("loanTerm", 30);
                  ("apiKey", 99)]%string)
           [("loanAmount", 300000); ("loanTerm", 30)]%string).
  right. left. reflexivity.
Defined.

(** * The rounding error of binary64 arithmetic *)

(** ** Rounding a quotient of integers *)

Section Rounding.

#[local] Open Scope Z_scope.

Lemma shr_1_nonnegative m r s :
  0 <= m ->
  shr_1 {| shr_m := m; shr_r := r; shr_s := s |}
  = {| shr_m := m / 2; shr_r := Z.odd m; shr_s := r || s |}.
Proof.
  intros H. rewrite <- Z.div2_div.
  destruct m as [|[p|p|]|p]; try lia; reflexivity.
Qed.

Lemma represents_shr_1 mrs N D :
  represents mrs N D -> represents (shr_1 mrs) N (2 * D).
Proof.
  destruct mrs as [m r s]. unfold represents. cbn [shr_m shr_r shr_s].
  intros (HD & HN & Hm & Hr & Hs).
  assert (Hm0 : 0 <= m) by (subst m; apply Z.div_pos; lia).
  rewrite (shr_1_nonnegative m r s Hm0). cbn [shr_m shr_r shr_s].
  pose proof (Z.div_mod N D ltac:(lia)) as Hdiv.
  pose proof (Z.mod_pos_bound N D HD) as HR.
  rewrite <- Hm in Hdiv. set (R := N mod D) in *.
  pose proof (Z.div_mod m 2 ltac:(lia)) as Hm2.
  pose proof (Z.mod_pos_bound m 2 ltac:(lia)) as Hb.
  assert (Hq : N / (2 * D) = m / 2 /\ N mod (2 * D) = D * (m mod 2) + R).
  { assert (HN' : N = (2 * D) * (m / 2) + (D * (m mod 2) + R)) by nia.
    split; [symmetry; eapply Z.div_unique_pos|symmetry; eapply Z.mod_unique_pos];
      try exact HN'; nia. }
  destruct Hq as [Hq1 Hq2]. rewrite Hq1, Hq2.
  repeat split; try lia.
  - rewrite Zmod_odd. destruct (Z.odd m).
    + symmetry. apply Z.leb_le. nia.
    + symmetry. apply Z.leb_gt. nia.
  - rewrite Hr, Hs, Zmod_odd.
    destruct (Z.odd m);
      destruct (Z.leb_spec D (2 * R)); destruct (Z.eqb_spec R 0);
      destruct (Z.eqb_spec (2 * R) D); cbn [negb orb];
      repeat match goal with
             | |- context [?a =? ?b] => destruct (Z.eqb_spec a b)
             end; cbn [negb orb]; try reflexivity; try lia.
Qed.

Lemma represents_iter_shr_1 p :
  forall mrs N D,
    represents mrs N D ->
    represents (iter_pos shr_1 p mrs) N (D * 2 ^ Z.pos p).
Proof.
  induction p as [p IH|p IH|]; intros mrs N D H; cbn [iter_pos].
  - apply represents_shr_1 in H. apply IH, IH in H.
    replace (D * 2 ^ Z.pos p~1) with (2 * D * 2 ^ Z.pos p * 2 ^ Z.pos p);
      [exact H|].
    replace (2 ^ Z.pos p~1) with (2 * (2 ^ Z.pos p * 2 ^ Z.pos p)); [ring|].
    rewrite <- Z.pow_add_r, <- Z.pow_succ_r by lia. f_equal. lia.
  - apply IH, IH in H.
    replace (D * 2 ^ Z.pos p~0) with (D * 2 ^ Z.pos p * 2 ^ Z.pos p);
      [exact H|].
    replace (2 ^ Z.pos p~0) with (2 ^ Z.pos p * 2 ^ Z.pos p); [ring|].
    rewrite <- Z.pow_add_r by lia. f_equal. lia.
  - apply represents_shr_1 in H. rewrite Z.pow_1_r.
    replace (D * 2) with (2 * D) by ring. exact H.
Qed.

(** Rounding to nearest: the mantissa chosen is within a half of the
    quotient. *)
Lemma round_nearest_even_represents mrs N D :
  represents mrs N D ->
  let m1 := round_nearest_even (shr_m mrs) (loc_of_shr_record mrs) in
  Z.abs (2 * (m1 * D - N)) <= D /\ N / D <= m1 <= N / D + 1.
Proof.
  destruct mrs as [m r s]. unfold represents. cbn [shr_m shr_r shr_s].
  intros (HD & HN & Hm & Hr & Hs).
  pose proof (Z.div_mod N D ltac:(lia)) as Hdiv.
  pose proof (Z.mod_pos_bound N D HD) as HR.
  rewrite <- Hm in *. set (R := N mod D) in *.
  destruct (Z.leb_spec D (2 * R)); destruct (Z.eqb_spec R 0);
    destruct (Z.eqb_spec (2 * R) D); cbn [negb orb] in Hs; subst r s;
    cbn [loc_of_shr_record round_nearest_even]; try lia;
    try destruct (Z.even m); split; try lia; nia.
Qed.

Lemma fexp_64 z : fexp prec emax z = Z.max (z - 53) (-1074).
Proof. reflexivity. Qed.

Lemma Zdigits2_bounds m : 0 < m -> 2 ^ (Zdigits2 m - 1) <= m < 2 ^ Zdigits2 m.
Proof. destruct m as [|p|p]; try lia. intros _. apply digits2_pos_bounds. Qed.

Lemma Zdigits2_nonneg m : 0 <= Zdigits2 m.
Proof. destruct m; simpl; lia. Qed.

Lemma represents_shr_fexp mx ex lx N D :
  represents (shr_record_of_loc mx lx) N D ->
  ex <= fexp prec emax (Zdigits2 mx + ex) ->
  exists mrs,
    shr_fexp prec emax mx ex lx = (mrs, fexp prec emax (Zdigits2 mx + ex)) /\
    represents mrs N (D * 2 ^ (fexp prec emax (Zdigits2 mx + ex) - ex)).
Proof.
  intros H He. unfold shr_fexp, shr.
  set (e1 := fexp prec emax (Zdigits2 mx + ex)) in *.
  destruct (e1 - ex) as [|p|p] eqn:Hn; try lia.
  - exists (shr_record_of_loc mx lx). split; [f_equal; lia|].
    rewrite Z.pow_0_r, Z.mul_1_r. exact H.
  - eexists. split; [f_equal; lia|]. apply represents_iter_shr_1, H.
Qed.

(** What [binary_round_aux] returns for the quotient [N / D] at the
    exponent [ex]: with [e1] the exponent of the format for it, a mantissa
    [m1] within a half of [N / (D * 2 ^ (e1 - ex))]. *)
Lemma binary_round_aux_represents sx mx ex lx N D :
  represents (shr_record_of_loc mx lx) N D ->
  ex <= fexp prec emax (Zdigits2 mx + ex) ->
  let e1 := fexp prec emax (Zdigits2 mx + ex) in
  exists m1,
    Z.abs (2 * (m1 * (D * 2 ^ (e1 - ex)) - N)) <= D * 2 ^ (e1 - ex) /\
    0 <= m1 <= 2 ^ 53 /\
    binary_round_aux prec emax sx mx ex lx
    = match m1 with
      | Z.pos p =>
          if m1 =? 2 ^ 53
          then if e1 + 1 <=? 971 then S754_finite sx (2 ^ 52) (e1 + 1)
               else S754_infinity sx
          else if e1 <=? 971 then S754_finite sx p e1 else S754_infinity sx
      | _ => S754_zero sx
      end.
Proof.
  intros H He e1.
  destruct (represents_shr_fexp mx ex lx N D H He) as (mrs & Hshr & Hrep).
  fold e1 in Hshr, Hrep.
  assert (Hn : 0 <= e1 - ex) by lia.
  pose proof (round_nearest_even_represents mrs N _ Hrep) as [Habs Hm1].
  set (m1 := round_nearest_even (shr_m mrs) (loc_of_shr_record mrs)) in *.
  assert (HD : 0 < D) by apply H.
  assert (HN : 0 <= N) by apply H.
  assert (Hmx : mx = N / D) by (destruct lx as [|[]]; apply H).
  assert (Hp : 0 < 2 ^ (e1 - ex)) by (apply Z.pow_pos_nonneg; lia).
  assert (Hq : N / (D * 2 ^ (e1 - ex)) < 2 ^ 53).
  { rewrite <- Z.div_div by lia. rewrite <- Hmx.
    apply Z.div_lt_upper_bound; [lia|].
    assert (Hmx0 : 0 <= mx) by (subst mx; apply Z.div_pos; lia).
    destruct (Z.eq_dec mx 0) as [->|Hne]; [lia|].
    pose proof (Zdigits2_bounds mx ltac:(lia)) as [_ Hu].
    eapply Z.lt_le_trans; [exact Hu|].
    rewrite <- Z.pow_add_r by lia. apply Z.pow_le_mono_r; [lia|].
    unfold e1 in *. rewrite fexp_64 in *. lia. }
  assert (H0 : 0 <= N / (D * 2 ^ (e1 - ex))) by (apply Z.div_pos; lia).
  exists m1. split; [exact Habs|]. split; [lia|].
  unfold binary_round_aux. rewrite Hshr. fold m1.
  assert (He1 : -1074 <= e1) by (unfold e1; rewrite fexp_64; lia).
  destruct m1 as [|p|p] eqn:Em1; try lia.
  - unfold shr_fexp, shr. cbn [Zdigits2]. rewrite fexp_64.
    destruct (Z.max (0 + e1 - 53) (-1074) - e1) eqn:E; try lia; reflexivity.
  - destruct (Z.eqb_spec (Z.pos p) (2 ^ 53)) as [Ep|Ep].
    + inversion Ep; subst p. unfold shr_fexp, shr. cbn [Zdigits2].
      change (Z.pos (digits2_pos 9007199254740992)) with 54.
      rewrite fexp_64.
      replace (Z.max (54 + e1 - 53) (-1074) - e1) with 1 by lia.
      cbn [iter_pos shr_record_of_loc shr_1 shr_m].
      reflexivity.
    + assert (Hd : Z.pos (digits2_pos p) <= 53) by (apply digits2_pos_53; lia).
      unfold shr_fexp, shr. cbn [Zdigits2]. rewrite fexp_64.
      destruct (Z.max (Z.pos (digits2_pos p) + e1 - 53) (-1074) - e1) eqn:E;
        try lia; reflexivity.
Qed.

End Rounding.

(** ** The error of one rounding *)

Lemma exactValue_valueOf x : exactValue x = valueOf (Prim2SF x).
Proof. reflexivity. Qed.

Section Pow2.

#[local] Open Scope Q_scope.

Lemma pow2_pos e : 0 < 2 ^ e.
Proof. apply Qpower_0_lt. reflexivity. Qed.

Lemma pow2_add a b : 2 ^ (a + b) == 2 ^ a * 2 ^ b.
Proof. apply Qpower_plus. discriminate. Qed.

Lemma pow2_le a b : (a <= b)%Z -> 2 ^ a <= 2 ^ b.
Proof. intros H. apply Qpower_le_compat_l; [exact H|]. discriminate. Qed.

Lemma inject_Z_pow2 n : (0 <= n)%Z -> inject_Z (2 ^ n) == 2 ^ n.
Proof. intros H. rewrite Zpower_Qpower by exact H. reflexivity. Qed.

Lemma pow2_succ a : 2 ^ (a + 1) == 2 * 2 ^ a.
Proof. rewrite pow2_add. change (2 ^ 1) with 2. ring. Qed.

Lemma pow2_pred a : 2 ^ (a - 1) == 2 ^ a / 2.
Proof.
  replace a with ((a - 1) + 1)%Z at 2 by lia. rewrite pow2_succ. field.
Qed.

End Pow2.

Section RoundingError.

#[local] Open Scope Q_scope.

Lemma leastError_pow2 : 2 ^ (-1074) * (1 # 2) == leastError.
Proof. vm_compute. reflexivity. Qed.

Lemma unitRoundoff_pow2 : 2 ^ 52 * unitRoundoff == 1 # 2.
Proof. vm_compute. reflexivity. Qed.

Lemma represents_value mx lx N D :
  represents (shr_record_of_loc mx lx) N D ->
  (0 < D)%Z /\ (0 <= N)%Z /\ mx = (N / D)%Z /\
  inject_Z mx <= inject_Z N / inject_Z D /\ 0 <= inject_Z N / inject_Z D.
Proof.
  intros H.
  assert (HD : (0 < D)%Z) by apply H.
  assert (HN : (0 <= N)%Z) by apply H.
  assert (Hmx : mx = (N / D)%Z) by (destruct lx as [|[]]; apply H).
  repeat split; auto.
  - apply Qle_shift_div_l; [change 0 with (inject_Z 0); rewrite <- Zlt_Qlt; lia|].
    rewrite <- inject_Z_mult, <- Zle_Qle. subst mx.
    rewrite Z.mul_comm. apply Z.mul_div_le. lia.
  - apply Qle_shift_div_l; [change 0 with (inject_Z 0); rewrite <- Zlt_Qlt; lia|].
    rewrite Qmult_0_l. change 0 with (inject_Z 0). rewrite <- Zle_Qle. lia.
Qed.

(** The number that [binary_round_aux] returns for [x = N / D * 2 ^ ex]:
    an infinity, which takes [x] above [2 ^ 1023], or a number whose
    magnitude is within [x * 2 ^ -53 + 2 ^ -1075] of [x]. *)
Lemma binary_round_aux_cases sx mx ex lx N D :
  represents (shr_record_of_loc mx lx) N D ->
  (ex <= fexp prec emax (Zdigits2 mx + ex))%Z ->
  (exists m e,
     (0 <= m)%Z /\
     valueOf (binary_round_aux prec emax sx mx ex lx)
     = (if (m =? 0)%Z then Some 0
        else Some (inject_Z (cond_Zopp sx m) * 2 ^ e)) /\
     Qabs (inject_Z m * 2 ^ e - inject_Z N / inject_Z D * 2 ^ ex)
     <= inject_Z N / inject_Z D * 2 ^ ex * unitRoundoff + leastError) \/
  (binary_round_aux prec emax sx mx ex lx = S754_infinity sx /\
   2 ^ 1023 < inject_Z N / inject_Z D * 2 ^ ex).
Proof.
  intros H He.
  destruct (binary_round_aux_represents sx mx ex lx N D H He)
    as (m1 & Habs & Hm1 & Hres).
  destruct (represents_value mx lx N D H) as (HD & HN & Hmx & Hmxq & Hq0).
  set (e1 := fexp prec emax (Zdigits2 mx + ex)) in *.
  set (x := inject_Z N / inject_Z D * 2 ^ ex) in *.
  assert (HDq : 0 < inject_Z D)
    by (change 0 with (inject_Z 0); rewrite <- Zlt_Qlt; exact HD).
  pose proof (pow2_pos ex) as Hpex. pose proof (pow2_pos e1) as HP.
  pose proof (pow2_pos (e1 - ex)) as HT.
  assert (HPT : 2 ^ ex * 2 ^ (e1 - ex) == 2 ^ e1)
    by (rewrite <- pow2_add; replace (ex + (e1 - ex))%Z with e1 by lia;
        reflexivity).
  assert (Hx0 : 0 <= x) by (apply Qmult_le_0_compat; [exact Hq0|lra]).
  assert (Hxq : x * (inject_Z D * 2 ^ (e1 - ex)) == inject_Z N * 2 ^ e1).
  { unfold x. rewrite <- HPT. field. lra. }
  (* the mantissa is within a half of the quotient *)
  assert (Hz1 : (2 * N <= 2 * (m1 * (D * 2 ^ (e1 - ex))) + D * 2 ^ (e1 - ex))%Z)
    by lia.
  assert (Hz2 : (2 * (m1 * (D * 2 ^ (e1 - ex))) <= 2 * N + D * 2 ^ (e1 - ex))%Z)
    by lia.
  rewrite Zle_Qle in Hz1, Hz2.
  rewrite ?inject_Z_plus, ?inject_Z_mult in Hz1, Hz2.
  rewrite ?inject_Z_pow2 in Hz1, Hz2 by lia.
  change (inject_Z 2) with 2 in Hz1, Hz2.
  set (T := 2 ^ (e1 - ex)) in *. set (P := 2 ^ e1) in *.
  set (Mq := inject_Z m1) in *. set (Nq := inject_Z N) in *.
  set (Dq := inject_Z D) in *.
  assert (Hv : Qabs (Mq * P - x) <= P * (1 # 2)).
  { apply Qabs_Qle_condition.
    assert (HDT : 0 < Dq * T) by (apply Qmult_lt_0_compat; assumption).
    clearbody x T P Mq Nq Dq.
    assert (E : (Mq * P - x) * (Dq * T) == P * (Mq * (Dq * T) - Nq))
      by (setoid_replace ((Mq * P - x) * (Dq * T))
            with (Mq * P * (Dq * T) - x * (Dq * T)) by ring;
          rewrite Hxq; ring).
    split.
    - apply (Qmult_le_r _ _ (Dq * T) HDT). rewrite E.
      setoid_replace (- (P * (1 # 2)) * (Dq * T))
        with (P * (- (Dq * T) * (1 # 2))) by ring.
      apply Qmult_le_l; [exact HP|]. lra.
    - apply (Qmult_le_r _ _ (Dq * T) HDT). rewrite E.
      setoid_replace (P * (1 # 2) * (Dq * T))
        with (P * ((Dq * T) * (1 # 2))) by ring.
      apply Qmult_le_l; [exact HP|]. lra. }
  (* half a unit of the last place against the size of [x] *)
  assert (Hcase : e1 = (-1074)%Z \/ P * 2 ^ 52 <= x).
  { assert (Ee : e1 = Z.max (Zdigits2 mx + ex - 53) (-1074)) by reflexivity.
    destruct (Z.max_spec (Zdigits2 mx + ex - 53) (-1074)) as [[_ E]|[Hlt E]];
      rewrite E in Ee; [left; exact Ee|right].
    destruct (Z.eq_dec mx 0) as [E0|Hne].
    { exfalso. rewrite E0 in Ee. cbn [Zdigits2] in Ee. lia. }
    assert (Hmx0 : (0 < mx)%Z)
      by (assert (0 <= mx)%Z by (subst mx; apply Z.div_pos; lia); lia).
    pose proof (Zdigits2_bounds mx Hmx0) as [Hl _].
    assert (Hd1 : (0 <= Zdigits2 mx - 1)%Z) by (destruct mx; cbn [Zdigits2]; lia).
    rewrite Zle_Qle in Hl. rewrite (inject_Z_pow2 _ Hd1) in Hl.
    unfold P. rewrite <- pow2_add.
    replace (e1 + 52)%Z with ((Zdigits2 mx - 1) + ex)%Z by lia.
    rewrite pow2_add. unfold x.
    apply Qmult_le_compat_r; [|lra]. lra. }
  assert (Hhalf : P * (1 # 2) <= x * unitRoundoff + leastError).
  { assert (Hu : 0 < unitRoundoff) by reflexivity.
    assert (Hl : 0 < leastError) by reflexivity.
    destruct Hcase as [E|Hle].
    - unfold P. rewrite E, leastError_pow2.
      assert (0 <= x * unitRoundoff) by (apply Qmult_le_0_compat; lra). lra.
    - assert (P * 2 ^ 52 * unitRoundoff <= x * unitRoundoff)
        by (apply Qmult_le_compat_r; lra).
      assert (E : P * 2 ^ 52 * unitRoundoff == P * (1 # 2))
        by (rewrite <- Qmult_assoc, unitRoundoff_pow2; reflexivity).
      lra. }
  (* overflow *)
  assert (He971 : (971 < e1)%Z -> 2 ^ 1023 < x).
  { intros Hgt. destruct Hcase as [E|Hle]; [lia|].
    assert (2 ^ 1024 <= P * 2 ^ 52).
    { unfold P. rewrite <- pow2_add. apply pow2_le. lia. }
    assert (2 ^ 1023 < 2 ^ 1024) by reflexivity. lra. }
  assert (Hcarry : m1 = (2 ^ 53)%Z -> (971 < e1 + 1)%Z -> 2 ^ 1023 < x).
  { intros E Hgt. destruct (Z_le_gt_dec e1 971) as [Hle|]; [|apply He971; lia].
    assert (E1 : e1 = 971%Z) by lia.
    assert (EP : P * 2 ^ 52 == 2 ^ 1023)
      by (unfold P; rewrite <- pow2_add, E1; reflexivity).
    apply Qabs_Qle_condition in Hv. unfold Mq in Hv. rewrite E in Hv.
    change (inject_Z (2 ^ 53)) with (2 ^ 53) in Hv.
    assert (E53 : 2 ^ 53 == 2 * 2 ^ 52) by reflexivity.
    assert (0 < 2 ^ 52) by reflexivity.
    assert (E2 : 2 ^ 53 * P == 2 * (P * 2 ^ 52)) by (rewrite E53; ring).
    assert (0 < P * 2 ^ 52) by (apply Qmult_lt_0_compat; assumption).
    lra. }
  destruct m1 as [|p|p] eqn:Em1; try lia.
  - left. exists 0%Z, e1. split; [lia|]. rewrite Hres. split; [reflexivity|].
    fold P. fold x. unfold Mq in Hv. lra.
  - rewrite Hres. destruct (Z.eqb_spec (Z.pos p) (2 ^ 53)) as [Ep|Ep].
    + destruct (Z.leb_spec (e1 + 1) 971) as [Hle|Hgt].
      * left. exists (2 ^ 52)%Z, (e1 + 1)%Z. split; [lia|].
        split; [reflexivity|]. fold x.
        assert (E : inject_Z (2 ^ 52) * 2 ^ (e1 + 1) == Mq * P).
        { unfold Mq, P. rewrite Ep, pow2_succ.
          change (inject_Z (2 ^ 53)) with (2 * inject_Z (2 ^ 52)). ring. }
        rewrite E. lra.
      * right. split; [reflexivity|]. apply Hcarry; assumption.
    + destruct (Z.leb_spec e1 971) as [Hle|Hgt].
      * left. exists (Z.pos p), e1. split; [lia|].
        split; [reflexivity|]. fold x. fold P. fold Mq. lra.
      * right. split; [reflexivity|]. apply He971, Hgt.
Qed.

Lemma binary_round_aux_error sx mx ex lx N D :
  represents (shr_record_of_loc mx lx) N D ->
  (ex <= fexp prec emax (Zdigits2 mx + ex))%Z ->
  inject_Z N / inject_Z D * 2 ^ ex <= 2 ^ 1023 ->
  exists m e,
    (0 <= m)%Z /\
    valueOf (binary_round_aux prec emax sx mx ex lx)
    = (if (m =? 0)%Z then Some 0
       else Some (inject_Z (cond_Zopp sx m) * 2 ^ e)) /\
    Qabs (inject_Z m * 2 ^ e - inject_Z N / inject_Z D * 2 ^ ex)
    <= inject_Z N / inject_Z D * 2 ^ ex * unitRoundoff + leastError.
Proof.
  intros H He Hx.
  destruct (binary_round_aux_cases sx mx ex lx N D H He) as [Hc|[_ Hgt]];
    [exact Hc|].
  exfalso. apply (Qlt_not_le _ _ Hgt Hx).
Qed.

End RoundingError.

(** ** The operations on [SpecFloat] *)

Section Operations.

#[local] Open Scope Q_scope.

Lemma unitRoundoff_pos : 0 < unitRoundoff.
Proof. reflexivity. Qed.

Lemma leastError_pos : 0 < leastError.
Proof. reflexivity. Qed.

(** [binary_round_aux] on the magnitude of [q], with the sign of [q]: the
    number returned is within the rounding error of [q], unless it is the
    infinity of that sign. *)
Lemma binary_round_aux_signed_cases (sx : bool) mx ex lx N D (q : Q) :
  represents (shr_record_of_loc mx lx) N D ->
  (ex <= fexp prec emax (Zdigits2 mx + ex))%Z ->
  Qabs q == inject_Z N / inject_Z D * 2 ^ ex ->
  (if sx then q <= 0 else 0 <= q) ->
  (exists c,
     valueOf (binary_round_aux prec emax sx mx ex lx) = Some c /\
     Qabs (c - q) <= Qabs q * unitRoundoff + leastError) \/
  (binary_round_aux prec emax sx mx ex lx = S754_infinity sx /\
   2 ^ 1023 < Qabs q).
Proof.
  intros H He Eq Hs.
  destruct (binary_round_aux_cases sx mx ex lx N D H He)
    as [(m & e & Hm & Hv & Herr)|[Hinf Hgt]];
    [left|right; split; [exact Hinf|rewrite Eq; exact Hgt]].
  rewrite <- Eq in Herr. rewrite Hv.
  pose proof unitRoundoff_pos. pose proof leastError_pos.
  destruct (Z.eqb_spec m 0) as [->|Hne].
  - exists 0. split; [reflexivity|].
    setoid_replace (0 - q) with (- q) by ring. rewrite Qabs_opp.
    setoid_replace (inject_Z 0 * 2 ^ e - Qabs q) with (- Qabs q) in Herr by ring.
    rewrite Qabs_opp, (Qabs_pos (Qabs q) (Qabs_nonneg q)) in Herr. exact Herr.
  - eexists. split; [reflexivity|].
    destruct sx; cbn [cond_Zopp].
    + rewrite inject_Z_opp.
      setoid_replace (- inject_Z m * 2 ^ e - q)
        with (- (inject_Z m * 2 ^ e - - q)) by ring.
      rewrite Qabs_opp. rewrite (Qabs_neg q Hs) in Herr at 1. exact Herr.
    + rewrite (Qabs_pos q Hs) in Herr at 1. exact Herr.
Qed.

Lemma binary_round_aux_signed (sx : bool) mx ex lx N D (q : Q) :
  represents (shr_record_of_loc mx lx) N D ->
  (ex <= fexp prec emax (Zdigits2 mx + ex))%Z ->
  Qabs q == inject_Z N / inject_Z D * 2 ^ ex ->
  (if sx then q <= 0 else 0 <= q) ->
  Qabs q <= 2 ^ 1023 ->
  exists c,
    valueOf (binary_round_aux prec emax sx mx ex lx) = Some c /\
    Qabs (c - q) <= Qabs q * unitRoundoff + leastError.
Proof.
  intros H He Eq Hs Hq.
  destruct (binary_round_aux_signed_cases sx mx ex lx N D q H He Eq Hs)
    as [Hc|[_ Hgt]]; [exact Hc|].
  exfalso. apply (Qlt_not_le _ _ Hgt Hq).
Qed.

Lemma represents_exact p :
  represents (shr_record_of_loc (Z.pos p) loc_Exact) (Z.pos p) 1.
Proof.
  unfold represents. cbn [shr_record_of_loc shr_m shr_r shr_s].
  rewrite Z.div_1_r, Z.mod_1_r. repeat split; try lia.
Qed.

(** The magnitude and the sign of a finite number. *)
Lemma finite_value s m e :
  let a := inject_Z (cond_Zopp s (Z.pos m)) * 2 ^ e in
  Qabs a == inject_Z (Z.pos m) * 2 ^ e /\
  (if s then a < 0 else 0 < a).
Proof.
  pose proof (pow2_pos e) as He.
  assert (Hm : 0 < inject_Z (Z.pos m)) by reflexivity.
  assert (Hp : 0 < inject_Z (Z.pos m) * 2 ^ e)
    by (apply Qmult_lt_0_compat; assumption).
  destruct s; cbn [cond_Zopp].
  - change (inject_Z (- Z.pos m)) with (- inject_Z (Z.pos m)).
    setoid_replace (- inject_Z (Z.pos m) * 2 ^ e)
      with (- (inject_Z (Z.pos m) * 2 ^ e)) by ring.
    split; [|lra]. rewrite Qabs_opp. apply Qabs_pos. lra.
  - split; [|exact Hp]. apply Qabs_pos. lra.
Qed.

Lemma digits2_pos_lower p k :
  (2 ^ (k - 1) <= Z.pos p)%Z -> (k <= Z.pos (digits2_pos p))%Z.
Proof.
  intros H. pose proof (digits2_pos_bounds p) as [_ Hu].
  destruct (Z_le_gt_dec k (Z.pos (digits2_pos p))) as [|Hgt]; [assumption|].
  assert (2 ^ Z.pos (digits2_pos p) <= 2 ^ (k - 1))%Z
    by (apply Z.pow_le_mono_r; lia).
  lia.
Qed.

Lemma digits2_pos_mul mx my :
  (Z.pos (digits2_pos mx) + Z.pos (digits2_pos my) - 1
   <= Z.pos (digits2_pos (mx * my)))%Z.
Proof.
  apply digits2_pos_lower.
  pose proof (digits2_pos_bounds mx) as [Hx _].
  pose proof (digits2_pos_bounds my) as [Hy _].
  replace (Z.pos (digits2_pos mx) + Z.pos (digits2_pos my) - 1 - 1)%Z
    with ((Z.pos (digits2_pos mx) - 1) + (Z.pos (digits2_pos my) - 1))%Z by lia.
  rewrite Z.pow_add_r, Pos2Z.inj_mul by lia.
  apply Z.mul_le_mono_nonneg; try assumption; apply Z.pow_nonneg; lia.
Qed.

Lemma SFmul_cases X Y a b :
  valid_binary X = true -> valid_binary Y = true ->
  valueOf X = Some a -> valueOf Y = Some b ->
  (exists c,
     valueOf (SFmul prec emax X Y) = Some c /\
     Qabs (c - a * b) <= Qabs (a * b) * unitRoundoff + leastError) \/
  (SFmul prec emax X Y = S754_infinity (negb (Qle_bool 0 (a * b))) /\
   2 ^ 1023 < Qabs (a * b)).
Proof.
  intros VX VY HX HY.
  pose proof unitRoundoff_pos. pose proof leastError_pos.
  assert (Hzero : forall q, q == 0 -> Qabs (0 - q) <= Qabs q * unitRoundoff + leastError).
  { intros q E. rewrite E. change (Qabs (0 - 0)) with 0.
    change (Qabs 0) with 0. lra. }
  destruct X as [sx|sx| |sx mx ex]; try discriminate;
    destruct Y as [sy|sy| |sy my ey]; try discriminate;
    cbn [valueOf] in HX, HY; inversion HX; inversion HY; subst; cbn [SFmul];
    try (left; exists 0; split; [reflexivity|apply Hzero; ring]).
  cbn [valid_binary] in VX, VY.
  destruct (finite_value sx mx ex) as [Ha Hsa].
  destruct (finite_value sy my ey) as [Hb Hsb].
  set (a := inject_Z (cond_Zopp sx (Z.pos mx)) * 2 ^ ex) in *.
  set (b := inject_Z (cond_Zopp sy (Z.pos my)) * 2 ^ ey) in *.
  assert (Hsign : if xorb sx sy then a * b < 0 else 0 < a * b)
    by (destruct sx, sy; cbn [xorb]; nra).
  assert (Es : negb (Qle_bool 0 (a * b)) = xorb sx sy).
  { destruct (Qle_bool 0 (a * b)) eqn:E.
    - apply Qle_bool_iff in E. destruct (xorb sx sy); [lra|reflexivity].
    - destruct (xorb sx sy); [reflexivity|].
      assert (Qle_bool 0 (a * b) = true) by (apply Qle_bool_iff; lra).
      congruence. }
  rewrite Es.
  apply (binary_round_aux_signed_cases _ _ _ _ (Z.pos (mx * my)) 1).
  - apply represents_exact.
  - apply bounded_digits in VX. apply bounded_digits in VY.
    pose proof (digits2_pos_mul mx my). rewrite fexp_64. cbn [Zdigits2]. lia.
  - rewrite Qabs_Qmult, Ha, Hb, pow2_add, Pos2Z.inj_mul, inject_Z_mult.
    change (inject_Z 1) with 1. field.
  - destruct (xorb sx sy); lra.
Qed.

Lemma SFmul_error X Y a b :
  valid_binary X = true -> valid_binary Y = true ->
  valueOf X = Some a -> valueOf Y = Some b ->
  Qabs (a * b) <= 2 ^ 1023 ->
  exists c,
    valueOf (SFmul prec emax X Y) = Some c /\
    Qabs (c - a * b) <= Qabs (a * b) * unitRoundoff + leastError.
Proof.
  intros VX VY HX HY Hab.
  destruct (SFmul_cases X Y a b VX VY HX HY) as [Hc|[_ Hgt]]; [exact Hc|].
  exfalso. apply (Qlt_not_le _ _ Hgt Hab).
Qed.

Lemma represents_new_location q r my :
  (0 <= r < Z.pos my)%Z ->
  let N := (Z.pos my * q + r)%Z in
  (0 <= q)%Z ->
  represents (shr_record_of_loc q (new_location (Z.pos my) r)) N (Z.pos my).
Proof.
  intros Hr N Hq.
  assert (Hdiv : (N / Z.pos my = q)%Z)
    by (symmetry; apply (Z.div_unique_pos N (Z.pos my) q r); [lia|reflexivity]).
  assert (Hmod : (N mod Z.pos my = r)%Z)
    by (symmetry; apply (Z.mod_unique_pos N (Z.pos my) q r); [lia|reflexivity]).
  assert (Hm : forall l, shr_m (shr_record_of_loc q l) = q)
    by (intros [|[]]; reflexivity).
  unfold represents. rewrite Hdiv, Hmod, Hm.
  split; [lia|]. split; [unfold N; nia|]. split; [reflexivity|].
  unfold new_location, new_location_even, new_location_odd.
  destruct (Z.even (Z.pos my)) eqn:Heven.
  - destruct (Z.eqb_spec r 0) as [->|Hne]; cbn [shr_record_of_loc shr_r shr_s].
    + split; reflexivity.
    + destruct (Z.compare_spec (2 * r) (Z.pos my)) as [E|E|E];
        cbn [shr_record_of_loc shr_r shr_s negb orb];
        destruct (Z.leb_spec (Z.pos my) (2 * r));
        destruct (Z.eqb_spec (2 * r) (Z.pos my)); try lia; split; reflexivity.
  - assert (Hodd : (2 * r)%Z <> Z.pos my).
    { intros E. assert (Z.even (Z.pos my) = true)
        by (apply Z.even_spec; exists r; lia). congruence. }
    destruct (Z.eqb_spec r 0) as [->|Hne]; cbn [shr_record_of_loc shr_r shr_s].
    + split; reflexivity.
    + destruct (Z.compare_spec (2 * r + 1) (Z.pos my)) as [E|E|E];
        cbn [shr_record_of_loc shr_r shr_s negb orb];
        destruct (Z.leb_spec (Z.pos my) (2 * r));
        destruct (Z.eqb_spec (2 * r) (Z.pos my)); try lia; split; reflexivity.
Qed.

Lemma SFdiv_core_binary_represents mx ex my ey :
  exists q e l N,
    SFdiv_core_binary prec emax (Z.pos mx) ex (Z.pos my) ey = (q, e, l) /\
    represents (shr_record_of_loc q l) N (Z.pos my) /\
    (e <= fexp prec emax (Zdigits2 q + e))%Z /\
    inject_Z N / inject_Z (Z.pos my) * 2 ^ e
    == inject_Z (Z.pos mx) * 2 ^ ex / (inject_Z (Z.pos my) * 2 ^ ey).
Proof.
  unfold SFdiv_core_binary. cbn [Zdigits2].
  set (d1 := Z.pos (digits2_pos mx)). set (d2 := Z.pos (digits2_pos my)).
  set (e := Z.min (fexp prec emax (d1 + ex - (d2 + ey))) (ex - ey)).
  set (s := (ex - ey - e)%Z).
  assert (Hs : (0 <= s)%Z) by (unfold s, e; lia).
  assert (Es : s = (ex - ey - e)%Z) by reflexivity.
  clearbody s.
  set (m' := match s with
             | 0%Z => Z.pos mx
             | Z.pos _ => Z.shiftl (Z.pos mx) s
             | Z.neg _ => 0%Z
             end).
  assert (Hm' : m' = (Z.pos mx * 2 ^ s)%Z).
  { unfold m'. destruct s as [|p|p]; try lia.
    apply Z.shiftl_mul_pow2. lia. }
  pose proof (Z_div_mod m' (Z.pos my) ltac:(lia)) as Hdm.
  destruct (Z.div_eucl m' (Z.pos my)) as [q r]. destruct Hdm as [Hdm Hr].
  assert (Hp : (0 < 2 ^ s)%Z) by (apply Z.pow_pos_nonneg; lia).
  assert (Hq : (0 <= q)%Z) by nia.
  exists q, e, (new_location (Z.pos my) r), m'.
  split; [reflexivity|]. split.
  - rewrite Hdm. apply represents_new_location; assumption.
  - split.
    + rewrite fexp_64.
      destruct (Z_le_gt_dec e (-1074)) as [|He]; [lia|].
      assert (HF : (e <= d1 + ex - (d2 + ey) - 53)%Z)
        by (unfold e in *; rewrite fexp_64 in *; lia).
      pose proof (digits2_pos_bounds mx) as [Hx _].
      pose proof (digits2_pos_bounds my) as [_ Hy].
      fold d1 in Hx. fold d2 in Hy.
      assert (H52 : (2 ^ 52 <= q)%Z).
      { assert (Hle : (2 ^ 52 * Z.pos my <= m')%Z).
        { rewrite Hm'.
          assert (2 ^ (52 + d2) <= 2 ^ ((d1 - 1) + s))%Z
            by (apply Z.pow_le_mono_r; lia).
          rewrite !Z.pow_add_r in H by (unfold d1, d2; lia).
          assert (0 < 2 ^ 52)%Z by reflexivity. nia. }
        destruct (Z_le_gt_dec (2 ^ 52) q) as [|Hgt]; [assumption|exfalso].
        assert (q + 1 <= 2 ^ 52)%Z by lia. nia. }
      destruct q as [|qp|qp]; try (change (2 ^ 52)%Z with 4503599627370496%Z in H52; lia).
      cbn [Zdigits2]. pose proof (digits2_pos_lower qp 53 H52). lia.
    + rewrite Hm', inject_Z_mult, inject_Z_pow2 by exact Hs.
      assert (E : 2 ^ ex == 2 ^ s * 2 ^ e * 2 ^ ey).
      { rewrite <- !pow2_add.
        replace (s + e + ey)%Z with ex by lia. reflexivity. }
      rewrite E. field. split.
      * pose proof (pow2_pos ey). lra.
      * discriminate.
Qed.

Lemma SFdiv_cases X Y a b :
  valueOf X = Some a -> valueOf Y = Some b -> ~ b == 0 ->
  (exists c,
     valueOf (SFdiv prec emax X Y) = Some c /\
     Qabs (c - a / b) <= Qabs (a / b) * unitRoundoff + leastError) \/
  (SFdiv prec emax X Y = S754_infinity (negb (Qle_bool 0 (a / b))) /\
   2 ^ 1023 < Qabs (a / b)).
Proof.
  intros HX HY Hb0.
  pose proof unitRoundoff_pos. pose proof leastError_pos.
  destruct X as [sx|sx| |sx mx ex]; try discriminate;
    destruct Y as [sy|sy| |sy my ey]; try discriminate;
    cbn [valueOf] in HX, HY; inversion HX; inversion HY; subst; cbn [SFdiv];
    try (exfalso; apply Hb0; reflexivity).
  - left. exists 0. split; [reflexivity|].
    setoid_replace (0 / (inject_Z (cond_Zopp sy (Z.pos my)) * 2 ^ ey)) with 0
      by (unfold Qdiv; ring).
    change (Qabs (0 - 0)) with 0. change (Qabs 0) with 0. lra.
  - destruct (finite_value sx mx ex) as [Ha Hsa].
    destruct (finite_value sy my ey) as [Hb Hsb].
    set (a := inject_Z (cond_Zopp sx (Z.pos mx)) * 2 ^ ex) in *.
    set (b := inject_Z (cond_Zopp sy (Z.pos my)) * 2 ^ ey) in *.
    destruct (SFdiv_core_binary_represents mx ex my ey)
      as (q & e & l & N & -> & Hrep & He & Hval).
    assert (Hinv : if sy then / b < 0 else 0 < / b).
    { destruct sy.
      - setoid_replace (/ b) with (- / - b) by (field; exact Hb0).
        assert (0 < / - b) by (apply Qinv_lt_0_compat; lra). lra.
      - apply Qinv_lt_0_compat. exact Hsb. }
    assert (Hsign : if xorb sx sy then a / b < 0 else 0 < a / b)
      by (unfold Qdiv; destruct sx, sy; cbn [xorb]; nra).
    assert (Es : negb (Qle_bool 0 (a / b)) = xorb sx sy).
    { destruct (Qle_bool 0 (a / b)) eqn:E.
      - apply Qle_bool_iff in E. destruct (xorb sx sy); [lra|reflexivity].
      - destruct (xorb sx sy); [reflexivity|].
        assert (Qle_bool 0 (a / b) = true) by (apply Qle_bool_iff; lra).
        congruence. }
    rewrite Es.
    apply (binary_round_aux_signed_cases _ _ _ _ N (Z.pos my)); auto.
    + unfold Qdiv at 1. rewrite Qabs_Qmult, Qabs_Qinv, Ha, Hb, Hval.
      reflexivity.
    + destruct (xorb sx sy); lra.
Qed.

Lemma SFdiv_error X Y a b :
  valueOf X = Some a -> valueOf Y = Some b -> ~ b == 0 ->
  Qabs (a / b) <= 2 ^ 1023 ->
  exists c,
    valueOf (SFdiv prec emax X Y) = Some c /\
    Qabs (c - a / b) <= Qabs (a / b) * unitRoundoff + leastError.
Proof.
  intros HX HY Hb0 Hab.
  destruct (SFdiv_cases X Y a b HX HY Hb0) as [Hc|[_ Hgt]]; [exact Hc|].
  exfalso. apply (Qlt_not_le _ _ Hgt Hab).
Qed.

Lemma digits2_pos_shift m mz k :
  (0 <= k)%Z -> Z.pos mz = (Z.pos m * 2 ^ k)%Z ->
  Z.pos (digits2_pos mz) = (Z.pos (digits2_pos m) + k)%Z.
Proof.
  intros Hk E. apply digits2_pos_unique. rewrite E.
  pose proof (digits2_pos_bounds m) as [Hl Hu].
  assert (Hp : (0 < 2 ^ k)%Z) by (apply Z.pow_pos_nonneg; lia).
  replace (Z.pos (digits2_pos m) + k - 1)%Z
    with ((Z.pos (digits2_pos m) - 1) + k)%Z by lia.
  rewrite !Z.pow_add_r by lia. split; nia.
Qed.

Lemma binary_round_error (s : bool) m e (q : Q) :
  Qabs q == inject_Z (Z.pos m) * 2 ^ e ->
  (if s then q <= 0 else 0 <= q) ->
  Qabs q <= 2 ^ 1023 ->
  exists c,
    valueOf (binary_round prec emax s m e) = Some c /\
    Qabs (c - q) <= Qabs q * unitRoundoff + leastError.
Proof.
  intros Eq Hs Hq. unfold binary_round.
  set (F := fexp prec emax (Z.pos (digits2_pos m) + e)).
  destruct (Z_le_gt_dec F e) as [HF|HF].
  - pose proof (shl_align_value m e F HF) as Hv.
    pose proof (shl_align_exponent m e F HF) as Hx.
    destruct (shl_align m e F) as [mz ez]. cbn [fst snd] in Hv, Hx. subst ez.
    pose proof (digits2_pos_shift m mz (e - F) ltac:(lia) Hv) as Hd.
    apply (binary_round_aux_signed _ _ _ _ (Z.pos mz) 1); auto.
    + apply represents_exact.
    + cbn [Zdigits2]. rewrite Hd.
      replace (Z.pos (digits2_pos m) + (e - F) + F)%Z
        with (Z.pos (digits2_pos m) + e)%Z by lia.
      fold F. lia.
    + rewrite Eq, Hv, inject_Z_mult, inject_Z_pow2 by lia.
      change (inject_Z 1) with 1.
      replace e with ((e - F) + F)%Z at 1 by lia. rewrite pow2_add. field.
  - assert (E : shl_align m e F = (m, e)).
    { unfold shl_align. destruct (F - e)%Z eqn:E; try lia; reflexivity. }
    rewrite E.
    apply (binary_round_aux_signed _ _ _ _ (Z.pos m) 1); auto.
    + apply represents_exact.
    + cbn [Zdigits2]. fold F. lia.
    + rewrite Eq. change (inject_Z 1) with 1. field.
Qed.

Lemma binary_normalize_error M e :
  Qabs (inject_Z M * 2 ^ e) <= 2 ^ 1023 ->
  exists c,
    valueOf (binary_normalize prec emax M e false) = Some c /\
    Qabs (c - inject_Z M * 2 ^ e)
    <= Qabs (inject_Z M * 2 ^ e) * unitRoundoff + leastError.
Proof.
  intros Hq. pose proof unitRoundoff_pos. pose proof leastError_pos.
  destruct M as [|m|m]; cbn [binary_normalize].
  - exists 0. split; [reflexivity|].
    setoid_replace (inject_Z 0 * 2 ^ e) with 0 by ring.
    change (Qabs (0 - 0)) with 0. change (Qabs 0) with 0. lra.
  - destruct (finite_value false m e) as [Ha Hsa]. cbn [cond_Zopp] in Ha, Hsa.
    apply binary_round_error; auto. lra.
  - destruct (finite_value true m e) as [Ha Hsa]. cbn [cond_Zopp] in Ha, Hsa.
    apply binary_round_error; auto. change (Z.neg m) with (- Z.pos m)%Z. lra.
Qed.

Lemma inject_Z_cond_Zopp s k :
  inject_Z (cond_Zopp s k) = if s then - inject_Z k else inject_Z k.
Proof. destruct s; [apply inject_Z_opp|reflexivity]. Qed.

(** The sum of the two aligned mantissas is the exact sum. *)
Lemma aligned_value sx mx ex ez :
  (ez <= ex)%Z ->
  inject_Z (cond_Zopp sx (Z.pos (fst (shl_align mx ex ez)))) * 2 ^ ez
  == inject_Z (cond_Zopp sx (Z.pos mx)) * 2 ^ ex.
Proof.
  intros H. rewrite (shl_align_value mx ex ez H), !inject_Z_cond_Zopp.
  assert (E : 2 ^ ex == inject_Z (2 ^ (ex - ez)) * 2 ^ ez).
  { rewrite inject_Z_pow2, <- pow2_add by lia.
    replace (ex - ez + ez)%Z with ex by lia. reflexivity. }
  rewrite inject_Z_mult, E. destruct sx; ring.
Qed.

Lemma SFadd_error X Y a b :
  valueOf X = Some a -> valueOf Y = Some b ->
  Qabs (a + b) <= 2 ^ 1023 ->
  exists c,
    valueOf (SFadd prec emax X Y) = Some c /\
    Qabs (c - (a + b)) <= Qabs (a + b) * unitRoundoff + leastError.
Proof.
  intros HX HY Hab.
  pose proof unitRoundoff_pos. pose proof leastError_pos.
  assert (Hexact : forall c q : Q,
             c == q -> Qabs (c - q) <= Qabs q * unitRoundoff + leastError).
  { intros c q E. setoid_replace (c - q) with 0 by (rewrite E; ring).
    change (Qabs 0) with 0.
    assert (0 <= Qabs q * unitRoundoff)
      by (apply Qmult_le_0_compat; [apply Qabs_nonneg|lra]).
    lra. }
  destruct X as [sx|sx| |sx mx ex]; try discriminate;
    destruct Y as [sy|sy| |sy my ey]; try discriminate;
    cbn [valueOf] in HX, HY; inversion HX; inversion HY; subst; cbn [SFadd].
  - exists 0. split; [destruct sx, sy; reflexivity|]. apply Hexact. ring.
  - eexists. split; [reflexivity|]. apply Hexact. ring.
  - eexists. split; [reflexivity|]. apply Hexact. ring.
  - set (ez := Z.min ex ey).
    set (M := (cond_Zopp sx (Z.pos (fst (shl_align mx ex ez))) +
               cond_Zopp sy (Z.pos (fst (shl_align my ey ez))))%Z).
    assert (E : inject_Z M * 2 ^ ez
                == inject_Z (cond_Zopp sx (Z.pos mx)) * 2 ^ ex +
                   inject_Z (cond_Zopp sy (Z.pos my)) * 2 ^ ey).
    { unfold M. rewrite inject_Z_plus, Qmult_plus_distr_l.
      rewrite !aligned_value by (unfold ez; lia). reflexivity. }
    destruct (binary_normalize_error M ez) as (c & Hc & Herr);
      [rewrite E; exact Hab|].
    exists c. split; [exact Hc|]. rewrite <- E. exact Herr.
Qed.

Lemma SFsub_error X Y a b :
  valueOf X = Some a -> valueOf Y = Some b ->
  Qabs (a - b) <= 2 ^ 1023 ->
  exists c,
    valueOf (SFsub prec emax X Y) = Some c /\
    Qabs (c - (a - b)) <= Qabs (a - b) * unitRoundoff + leastError.
Proof.
  intros HX HY Hab.
  pose proof unitRoundoff_pos. pose proof leastError_pos.
  assert (Hexact : forall c q : Q,
             c == q -> Qabs (c - q) <= Qabs q * unitRoundoff + leastError).
  { intros c q E. setoid_replace (c - q) with 0 by (rewrite E; ring).
    change (Qabs 0) with 0.
    assert (0 <= Qabs q * unitRoundoff)
      by (apply Qmult_le_0_compat; [apply Qabs_nonneg|lra]).
    lra. }
  destruct X as [sx|sx| |sx mx ex]; try discriminate;
    destruct Y as [sy|sy| |sy my ey]; try discriminate;
    cbn [valueOf] in HX, HY; inversion HX; inversion HY; subst; cbn [SFsub].
  - exists 0. split; [destruct sx, sy; reflexivity|]. apply Hexact. ring.
  - eexists. split; [reflexivity|]. apply Hexact.
    rewrite !inject_Z_cond_Zopp. destruct sy; cbn [negb]; ring.
  - eexists. split; [reflexivity|]. apply Hexact. ring.
  - set (ez := Z.min ex ey).
    set (M := (cond_Zopp sx (Z.pos (fst (shl_align mx ex ez))) -
               cond_Zopp sy (Z.pos (fst (shl_align my ey ez))))%Z).
    assert (E : inject_Z M * 2 ^ ez
                == inject_Z (cond_Zopp sx (Z.pos mx)) * 2 ^ ex -
                   inject_Z (cond_Zopp sy (Z.pos my)) * 2 ^ ey).
    { unfold M, Z.sub. rewrite inject_Z_plus, inject_Z_opp.
      setoid_replace
        ((inject_Z (cond_Zopp sx (Z.pos (fst (shl_align mx ex ez)))) +
          - inject_Z (cond_Zopp sy (Z.pos (fst (shl_align my ey ez))))) * 2 ^ ez)
        with (inject_Z (cond_Zopp sx (Z.pos (fst (shl_align mx ex ez)))) * 2 ^ ez
              - inject_Z (cond_Zopp sy (Z.pos (fst (shl_align my ey ez))))
                * 2 ^ ez) by ring.
      rewrite !aligned_value by (unfold ez; lia). reflexivity. }
    destruct (binary_normalize_error M ez) as (c & Hc & Herr);
      [rewrite E; exact Hab|].
    exists c. split; [exact Hc|]. rewrite <- E. exact Herr.
Qed.

End Operations.

(** ** The operations and comparisons on numbers *)

Section Numbers.

#[local] Open Scope Q_scope.

Lemma mul_cases (x y : number) a b :
  exactValue x = Some a -> exactValue y = Some b ->
  (exists c,
     exactValue (x * y)%float = Some c /\
     Qabs (c - a * b) <= Qabs (a * b) * unitRoundoff + leastError) \/
  ((x * y)%float = (if Qle_bool 0 (a * b) then infinity else neg_infinity) /\
   2 ^ 1023 < Qabs (a * b)).
Proof.
  intros Hx Hy. unfold exactValue. rewrite FloatAxioms.mul_spec.
  destruct (SFmul_cases (Prim2SF x) (Prim2SF y) a b
              (Prim2SF_valid x) (Prim2SF_valid y) Hx Hy) as [H|[H Hgt]];
    [left; exact H|right].
  split; [|exact Hgt]. apply Prim2SF_inj. rewrite FloatAxioms.mul_spec.
  unfold SF64mul. rewrite H. destruct (Qle_bool 0 (a * b)); reflexivity.
Qed.

Lemma mul_error (x y : number) a b :
  exactValue x = Some a -> exactValue y = Some b ->
  Qabs (a * b) <= 2 ^ 1023 ->
  exists c,
    exactValue (x * y)%float = Some c /\
    Qabs (c - a * b) <= Qabs (a * b) * unitRoundoff + leastError.
Proof.
  intros Hx Hy Hab.
  destruct (mul_cases x y a b Hx Hy) as [H|[_ Hgt]]; [exact H|].
  exfalso. apply (Qlt_not_le _ _ Hgt Hab).
Qed.

Lemma div_cases (x y : number) a b :
  exactValue x = Some a -> exactValue y = Some b -> ~ b == 0 ->
  (exists c,
     exactValue (x / y)%float = Some c /\
     Qabs (c - a / b) <= Qabs (a / b) * unitRoundoff + leastError) \/
  ((x / y)%float = (if Qle_bool 0 (a / b) then infinity else neg_infinity) /\
   2 ^ 1023 < Qabs (a / b)).
Proof.
  intros Hx Hy Hb. unfold exactValue. rewrite FloatAxioms.div_spec.
  destruct (SFdiv_cases (Prim2SF x) (Prim2SF y) a b Hx Hy Hb) as [H|[H Hgt]];
    [left; exact H|right].
  split; [|exact Hgt]. apply Prim2SF_inj. rewrite FloatAxioms.div_spec.
  unfold SF64div. rewrite H. destruct (Qle_bool 0 (a / b)); reflexivity.
Qed.

Lemma div_error (x y : number) a b :
  exactValue x = Some a -> exactValue y = Some b -> ~ b == 0 ->
  Qabs (a / b) <= 2 ^ 1023 ->
  exists c,
    exactValue (x / y)%float = Some c /\
    Qabs (c - a / b) <= Qabs (a / b) * unitRoundoff + leastError.
Proof.
  intros Hx Hy Hb Hab.
  destruct (div_cases x y a b Hx Hy Hb) as [H|[_ Hgt]]; [exact H|].
  exfalso. apply (Qlt_not_le _ _ Hgt Hab).
Qed.

Lemma add_error (x y : number) a b :
  exactValue x = Some a -> exactValue y = Some b ->
  Qabs (a + b) <= 2 ^ 1023 ->
  exists c,
    exactValue (x + y)%float = Some c /\
    Qabs (c - (a + b)) <= Qabs (a + b) * unitRoundoff + leastError.
Proof.
  intros Hx Hy Hab. unfold exactValue. rewrite FloatAxioms.add_spec.
  apply SFadd_error; assumption.
Qed.

Lemma sub_error (x y : number) a b :
  exactValue x = Some a -> exactValue y = Some b ->
  Qabs (a - b) <= 2 ^ 1023 ->
  exists c,
    exactValue (x - y)%float = Some c /\
    Qabs (c - (a - b)) <= Qabs (a - b) * unitRoundoff + leastError.
Proof.
  intros Hx Hy Hab. unfold exactValue. rewrite FloatAxioms.sub_spec.
  apply SFsub_error; assumption.
Qed.

(** ** Comparisons *)

Lemma magnitude_compare m1 e1 m2 e2 :
  bounded prec emax m1 e1 = true -> bounded prec emax m2 e2 = true ->
  match (e1 ?= e2)%Z with
  | Lt => inject_Z (Z.pos m1) * 2 ^ e1 < inject_Z (Z.pos m2) * 2 ^ e2
  | Gt => inject_Z (Z.pos m2) * 2 ^ e2 < inject_Z (Z.pos m1) * 2 ^ e1
  | Eq =>
      match (m1 ?= m2)%positive with
      | Lt => inject_Z (Z.pos m1) * 2 ^ e1 < inject_Z (Z.pos m2) * 2 ^ e2
      | Gt => inject_Z (Z.pos m2) * 2 ^ e2 < inject_Z (Z.pos m1) * 2 ^ e1
      | Eq => inject_Z (Z.pos m1) * 2 ^ e1 == inject_Z (Z.pos m2) * 2 ^ e2
      end
  end.
Proof.
  intros V1 V2.
  assert (Hlt : forall m e m' e',
             bounded prec emax m e = true -> bounded prec emax m' e' = true ->
             (e' < e)%Z ->
             inject_Z (Z.pos m') * 2 ^ e' < inject_Z (Z.pos m) * 2 ^ e).
  { intros m e m' e' V V' He.
    pose proof (bounded_exponent_lt m e m' e' V V' He) as H.
    rewrite Zlt_Qlt, inject_Z_mult in H. rewrite inject_Z_pow2 in H by lia.
    assert (E : 2 ^ e == 2 ^ (e - e') * 2 ^ e')
      by (rewrite <- pow2_add; replace (e - e' + e')%Z with e by lia;
          reflexivity).
    rewrite E, Qmult_assoc.
    apply Qmult_lt_compat_r; [apply pow2_pos|exact H]. }
  destruct (Z.compare_spec e1 e2) as [->|He|He]; auto.
  pose proof (pow2_pos e2) as Hp.
  destruct (Pos.compare_spec m1 m2) as [->|Hm|Hm].
  - reflexivity.
  - apply Qmult_lt_compat_r; [exact Hp|]. rewrite <- Zlt_Qlt. lia.
  - apply Qmult_lt_compat_r; [exact Hp|]. rewrite <- Zlt_Qlt. lia.
Qed.

Lemma Qcompare_of (c : comparison) (a b : Q) :
  match c with Lt => a < b | Eq => a == b | Gt => b < a end ->
  c = (a ?= b).
Proof.
  destruct c; intros H; symmetry.
  - apply Qeq_alt, H.
  - apply Qlt_alt, H.
  - apply Qgt_alt, H.
Qed.

(** Finite numbers compare as the rationals that they are. *)
Lemma SFcompare_value X Y a b :
  valid_binary X = true -> valid_binary Y = true ->
  valueOf X = Some a -> valueOf Y = Some b ->
  SFcompare X Y = Some (a ?= b).
Proof.
  intros VX VY HX HY.
  destruct X as [sx|sx| |sx mx ex]; try discriminate;
    destruct Y as [sy|sy| |sy my ey]; try discriminate;
    cbn [valueOf] in HX, HY; inversion HX; inversion HY; subst;
    cbn [SFcompare]; f_equal; apply Qcompare_of.
  - destruct (finite_value sy my ey) as [_ H]. destruct sy; exact H.
  - destruct (finite_value sx mx ex) as [_ H]. destruct sx; exact H.
  - cbn [valid_binary] in VX, VY.
    pose proof (magnitude_compare mx ex my ey VX VY) as Hc.
    destruct (finite_value sx mx ex) as [_ Hx].
    destruct (finite_value sy my ey) as [_ Hy].
    change (Pos.compare_cont Eq mx my) with (mx ?= my)%positive.
    assert (Hmx : 0 < inject_Z (Z.pos mx) * 2 ^ ex)
      by (apply Qmult_lt_0_compat; [reflexivity|apply pow2_pos]).
    assert (Hmy : 0 < inject_Z (Z.pos my) * 2 ^ ey)
      by (apply Qmult_lt_0_compat; [reflexivity|apply pow2_pos]).
    destruct sx, sy; cbn [cond_Zopp] in *; try lra.
    + change (inject_Z (- Z.pos mx)) with (- inject_Z (Z.pos mx)).
      change (inject_Z (- Z.pos my)) with (- inject_Z (Z.pos my)).
      destruct (ex ?= ey)%Z; [destruct (mx ?= my)%positive|..];
        cbn [CompOpp]; lra.
    + destruct (ex ?= ey)%Z; [destruct (mx ?= my)%positive|..]; lra.
Qed.

Lemma ltb_value (x y : number) a b :
  exactValue x = Some a -> exactValue y = Some b ->
  (x <? y)%float = true <-> a < b.
Proof.
  intros Hx Hy. rewrite FloatAxioms.ltb_spec. unfold SFltb.
  rewrite (SFcompare_value _ _ a b (Prim2SF_valid x) (Prim2SF_valid y) Hx Hy).
  rewrite Qlt_alt. destruct (a ?= b); split; congruence.
Qed.

Lemma leb_value (x y : number) a b :
  exactValue x = Some a -> exactValue y = Some b ->
  (x <=? y)%float = true <-> a <= b.
Proof.
  intros Hx Hy. rewrite FloatAxioms.leb_spec. unfold SFleb.
  rewrite (SFcompare_value _ _ a b (Prim2SF_valid x) (Prim2SF_valid y) Hx Hy).
  rewrite Qle_alt. destruct (a ?= b); split; congruence.
Qed.

Lemma eqb_value (x y : number) a b :
  exactValue x = Some a -> exactValue y = Some b ->
  (x =? y)%float = true <-> a == b.
Proof.
  intros Hx Hy. rewrite FloatAxioms.eqb_spec. unfold SFeqb.
  rewrite (SFcompare_value _ _ a b (Prim2SF_valid x) (Prim2SF_valid y) Hx Hy).
  rewrite Qeq_alt. destruct (a ?= b); split; congruence.
Qed.

(** A number is finite exactly when it has a value. *)
Lemma is_finite_exactValue (x : number) :
  is_finite x = true <-> exists a, exactValue x = Some a.
Proof.
  unfold is_finite, is_infinity, exactValue.
  rewrite is_nan_signOf, FloatAxioms.eqb_spec, FloatAxioms.abs_spec.
  change (Prim2SF infinity) with (S754_infinity false).
  destruct (Prim2SF x) as [s|s| |s m e]; cbn [signOf SFabs valueOf];
    unfold SFeqb; cbn [SFcompare]; split; intros H;
    try discriminate; try (destruct H; discriminate); eauto.
Qed.

End Numbers.

(** ** The built-ins *)

Section BuiltIns.

#[local] Open Scope Q_scope.

Lemma exactValue_not_nan (x : number) q : exactValue x = Some q -> is_nan x = false.
Proof.
  unfold exactValue. rewrite is_nan_signOf.
  destruct (Prim2SF x); cbn [valueOf signOf]; intros H;
    try discriminate; reflexivity.
Qed.

(** A finite number is below [2 ^ 1024] in magnitude. *)
Lemma exactValue_bound (x : number) q : exactValue x = Some q -> Qabs q < 2 ^ 1024.
Proof.
  unfold exactValue. pose proof (Prim2SF_valid x) as V.
  destruct (Prim2SF x) as [s|s| |s m e]; cbn [valueOf]; intros H;
    inversion H; subst; [reflexivity|].
  destruct (finite_value s m e) as [-> _]. cbn [valid_binary] in V.
  pose proof (bounded_digits m e V) as (_ & Hd & _).
  unfold bounded in V. apply andb_prop in V. destruct V as [_ He].
  apply Z.leb_le in He. change (emax - prec)%Z with 971%Z in He.
  pose proof (digits2_pos_bounds m) as [_ Hm].
  assert (Hm' : (Z.pos m < 2 ^ 53)%Z).
  { eapply Z.lt_le_trans; [exact Hm|]. apply Z.pow_le_mono_r; lia. }
  rewrite Zlt_Qlt in Hm'. change (inject_Z (2 ^ 53)) with (2 ^ 53) in Hm'.
  assert (H971 : 2 ^ e <= 2 ^ 971) by (apply pow2_le; exact He).
  pose proof (pow2_pos e).
  assert (E : 2 ^ 1024 == 2 ^ 53 * 2 ^ 971) by reflexivity.
  rewrite E.
  apply Qlt_le_trans with (2 ^ 53 * 2 ^ e).
  - apply Qmult_lt_compat_r; assumption.
  - apply Qmult_le_l; [reflexivity|exact H971].
Qed.

Lemma exactValue_opp (x : number) a :
  exactValue x = Some a ->
  exists c, exactValue (- x)%float = Some c /\ c == - a.
Proof.
  unfold exactValue. rewrite FloatAxioms.opp_spec.
  destruct (Prim2SF x) as [s|s| |s m e]; cbn [valueOf SFopp]; intros H;
    inversion H; subst.
  - exists 0. split; reflexivity.
  - eexists. split; [reflexivity|].
    rewrite !inject_Z_cond_Zopp. destruct s; cbn [negb]; ring.
Qed.

(** [Z2F] is exact below [2 ^ 53]. *)
Lemma exactValue_Z2F k :
  (0 <= k < 2 ^ 53)%Z ->
  exists c, exactValue (Z2F k) = Some c /\ c == inject_Z k.
Proof.
  intros Hk. unfold exactValue.
  rewrite Prim2SF_Z2F by (split; [lia|]; eapply Z.lt_trans; [apply Hk|reflexivity]).
  destruct k as [|p|p]; try lia.
  - exists 0. split; reflexivity.
  - destruct (binary_normalize_whole p (digits2_pos_53 p ltac:(lia)))
      as (mz & -> & Hmz).
    eexists. split; [reflexivity|]. cbn [cond_Zopp].
    pose proof (digits2_pos_53 p ltac:(lia)) as Hd.
    rewrite Hmz, inject_Z_mult, inject_Z_pow2 by lia.
    rewrite <- Qmult_assoc, <- pow2_add.
    replace (53 - Z.pos (digits2_pos p) + (Z.pos (digits2_pos p) - 53))%Z
      with 0%Z by lia.
    change (2 ^ 0) with 1. ring.
Qed.

(** [k] is within a half of [m / 2 ^ t] when [2 ^ t * k] is within
    [2 ^ (t - 1)] of [m]. *)
Lemma nearest_whole (k m t : Z) :
  (0 < t)%Z ->
  (2 ^ t * k <= m + 2 ^ (t - 1))%Z -> (m <= 2 ^ t * k + 2 ^ (t - 1))%Z ->
  Qabs (inject_Z k - inject_Z m * 2 ^ (- t)) <= 1 # 2.
Proof.
  intros Ht H1 H2.
  assert (E2 : (2 ^ t = 2 * 2 ^ (t - 1))%Z)
    by (rewrite <- Z.pow_succ_r by lia; f_equal; lia).
  rewrite E2 in H1, H2.
  assert (Hh : (0 < 2 ^ (t - 1))%Z) by (apply Z.pow_pos_nonneg; lia).
  set (h := (2 ^ (t - 1))%Z) in *.
  rewrite Zle_Qle in H1, H2. rewrite Zlt_Qlt in Hh.
  rewrite ?inject_Z_plus, ?inject_Z_mult in H1, H2.
  change (inject_Z 2) with 2 in H1, H2. change (inject_Z 0) with 0 in Hh.
  assert (E : 2 ^ (- t) * (2 * inject_Z h) == 1).
  { unfold h. rewrite inject_Z_pow2 by lia.
    setoid_replace (2 * 2 ^ (t - 1)) with (2 ^ t)
      by (replace t with ((t - 1) + 1)%Z at 2 by lia; rewrite pow2_succ;
          reflexivity).
    rewrite <- pow2_add. replace (- t + t)%Z with 0%Z by lia. reflexivity. }
  set (H := inject_Z h) in *. set (K := inject_Z k) in *.
  set (M := inject_Z m) in *. set (P := 2 ^ (- t)) in *.
  assert (HP : 0 < P) by apply pow2_pos.
  clearbody H K M P. apply Qabs_Qle_condition.
  assert (E' : (K - M * P) * (2 * H) == 2 * H * K - M)
    by (setoid_replace ((K - M * P) * (2 * H))
          with (2 * H * K - M * (P * (2 * H))) by ring; rewrite E; ring).
  split.
  - apply (Qmult_le_r _ _ (2 * H)); [lra|]. rewrite E'. lra.
  - apply (Qmult_le_r _ _ (2 * H)); [lra|]. rewrite E'. lra.
Qed.

Lemma exactValue_finite (x : number) s m e :
  Prim2SF x = S754_finite s m e ->
  exactValue x = Some (inject_Z (cond_Zopp s (Z.pos m)) * 2 ^ e) /\
  (Z.pos m < 2 ^ 53)%Z.
Proof.
  intros E. unfold exactValue. rewrite E. split; [reflexivity|].
  pose proof (Prim2SF_valid x) as V. rewrite E in V. cbn [valid_binary] in V.
  pose proof (bounded_digits m e V) as (_ & Hd & _).
  pose proof (digits2_pos_bounds m) as [_ Hm].
  eapply Z.lt_le_trans; [exact Hm|]. apply Z.pow_le_mono_r; lia.
Qed.

(** [Math.round] returns a whole number within a half of its argument. *)
Lemma Math_round_value (x : number) q :
  exactValue x = Some q ->
  exists k c,
    exactValue (Math_round x) = Some c /\ c == inject_Z k /\
    Qabs (inject_Z k - q) <= 1 # 2.
Proof.
  intros Hx. unfold Math_round.
  destruct (Prim2SF x) as [s|s| |s m e] eqn:E;
    try (unfold exactValue in Hx; rewrite E in Hx; discriminate Hx).
  - unfold exactValue in Hx. rewrite E in Hx. inversion Hx; subst q.
    exists 0%Z, 0. unfold exactValue. rewrite E. repeat split; discriminate.
  - destruct (exactValue_finite x s m e E) as [Hv Hm].
    rewrite Hv in Hx. inversion Hx; subst q. clear Hx.
    destruct (Z.leb_spec 0 e) as [He|He].
    + exists (cond_Zopp s (Z.pos m) * 2 ^ e)%Z. eexists.
      split; [exact Hv|].
      rewrite inject_Z_mult, inject_Z_pow2 by exact He.
      split; [reflexivity|].
      setoid_replace (inject_Z (cond_Zopp s (Z.pos m)) * 2 ^ e -
                      inject_Z (cond_Zopp s (Z.pos m)) * 2 ^ e) with 0 by ring.
      discriminate.
    + set (t := (- e)%Z). assert (Ht : (0 < t)%Z) by (unfold t; lia).
      replace e with (- t)%Z by (unfold t; lia).
      replace (- - t - 1)%Z with (t - 1)%Z by lia.
      replace (- - t)%Z with t by lia.
      assert (Hp : (0 < 2 ^ t)%Z) by (apply Z.pow_pos_nonneg; lia).
      assert (Hh : (0 < 2 ^ (t - 1))%Z) by (apply Z.pow_pos_nonneg; lia).
      assert (E2 : (2 ^ t = 2 * 2 ^ (t - 1))%Z)
        by (rewrite <- Z.pow_succ_r by lia; f_equal; lia).
      destruct s; cbn [cond_Zopp].
      * set (k := (Z.shiftr (Z.pos m + 2 ^ (t - 1) - 1) t)).
        assert (Ek : k = ((Z.pos m + 2 ^ (t - 1) - 1) / 2 ^ t)%Z)
          by (apply Z.shiftr_div_pow2; lia).
        pose proof (Z.div_mod (Z.pos m + 2 ^ (t - 1) - 1) (2 ^ t) ltac:(lia))
          as Hdm.
        pose proof (Z.mod_pos_bound (Z.pos m + 2 ^ (t - 1) - 1) (2 ^ t) Hp)
          as Hb.
        rewrite <- Ek in Hdm.
        assert (Hk : (0 <= k < 2 ^ 53)%Z).
        { split; [rewrite Ek; apply Z.div_pos; lia|].
          rewrite Ek. apply Z.div_lt_upper_bound; [lia|]. nia. }
        destruct (exactValue_Z2F k Hk) as (c & Hc & Ec).
        destruct (exactValue_opp (Z2F k) c Hc) as (c' & Hc' & Ec').
        exists (- k)%Z, c'. split; [exact Hc'|].
        split; [rewrite Ec', Ec, inject_Z_opp; reflexivity|].
        change (inject_Z (- Z.pos m)) with (- inject_Z (Z.pos m)).
        rewrite inject_Z_opp.
        setoid_replace (- inject_Z k - - inject_Z (Z.pos m) * 2 ^ (- t))
          with (- (inject_Z k - inject_Z (Z.pos m) * 2 ^ (- t))) by ring.
        rewrite Qabs_opp. apply nearest_whole; lia.
      * set (k := (Z.shiftr (Z.pos m + 2 ^ (t - 1)) t)).
        assert (Ek : k = ((Z.pos m + 2 ^ (t - 1)) / 2 ^ t)%Z)
          by (apply Z.shiftr_div_pow2; lia).
        pose proof (Z.div_mod (Z.pos m + 2 ^ (t - 1)) (2 ^ t) ltac:(lia))
          as Hdm.
        pose proof (Z.mod_pos_bound (Z.pos m + 2 ^ (t - 1)) (2 ^ t) Hp) as Hb.
        rewrite <- Ek in Hdm.
        assert (Hk : (0 <= k < 2 ^ 53)%Z).
        { split; [rewrite Ek; apply Z.div_pos; lia|].
          rewrite Ek. apply Z.div_lt_upper_bound; [lia|]. nia. }
        destruct (exactValue_Z2F k Hk) as (c & Hc & Ec).
        exists k, c. split; [exact Hc|]. split; [exact Ec|].
        apply nearest_whole; lia.
Qed.

End BuiltIns.

(** ** [roundToCents] *)

Ltac qabs :=
  repeat match goal with
         | H : (Qabs _ <= _)%Q |- _ => apply Qabs_Qle_condition in H
         | |- (Qabs _ <= _)%Q => apply Qabs_Qle_condition
         end.

Section RoundToCents.

#[local] Open Scope Q_scope.

Lemma error_bound (c p B : Q) :
  Qabs (c - p) <= Qabs p * unitRoundoff + leastError -> Qabs p <= B ->
  Qabs (c - p) <= B * unitRoundoff + leastError.
Proof.
  intros H Hp. eapply Qle_trans; [exact H|].
  apply Qplus_le_l. apply Qmult_le_compat_r; [exact Hp|discriminate].
Qed.

Lemma exactValue_100 : exists c, exactValue 100 = Some c /\ c == 100.
Proof. eexists. split; [reflexivity|]. vm_compute. reflexivity. Qed.

Lemma Qle_bool_mult_100 (q c : Q) :
  c == 100 -> Qle_bool 0 (q * c) = Qle_bool 0 q.
Proof.
  intros E. destruct (Qle_bool 0 q) eqn:H.
  - apply Qle_bool_iff in H. apply Qle_bool_iff. rewrite E. lra.
  - destruct (Qle_bool 0 (q * c)) eqn:H'; [|reflexivity].
    apply Qle_bool_iff in H'. rewrite E in H'.
    assert (Qle_bool 0 q = true) by (apply Qle_bool_iff; lra). congruence.
Qed.

(** [roundToCents] of a finite number: the number nearest [k / 100] for a
    whole [k] within a half of the hundredfold, unless the hundredfold
    overflows. *)
Lemma roundToCents_cases (x : number) q :
  exactValue x = Some q ->
  (exists k c,
     exactValue (roundToCents x) = Some c /\
     Qabs (inject_Z k - 100 * q)
     <= (1 # 2) + Qabs (100 * q) * unitRoundoff + leastError /\
     Qabs (c - inject_Z k * (1 # 100))
     <= Qabs (inject_Z k * (1 # 100)) * unitRoundoff + leastError) \/
  (roundToCents x = (if Qle_bool 0 q then infinity else neg_infinity) /\
   2 ^ 1023 < Qabs (100 * q)).
Proof.
  intros Hx. cbn [roundToCents]. rewrite (exactValue_not_nan x q Hx).
  destruct exactValue_100 as (c100 & H100 & E100).
  destruct (mul_cases x 100 q c100 Hx H100) as [(cy & Hy & Ey)|[Hinf Hgt]].
  - left.
    destruct (Math_round_value (x * 100)%float cy Hy) as (k & c1 & Hc1 & Ec1 & Ek).
    assert (Hcy : Qabs cy < 2 ^ 1024) by (apply (exactValue_bound _ _ Hy)).
    rewrite E100 in Ey.
    setoid_replace (q * 100) with (100 * q) in Ey by ring.
    destruct (div_error (Math_round (x * 100)) 100 c1 c100 Hc1 H100)
      as (c & Hc & Ec).
    + rewrite E100. discriminate.
    + rewrite E100, Ec1.
      assert (E : 2 ^ 1024 == 2 * 2 ^ 1023) by reflexivity.
      assert (0 < 2 ^ 1023) by reflexivity.
      unfold Qdiv. change (/ 100) with (1 # 100).
      set (K := inject_Z k) in *. clearbody K.
      apply Qabs_Qle_condition in Ek.
      destruct (Qabs_Qlt_condition cy (2 ^ 1024)) as [Hb _].
      specialize (Hb Hcy). apply Qabs_Qle_condition. lra.
    + exists k, c. split; [exact Hc|]. split.
      * qabs. destruct Ek, Ey. split; lra.
      * rewrite E100, Ec1 in Ec. unfold Qdiv in Ec.
        change (/ 100) with (1 # 100) in Ec. exact Ec.
  - right. rewrite E100 in Hgt.
    setoid_replace (q * 100) with (100 * q) in Hgt by ring.
    split; [|exact Hgt].
    rewrite Hinf, (Qle_bool_mult_100 q c100 E100).
    destruct (Qle_bool 0 q); reflexivity.
Qed.

Lemma leastError_small : leastError <= 1 # 1000000000000.
Proof. unfold leastError, Qle. cbn [Qnum Qden]. vm_compute. discriminate. Qed.

Lemma unitRoundoff_42 : 2 ^ 42 * unitRoundoff == 1 # 2048.
Proof. vm_compute. reflexivity. Qed.

Lemma pow2_42_1023 : 2 ^ 50 < 2 ^ 1023.
Proof. reflexivity. Qed.

(** The rounding error of an operation whose exact result is at most
    [2 ^ 42] in magnitude is below 0.0005. *)
Lemma error_42 (c p : Q) :
  Qabs (c - p) <= Qabs p * unitRoundoff + leastError -> Qabs p <= 2 ^ 42 ->
  Qabs (c - p) <= 49 # 100000.
Proof.
  intros H Hp. pose proof (error_bound c p _ H Hp) as H'.
  rewrite unitRoundoff_42 in H'. pose proof leastError_small.
  eapply Qle_trans; [exact H'|]. lra.
Qed.

(** [roundToCents] moves a number of at most [2 ^ 42] in magnitude by at
    most 0.006. *)
Lemma roundToCents_error (x : number) q :
  exactValue x = Some q -> Qabs q <= 2 ^ 42 ->
  exists c, exactValue (roundToCents x) = Some c /\ Qabs (c - q) <= 6 # 1000.
Proof.
  intros Hx Hq.
  assert (E42 : 2 ^ 42 == 4398046511104) by reflexivity.
  assert (E50 : 2 ^ 50 == 1125899906842624) by reflexivity.
  pose proof pow2_42_1023 as H1023. pose proof leastError_small as Hl.
  assert (Hu : 4398046511104 * unitRoundoff == 1 # 2048)
    by (rewrite <- E42; apply unitRoundoff_42).
  assert (H100 : Qabs (100 * q) <= 100 * 2 ^ 42).
  { rewrite Qabs_Qmult. change (Qabs 100) with 100.
    apply Qmult_le_l; [reflexivity|exact Hq]. }
  destruct (roundToCents_cases x q Hx) as [(k & c & Hc & Hk & Herr)|[_ Hgt]].
  - exists c. split; [exact Hc|].
    assert (Hk' : Qabs (inject_Z k - 100 * q) <= 5489 # 10000).
    { eapply Qle_trans; [exact Hk|].
      assert (Qabs (100 * q) * unitRoundoff <= 100 * 2 ^ 42 * unitRoundoff)
        by (apply Qmult_le_compat_r; [exact H100|discriminate]).
      rewrite <- Qmult_assoc, unitRoundoff_42 in H. lra. }
    assert (HK : Qabs (inject_Z k * (1 # 100)) <= 2 ^ 42 + (1 # 100)).
    { rewrite E42 in *. set (K := inject_Z k) in *. clearbody K.
      apply Qabs_Qle_condition in Hk', Hq. apply Qabs_Qle_condition. lra. }
    pose proof (error_bound _ _ _ Herr HK) as Herr'.
    assert (Hu' : (2 ^ 42 + (1 # 100)) * unitRoundoff <= 4883 # 10000000).
    { rewrite Qmult_plus_distr_l, unitRoundoff_42. unfold unitRoundoff.
      vm_compute. discriminate. }
    set (K := inject_Z k) in *. clearbody K.
    apply Qabs_Qle_condition in Hk', Herr'. apply Qabs_Qle_condition. lra.
  - exfalso. rewrite E42 in H100. rewrite E50 in H1023.
    assert (Qabs (100 * q) <= 1125899906842624) by lra.
    apply (Qlt_not_le _ _ Hgt). lra.
Qed.

End RoundToCents.

(** * Rounding in the schedule *)

(** ** One row *)

Section Cents.

#[local] Open Scope Q_scope.

Lemma nonNegative_value (x : number) q :
  nonNegative x -> exactValue x = Some q -> 0 <= q.
Proof.
  unfold nonNegative, exactValue.
  destruct (Prim2SF x) as [s|s| |s m e]; cbn [signOf]; intros Hs Hq;
    inversion Hs; inversion Hq; subst.
  - apply Qle_refl.
  - cbn [cond_Zopp]. apply Qmult_le_0_compat.
    + unfold Qle. cbn. lia.
    + apply Qlt_le_weak, pow2_pos.
Qed.

Lemma ltb_0_value (x : number) q :
  (0 <? x)%float = true -> exactValue x = Some q -> 0 < q.
Proof.
  intros H Hx. apply (ltb_value 0 x 0 q); [reflexivity|exact Hx|exact H].
Qed.

(** A number that is not negative and not above a finite number is
    finite. *)
Lemma nonNegative_ltb_false (b p : number) qb :
  nonNegative p -> exactValue b = Some qb -> (b <? p)%float = false ->
  exists qp, exactValue p = Some qp /\ 0 <= qp /\ qp <= qb.
Proof.
  intros Hp Hb Hlt. destruct (exactValue p) as [qp|] eqn:E.
  - exists qp. split; [reflexivity|].
    split; [apply (nonNegative_value p); assumption|].
    destruct (Qlt_le_dec qb qp) as [H|H]; [|exact H].
    apply (ltb_value b p qb qp Hb E) in H. congruence.
  - exfalso. unfold nonNegative in Hp. unfold exactValue in E, Hb.
    rewrite FloatAxioms.ltb_spec in Hlt.
    destruct (Prim2SF p) as [s|s| |s m e]; try discriminate.
    cbn [signOf] in Hp. inversion Hp; subst s.
    destruct (Prim2SF b) as [s'|s'| |s' m' e']; try discriminate;
      cbv in Hlt; discriminate.
Qed.

(** A number that is not negative and below another is finite. *)
Lemma nonNegative_ltb_true (x y : number) :
  nonNegative x -> (x <? y)%float = true ->
  exists q, exactValue x = Some q /\ 0 <= q.
Proof.
  intros Hx Hlt. destruct (exactValue x) as [q|] eqn:E.
  - exists q. split; [reflexivity|]. apply (nonNegative_value x); assumption.
  - exfalso. unfold nonNegative in Hx. unfold exactValue in E.
    rewrite FloatAxioms.ltb_spec in Hlt.
    destruct (Prim2SF x) as [s|s| |s m e]; try discriminate.
    cbn [signOf] in Hx. inversion Hx; subst s.
    rewrite SFltb_infinity_l in Hlt. discriminate.
Qed.

Lemma cap_42 : 4000000000000 + 1 <= 2 ^ 42.
Proof. vm_compute. discriminate. Qed.

Lemma cap_1023 : 2 ^ 42 <= 2 ^ 1023.
Proof. apply pow2_le. lia. Qed.

(** [roundToCents] of the result of an operation whose exact result [p] is
    at most 4e12 in magnitude is within 0.007 of [p]. *)
Lemma rounded_cents (t : number) c0 p :
  exactValue t = Some c0 ->
  Qabs (c0 - p) <= Qabs p * unitRoundoff + leastError ->
  Qabs p <= 4000000000000 ->
  exists c, exactValue (roundToCents t) = Some c /\ Qabs (c - p) <= 7 # 1000.
Proof.
  intros Ht He Hp. pose proof cap_42 as H42.
  assert (E42 : 2 ^ 42 == 4398046511104) by reflexivity.
  assert (Hp' : Qabs p <= 2 ^ 42) by lra.
  pose proof (error_42 c0 p He Hp') as H0.
  destruct (roundToCents_error t c0 Ht) as (c & Hc & Ec).
  - rewrite E42 in *. qabs. lra.
  - exists c. split; [exact Hc|]. qabs. lra.
Qed.

Lemma within_cap (p : Q) : Qabs p <= 4000000000000 -> Qabs p <= 2 ^ 1023.
Proof.
  intros H. pose proof cap_42. pose proof cap_1023. lra.
Qed.

Lemma mul_cents (x y : number) a b :
  exactValue x = Some a -> exactValue y = Some b ->
  Qabs (a * b) <= 4000000000000 ->
  exists c, exactValue (roundToCents (x * y)%float) = Some c /\
            Qabs (c - a * b) <= 7 # 1000.
Proof.
  intros Hx Hy H.
  destruct (mul_error x y a b Hx Hy (within_cap _ H)) as (t & Ht & Et).
  exact (rounded_cents _ t _ Ht Et H).
Qed.

Lemma sub_cents (x y : number) a b :
  exactValue x = Some a -> exactValue y = Some b ->
  Qabs (a - b) <= 4000000000000 ->
  exists c, exactValue (roundToCents (x - y)%float) = Some c /\
            Qabs (c - (a - b)) <= 7 # 1000.
Proof.
  intros Hx Hy H.
  destruct (sub_error x y a b Hx Hy (within_cap _ H)) as (t & Ht & Et).
  exact (rounded_cents _ t _ Ht Et H).
Qed.

Lemma add_cents (x y : number) a b :
  exactValue x = Some a -> exactValue y = Some b ->
  Qabs (a + b) <= 4000000000000 ->
  exists c, exactValue (roundToCents (x + y)%float) = Some c /\
            Qabs (c - (a + b)) <= 7 # 1000.
Proof.
  intros Hx Hy H.
  destruct (add_error x y a b Hx Hy (within_cap _ H)) as (t & Ht & Et).
  exact (rounded_cents _ t _ Ht Et H).
Qed.

(** The sum of two numbers whose exact sum is at most 4e12 in magnitude is
    within 0.0005 of it. *)
Lemma add_42 (x y : number) a b :
  exactValue x = Some a -> exactValue y = Some b ->
  Qabs (a + b) <= 4000000000000 ->
  exists c, exactValue (x + y)%float = Some c /\ Qabs (c - (a + b)) <= 49 # 100000.
Proof.
  intros Hx Hy H.
  destruct (add_error x y a b Hx Hy (within_cap _ H)) as (t & Ht & Et).
  exists t. split; [exact Ht|]. apply error_42; [exact Et|].
  pose proof cap_42. lra.
Qed.

End Cents.

Section Row.

#[local] Open Scope Q_scope.

Variables loanAmount monthlyPayment monthlyRate numPayments : number.
Variables qL qr : Q.
Hypothesis rate_value : exactValue monthlyRate = Some qr.
Hypothesis rate_range : 0 <= qr /\ qr <= 417 # 10000.
Hypothesis payment_sign : nonNegative monthlyPayment.
Hypothesis payment_covers :
  forall qm, exactValue monthlyPayment = Some qm -> qL * qr - (1 # 100) <= qm.

Lemma scheduleStep_values k b schedule qb G :
  exactValue b = Some qb -> nonNegative b ->
  qb - qL <= G -> 0 <= G -> G <= 50000000000 -> qb <= 100000000000 ->
  exists qI qP qb' qA,
    let e := scheduleStep loanAmount monthlyPayment monthlyRate numPayments
               k b schedule in
    exactValue (interestPayment e) = Some qI /\
    exactValue (principalPayment e) = Some qP /\
    exactValue (remainingBalance e) = Some qb' /\
    exactValue (paymentAmount e) = Some qA /\
    nonNegative (remainingBalance e) /\
    Qabs (qI - qb * qr) <= 7 # 1000 /\
    qP <= qb /\ - (G * qr + (3 # 100)) <= qP /\
    Qabs (qb' - (qb - qP)) <= 7 # 1000 /\
    Qabs (qA - (qP + qI)) <= 7 # 1000.
Proof.
  intros Hb Hbs HG HG0 HG1 Hcap. destruct rate_range as [Hr0 Hr1].
  pose proof (nonNegative_value b qb Hbs Hb) as Hqb.
  assert (Hbr : 0 <= qb * qr /\ qb * qr <= 4170000000).
  { split; [apply Qmult_le_0_compat; assumption|].
    apply Qle_trans with (100000000000 * qr).
    - apply Qmult_le_compat_r; assumption.
    - lra. }
  assert (HGr : 0 <= G * qr /\ G * qr <= 2085000000).
  { split; [apply Qmult_le_0_compat; assumption|].
    apply Qle_trans with (50000000000 * qr).
    - apply Qmult_le_compat_r; assumption.
    - lra. }
  assert (HGq : qb * qr - qL * qr <= G * qr).
  { setoid_replace (qb * qr - qL * qr) with ((qb - qL) * qr) by ring.
    apply Qmult_le_compat_r; assumption. }
  cbv beta zeta delta [scheduleStep].
  cbn [interestPayment principalPayment remainingBalance paymentAmount].
  destruct (mul_cents b monthlyRate qb qr Hb rate_value) as (qI & HI & EI).
  { apply Qabs_Qle_condition. lra. }
  set (I := roundToCents (b * monthlyRate)%float) in *.
  set (P0 := roundToCents (monthlyPayment - I)%float).
  assert (HP0 : (b <? P0)%float = false ->
                exists qP, exactValue P0 = Some qP /\ qP <= qb /\
                           - (G * qr + (3 # 100)) <= qP).
  { intros Hlt. destruct (monthlyPayment <? I)%float eqn:Hmi.
    - destruct (nonNegative_ltb_true monthlyPayment I payment_sign Hmi)
        as (qm & Hm & Hm0).
      pose proof (payment_covers qm Hm) as Hcov.
      apply (ltb_value monthlyPayment I qm qI Hm HI) in Hmi.
      destruct (sub_cents monthlyPayment I qm qI Hm HI) as (qP & HP & EP).
      { qabs. lra. }
      fold P0 in HP. exists qP. split; [exact HP|]. split.
      + destruct (Qlt_le_dec qb qP) as [H|H]; [|exact H].
        apply (ltb_value b P0 qb qP Hb HP) in H. congruence.
      + qabs. lra.
    - assert (HnP : nonNegative P0)
        by (apply roundToCents_nonNegative, sub_nonNegative; assumption).
      destruct (nonNegative_ltb_false b P0 qb HnP Hb Hlt)
        as (qP & HP & HP1 & HP2).
      exists qP. split; [exact HP|]. split; [exact HP2|]. lra. }
  set (P := if (Z2F k =? numPayments)%float || (b <? P0)%float then b else P0).
  assert (HP : exists qP, exactValue P = Some qP /\ qP <= qb /\
                          - (G * qr + (3 # 100)) <= qP /\ (b <? P)%float = false).
  { unfold P. destruct ((Z2F k =? numPayments)%float || (b <? P0)%float) eqn:Hc.
    - exists qb. split; [exact Hb|]. split; [apply Qle_refl|]. split; [lra|].
      destruct (b <? b)%float eqn:Hbb; [|reflexivity].
      apply (ltb_value b b qb qb Hb Hb) in Hbb. lra.
    - apply orb_false_elim in Hc. destruct Hc as [_ Hc].
      destruct (HP0 Hc) as (qP & H1 & H2 & H3). exists qP. auto. }
  clearbody P. destruct HP as (qP & HP & HP1 & HP2 & HP3).
  destruct (sub_cents b P qb qP Hb HP) as (qb' & Hb' & Eb').
  { qabs. lra. }
  destruct (add_cents P I qP qI HP HI) as (qA & HA & EA).
  { qabs. lra. }
  exists qI, qP, qb', qA. repeat split; try assumption.
  apply roundToCents_nonNegative, sub_nonNegative; assumption.
Qed.

End Row.

(** ** The loop *)

Section Growth.

#[local] Open Scope Q_scope.

Lemma growth_nonneg j : 0 <= growth j.
Proof.
  induction j as [|j IH]; cbn [growth]; [apply Qle_refl|].
  assert (0 <= growth j * (10417 # 10000))
    by (apply Qmult_le_0_compat; [exact IH|discriminate]).
  lra.
Qed.

Lemma growth_S j : growth j <= growth (S j).
Proof. pose proof (growth_nonneg j). cbn [growth]. lra. Qed.

Lemma growth_le j k : (j <= k)%nat -> growth j <= growth k.
Proof.
  induction 1 as [|k _ IH]; [apply Qle_refl|].
  eapply Qle_trans; [exact IH|apply growth_S].
Qed.

Lemma growth_600 : growth 600 <= 50000000000.
Proof. vm_compute. discriminate. Qed.

Lemma growth_bound j : (j <= 600)%nat -> growth j <= 50000000000.
Proof.
  intros H. eapply Qle_trans; [apply growth_le, H|apply growth_600].
Qed.

End Growth.

Section Loop.

#[local] Open Scope Q_scope.

Variables loanAmount monthlyPayment monthlyRate numPayments : number.
Variables qL qr : Q.
Hypothesis principal_range : 0 <= qL /\ qL <= 100000000.
Hypothesis rate_value : exactValue monthlyRate = Some qr.
Hypothesis rate_range : 0 <= qr /\ qr <= 417 # 10000.
Hypothesis payment_sign : nonNegative monthlyPayment.
Hypothesis payment_covers :
  forall qm, exactValue monthlyPayment = Some qm -> qL * qr - (1 # 100) <= qm.

Lemma pushedFrom_values rows :
  forall k b schedule j qb accI accA vI vA sI,
    pushedFrom loanAmount monthlyPayment monthlyRate numPayments
      k b schedule rows ->
    (j + List.length rows <= 600)%nat ->
    exactValue b = Some qb -> nonNegative b -> qb - qL <= growth j ->
    exactValue accI = Some vI -> exactValue accA = Some vA ->
    Qabs (vI - sI) <= inject_Z (Z.of_nat j) * (5 # 10000) ->
    Qabs (vA - (qL - qb + sI)) <= inject_Z (Z.of_nat j) * (145 # 10000) ->
    - inject_Z (Z.of_nat j) <= sI ->
    sI <= inject_Z (Z.of_nat j) * 4200000000 ->
    roundedWithinCent b rows = true /\
    exists qlast sI' fI fA,
      exactValue (fold_left (fun _ e => remainingBalance e) rows b)
      = Some qlast /\
      exactValue (fold_left (fun sum p => sum + interestPayment p)%float rows accI)
      = Some fI /\
      exactValue (fold_left (fun sum p => sum + paymentAmount p)%float rows accA)
      = Some fA /\
      Qabs (fI - sI')
      <= inject_Z (Z.of_nat (j + List.length rows)) * (5 # 10000) /\
      Qabs (fA - (qL - qlast + sI'))
      <= inject_Z (Z.of_nat (j + List.length rows)) * (145 # 10000) /\
      - inject_Z (Z.of_nat (j + List.length rows)) <= sI' /\
      sI' <= inject_Z (Z.of_nat (j + List.length rows)) * 4200000000.
Proof.
  destruct principal_range as [HL0 HL1]. destruct rate_range as [Hr0 Hr1].
  induction rows as [|e rows IH];
    intros k b schedule j qb accI accA vI vA sI Hrows Hj Hb Hbs HG HvI HvA
      EI EA HsI0 HsI1.
  - split; [reflexivity|]. exists qb, sI, vI, vA. cbn [fold_left List.length].
    rewrite Nat.add_0_r. repeat split; assumption.
  - destruct Hrows as (He & _ & _ & Hrows). cbn [List.length] in Hj.
    pose proof (growth_nonneg j) as HG0.
    assert (HG1 : growth j <= 50000000000) by (apply growth_bound; lia).
    assert (HJ : 0 <= inject_Z (Z.of_nat j) /\ inject_Z (Z.of_nat j) <= 599).
    { split; [change 0 with (inject_Z 0)|change 599 with (inject_Z 599)];
        rewrite <- Zle_Qle; lia. }
    destruct (scheduleStep_values loanAmount monthlyPayment monthlyRate
                numPayments qL qr rate_value rate_range payment_sign
                payment_covers k b schedule qb (growth j) Hb Hbs HG HG0 HG1)
      as (qI & qP & qb' & qA & H); [lra|].
    cbv zeta in H. rewrite <- He in H.
    destruct H as (HI & HP & Hb' & HA & Hbs' & EqI & HP1 & HP2 & Eb' & EqA).
    pose proof (nonNegative_value b qb Hbs Hb) as Hqb.
    assert (Hbr : 0 <= qb * qr /\ qb * qr <= 4170000000).
    { split; [apply Qmult_le_0_compat; assumption|].
      apply Qle_trans with (100000000000 * qr).
      - apply Qmult_le_compat_r; [lra|assumption].
      - lra. }
    assert (HGr : growth j * qr <= growth j * (417 # 10000))
      by (rewrite !(Qmult_comm (growth j));
          apply Qmult_le_compat_r; assumption).
    set (J := inject_Z (Z.of_nat j)) in *.
    assert (EJ : inject_Z (Z.of_nat (S j)) == J + 1).
    { rewrite Nat2Z.inj_succ. unfold Z.succ. rewrite inject_Z_plus.
      reflexivity. }
    clearbody J.
    destruct (add_42 accI (interestPayment e) vI qI HvI HI) as (vI' & HvI' & EI').
    { qabs. lra. }
    destruct (add_42 accA (paymentAmount e) vA qA HvA HA) as (vA' & HvA' & EA').
    { qabs. lra. }
    destruct (IH (k + 1)%Z (remainingBalance e) (schedule ++ [e]) (S j) qb'
                (accI + interestPayment e)%float (accA + paymentAmount e)%float
                vI' vA' (sI + qI) Hrows) as (Hw & qlast & sI' & fI & fA & H);
      try assumption.
    + lia.
    + cbn [growth]. qabs. lra.
    + rewrite EJ. qabs. lra.
    + rewrite EJ. qabs. lra.
    + rewrite EJ. qabs. lra.
    + rewrite EJ. qabs. lra.
    + split.
      * cbn [roundedWithinCent]. rewrite Hb, HP, Hb', Hw, andb_true_r.
        apply Qle_bool_iff. qabs. lra.
      * exists qlast, sI', fI, fA. cbn [fold_left List.length].
        rewrite <- Nat.add_succ_comm. exact H.
Qed.

End Loop.

(** ** The payment *)

Section Signs.

#[local] Open Scope Z_scope.

(** A quotient has the sign that its terms give it, or is NaN. *)
Lemma SFdiv_sign x y sx sy :
  signOf x = Some sx -> signOf y = Some sy ->
  signOf (SFdiv prec emax x y) = Some (xorb sx sy) \/
  SFdiv prec emax x y = S754_nan.
Proof.
  destruct y as [s'|s'| |s' m' e'].
  - destruct x as [s|s| |s m e]; cbn [signOf SFdiv];
      intros Hx Hy; inversion Hx; inversion Hy; subst; auto.
  - destruct x as [s|s| |s m e]; cbn [signOf SFdiv];
      intros Hx Hy; inversion Hx; inversion Hy; subst; auto.
  - discriminate.
  - intros Hx Hy. cbn [signOf] in Hy. inversion Hy; subst.
    left. apply SFdiv_finite_sign, Hx.
Qed.

End Signs.

Lemma div_nonNegative x y :
  nonNegative x -> nonNegative y ->
  nonNegative (x / y) \/ is_nan (x / y) = true.
Proof.
  unfold nonNegative. intros Hx Hy.
  rewrite is_nan_signOf, FloatAxioms.div_spec. unfold SF64div.
  destruct (SFdiv_sign _ _ _ _ Hx Hy) as [H|H]; rewrite H; auto.
Qed.

Lemma nonNegative_of_value x q :
  nonNegative x \/ is_nan x = true -> exactValue x = Some q -> nonNegative x.
Proof.
  intros [H|H] Hq; [exact H|].
  rewrite (exactValue_not_nan x q Hq) in H. discriminate H.
Qed.

Lemma roundToCents_infinity :
  exactValue (roundToCents infinity) = None /\
  exactValue (roundToCents neg_infinity) = None.
Proof. split; reflexivity. Qed.

Section Payment.

#[local] Open Scope Q_scope.

Lemma unitRoundoff_value : unitRoundoff == 1 # 9007199254740992.
Proof. reflexivity. Qed.

Lemma error_weaken (c z : Q) :
  Qabs (c - z) <= Qabs z * unitRoundoff + leastError ->
  Qabs (c - z) <= Qabs z * (1 # 9007199254740992) + (1 # 1000000000000).
Proof.
  intros H. pose proof leastError_small. rewrite unitRoundoff_value in H. lra.
Qed.

(** Rounding a number that is at least [z0 >= 0] leaves it at least
    [z0], less its relative error. *)
Lemma lower_bound (c z z0 : Q) :
  Qabs (c - z) <= Qabs z * unitRoundoff + leastError ->
  0 <= z0 -> z0 <= z ->
  z0 * (1 - (1 # 9007199254740992)) - (1 # 1000000000000) <= c.
Proof.
  intros H H0 Hz. apply error_weaken in H.
  rewrite (Qabs_pos z) in H by lra. qabs. lra.
Qed.

Lemma upper_bound (c z z1 : Q) :
  Qabs (c - z) <= Qabs z * unitRoundoff + leastError ->
  0 <= z -> z <= z1 ->
  c <= z1 * (1 + (1 # 9007199254740992)) + (1 # 1000000000000).
Proof.
  intros H H0 Hz. apply error_weaken in H.
  rewrite (Qabs_pos z) in H by lra. qabs. lra.
Qed.

Lemma zero_value (x : number) q :
  exactValue x = Some q -> q == 0 -> exists s, Prim2SF x = S754_zero s.
Proof.
  unfold exactValue. destruct (Prim2SF x) as [s|s| |s m e]; try discriminate.
  - intros _ _. exists s. reflexivity.
  - intros H Hq. inversion H; subst q. exfalso.
    pose proof (pow2_pos e) as He.
    apply Qmult_integral in Hq. destruct Hq as [Hq|Hq]; [|lra].
    destruct s; cbn [cond_Zopp] in Hq; unfold Qeq in Hq; cbn in Hq; lia.
Qed.

Lemma positive_value (x : number) q :
  exactValue x = Some q -> 0 < q ->
  exists m e, Prim2SF x = S754_finite false m e.
Proof.
  unfold exactValue. destruct (Prim2SF x) as [s|s| |s m e]; try discriminate.
  - intros H Hq. inversion H; subst q. lra.
  - intros H Hq. inversion H; subst q. exists m, e. destruct s; [|reflexivity].
    exfalso. pose proof (pow2_pos e) as He. cbn [cond_Zopp] in Hq.
    assert (inject_Z (- Z.pos m) * 2 ^ e <= 0).
    { setoid_replace (inject_Z (- Z.pos m) * 2 ^ e)
        with (- (inject_Z (Z.pos m) * 2 ^ e))
        by (rewrite inject_Z_opp; ring).
      assert (0 <= inject_Z (Z.pos m) * 2 ^ e).
      { apply Qmult_le_0_compat; [unfold Qle; cbn; lia|lra]. }
      lra. }
    lra.
Qed.

(** A positive finite number divided by a zero is an infinity, and
    [roundToCents] keeps it. *)
Lemma div_zero_infinite (x y : number) a b :
  exactValue x = Some a -> 0 < a -> exactValue y = Some b -> b == 0 ->
  exactValue (roundToCents (x / y)%float) = None.
Proof.
  intros Hx Ha Hy Hb.
  destruct (positive_value x a Hx Ha) as (m & e & Ex).
  destruct (zero_value y b Hy Hb) as (s & Ey).
  assert (E : (x / y)%float = infinity \/ (x / y)%float = neg_infinity).
  { destruct s; [right|left]; apply Prim2SF_inj;
      rewrite FloatAxioms.div_spec, Ex, Ey; reflexivity. }
  destruct E as [-> | ->]; reflexivity.
Qed.

Lemma pow2_997 : 1 <= 2 ^ 997 /\ 8388608 * 2 ^ 997 <= 2 ^ 1023.
Proof.
  split.
  - change 1 with (2 ^ 0). apply pow2_le. lia.
  - change 8388608 with (2 ^ 23). rewrite <- pow2_add. apply pow2_le. lia.
Qed.

Lemma exactValue_one : exists c, exactValue 1 = Some c /\ c == 1.
Proof. eexists. split; [reflexivity|]. vm_compute. reflexivity. Qed.

(** The payment formula on a rate, a principal and a power in range: the
    payment is not negative and, when finite, covers the interest on the
    principal for one month, less a cent. *)
Lemma payment_formula (L r p : number) qL qr qp :
  exactValue L = Some qL -> 0 <= qL -> qL <= 100000000 ->
  exactValue r = Some qr -> 0 <= qr -> qr <= 417 # 10000 ->
  exactValue p = Some qp -> 1 <= qp -> qp <= 2 ^ 997 ->
  nonNegative L -> nonNegative r -> nonNegative p ->
  nonNegative (roundToCents (L * (r * p) / (p - 1))%float) /\
  forall qm,
    exactValue (roundToCents (L * (r * p) / (p - 1))%float) = Some qm ->
    qL * qr - (1 # 100) <= qm.
Proof.
  intros HL HL0 HL1 Hr Hr0 Hr1 Hp Hp0 Hp1 HLs Hrs Hps.
  destruct pow2_997 as [HT0 HT1].
  set (T := 2 ^ 997) in *. set (B := 2 ^ 1023) in *.
  assert (HX : 0 <= qL * qr /\ qL * qr <= 4170000).
  { split; [apply Qmult_le_0_compat; assumption|].
    apply Qle_trans with (100000000 * qr);
      [apply Qmult_le_compat_r; assumption|lra]. }
  assert (HA : 0 <= qr * qp /\ qr * qp <= T).
  { split; [apply Qmult_le_0_compat; lra|].
    apply Qle_trans with (1 * qp);
      [apply Qmult_le_compat_r; lra|lra]. }
  assert (HW : qL * qr <= qL * qr * qp /\ qL * qr * qp <= 4170000 * T).
  { split.
    - setoid_replace (qL * qr) with (qL * qr * 1) at 1 by ring.
      rewrite !(Qmult_comm (qL * qr)). apply Qmult_le_compat_r; lra.
    - apply Qle_trans with (qL * qr * T).
      + rewrite !(Qmult_comm (qL * qr)). apply Qmult_le_compat_r; lra.
      + apply Qmult_le_compat_r; lra. }
  (* r * p *)
  destruct (mul_error r p qr qp Hr Hp) as (qt1 & Ht1 & Et1).
  { rewrite Qabs_pos by lra. change (2 ^ 1023) with B. clearbody T B. lra. }
  pose proof (nonNegative_value _ qt1
                (nonNegative_of_value _ _ (mul_nonNegative r p Hrs Hps) Ht1) Ht1)
    as Ht10.
  pose proof (lower_bound _ _ (qr * qp) Et1 (proj1 HA) (Qle_refl _)) as Lt1.
  pose proof (upper_bound _ _ (qr * qp) Et1 (proj1 HA) (Qle_refl _)) as Ut1.
  assert (HLt1 : 0 <= qL * qt1) by (apply Qmult_le_0_compat; assumption).
  assert (ML : (qr * qp * (1 - (1 # 9007199254740992)) - (1 # 1000000000000)) * qL
               <= qt1 * qL) by (apply Qmult_le_compat_r; assumption).
  assert (MU : qt1 * qL
               <= (qr * qp * (1 + (1 # 9007199254740992)) + (1 # 1000000000000)) * qL)
    by (apply Qmult_le_compat_r; assumption).
  (* L * (r * p) *)
  destruct (mul_error L (r * p)%float qL qt1 HL Ht1) as (qt2 & Ht2 & Et2).
  { rewrite Qabs_pos by lra. change (2 ^ 1023) with B. clearbody T B. lra. }
  assert (Ht2s : nonNegative (L * (r * p))%float).
  { apply (nonNegative_of_value _ qt2); [|exact Ht2].
    apply mul_nonNegative; [exact HLs|].
    apply (nonNegative_of_value _ qt1); [|exact Ht1].
    apply mul_nonNegative; assumption. }
  pose proof (lower_bound _ _ (qL * qt1) Et2 HLt1 (Qle_refl _)) as Lt2.
  (* p - 1 *)
  destruct exactValue_one as (c1 & H1 & E1).
  destruct (sub_error p 1 qp c1 Hp H1) as (qd & Hd & Ed).
  { rewrite E1, Qabs_pos by lra. change (2 ^ 1023) with B. clearbody T B. lra. }
  rewrite E1 in Ed.
  assert (Hds : nonNegative (p - 1)%float).
  { apply (nonNegative_of_value _ qd); [|exact Hd].
    apply sub_nonNegative; [exact Hps|].
    destruct (p <? 1)%float eqn:Hlt; [|reflexivity].
    apply (ltb_value p 1 qp c1 Hp H1) in Hlt. rewrite E1 in Hlt. lra. }
  pose proof (nonNegative_value _ qd Hds Hd) as Hd0.
  assert (Hqp1 : 0 <= qp - 1) by lra.
  pose proof (upper_bound _ _ (qp - 1) Ed Hqp1 (Qle_refl _)) as Ud.
  split.
  { apply roundToCents_nonNegative, div_nonNegative; assumption. }
  intros qm Hm.
  pose proof (nonNegative_value _ qm
                (roundToCents_nonNegative _ (div_nonNegative _ _ Ht2s Hds)) Hm)
    as Hm0.
  destruct (Qlt_le_dec (1 # 100) (qL * qr)) as [HXbig|HXsmall]; [|lra].
  assert (Core : qL * qr * (1 - (6 # 9007199254740992)) * qd <= qt2).
  { assert (MD : qL * qr * (1 - (6 # 9007199254740992)) * qd
                 <= qL * qr * (1 - (6 # 9007199254740992))
                    * ((qp - 1) * (1 + (1 # 9007199254740992)) + (1 # 1000000000000))).
    { rewrite !(Qmult_comm (qL * qr * (1 - (6 # 9007199254740992)))).
      apply Qmult_le_compat_r; [exact Ud|]. lra. }
    clearbody T B. lra. }
  assert (Ht2pos : 0 < qt2) by (clearbody T B; lra).
  destruct (Qeq_dec qd 0) as [Hdz|Hdz].
  { rewrite (div_zero_infinite _ _ qt2 qd Ht2 Ht2pos Hd Hdz) in Hm.
    discriminate Hm. }
  assert (Hdpos : 0 < qd).
  { destruct (Qlt_le_dec 0 qd) as [H|H]; [exact H|].
    exfalso. apply Hdz. lra. }
  assert (HY : qL * qr * (1 - (6 # 9007199254740992)) <= qt2 / qd).
  { apply Qle_shift_div_l; assumption. }
  destruct (div_cases _ _ qt2 qd Ht2 Hd Hdz) as [(q0 & Hq0 & Eq0)|[Hinf _]].
  2:{ rewrite Hinf in Hm. destruct roundToCents_infinity as [I1 I2].
      revert Hm. destruct (Qle_bool 0 (qt2 / qd)); intros Hm;
        [rewrite I1 in Hm|rewrite I2 in Hm]; discriminate Hm. }
  assert (HY0 : 0 <= qL * qr * (1 - (6 # 9007199254740992))) by lra.
  pose proof (lower_bound _ _ _ Eq0 HY0 HY) as Lq0.
  destruct (roundToCents_cases _ q0 Hq0) as [(k & c & Hc & Ek & Ec)|[Hinf _]].
  2:{ rewrite Hinf in Hm. revert Hm.
      destruct (Qle_bool 0 q0); intros Hm; discriminate Hm. }
  rewrite Hc in Hm. inversion Hm; subst c. clear Hm.
  set (M0 := qL * qr * (1 - (6 # 9007199254740992))
             * (1 - (1 # 9007199254740992)) - (1 # 1000000000000)) in *.
  assert (HM0 : 0 <= 100 * M0) by (unfold M0; lra).
  assert (HM1 : 100 * M0 <= 100 * q0) by lra.
  assert (Lk : 100 * M0 * (1 - (1 # 9007199254740992)) - (1 # 1000000000000)
               - (1 # 2) <= inject_Z k).
  { assert (Ek' : Qabs (inject_Z k - 100 * q0)
                  <= (1 # 2) + Qabs (100 * q0) * (1 # 9007199254740992)
                     + (1 # 1000000000000)).
    { pose proof leastError_small. rewrite unitRoundoff_value in Ek. lra. }
    rewrite (Qabs_pos (100 * q0)) in Ek' by lra.
    set (K := inject_Z k) in *. clearbody K. qabs. lra. }
  set (K := inject_Z k) in *. clearbody K.
  assert (HK0 : 0 <= (100 * M0 * (1 - (1 # 9007199254740992))
                      - (1 # 1000000000000) - (1 # 2)) * (1 # 100))
    by (unfold M0; lra).
  assert (HK1 : (100 * M0 * (1 - (1 # 9007199254740992))
                 - (1 # 1000000000000) - (1 # 2)) * (1 # 100)
                <= K * (1 # 100)) by lra.
  pose proof (lower_bound _ _ _ Ec HK0 HK1) as Lc.
  unfold M0 in Lc. lra.
Qed.

End Payment.

Lemma div_zero_finite x s sy my ey :
  Prim2SF x = S754_zero s ->
  SFdiv prec emax (Prim2SF x) (S754_finite sy my ey) = S754_zero (xorb s sy).
Proof. intros ->. reflexivity. Qed.

Lemma monthlyRate_zero rate :
  (rate =? 0) = true -> exactValue (rate / 100 / 12) = Some 0%Q.
Proof.
  intros H. destruct (eqb_0_zero rate H) as [s Hs].
  assert (H1 : Prim2SF (rate / 100) = S754_zero (xorb s false)).
  { rewrite FloatAxioms.div_spec, Prim2SF_100. unfold SF64div.
    apply div_zero_finite, Hs. }
  unfold exactValue. rewrite FloatAxioms.div_spec, Prim2SF_12. unfold SF64div.
  rewrite (div_zero_finite _ _ _ _ _ H1). reflexivity.
Qed.

Section Rate.

#[local] Open Scope Q_scope.

Lemma exactValue_12 : exists c, exactValue 12 = Some c /\ c == 12.
Proof. eexists. split; [reflexivity|]. vm_compute. reflexivity. Qed.

Lemma exactValue_50 : exists c, exactValue 50 = Some c /\ c == 50.
Proof. eexists. split; [reflexivity|]. vm_compute. reflexivity. Qed.

Lemma exactValue_100000000 :
  exists c, exactValue 100000000 = Some c /\ c == 100000000.
Proof. eexists. split; [reflexivity|]. vm_compute. reflexivity. Qed.

Lemma exactValue_1e300 : exists c, exactValue 1e300 = Some c /\ c <= 2 ^ 997.
Proof. eexists. split; [reflexivity|]. vm_compute. discriminate. Qed.

(** The monthly rate of a rate of at most 50 percent is at most 4.17
    percent. *)
Lemma monthlyRate_value (rate : number) :
  nonNegative rate -> is_finite rate = true -> (rate <=? 50)%float = true ->
  exists qr,
    exactValue (rate / 100 / 12)%float = Some qr /\
    0 <= qr /\ qr <= 417 # 10000 /\ nonNegative (rate / 100 / 12)%float.
Proof.
  intros Hs Hf H50.
  apply is_finite_exactValue in Hf. destruct Hf as (qa & Ha).
  pose proof (nonNegative_value rate qa Hs Ha) as Ha0.
  destruct exactValue_50 as (c50 & Hc50 & E50).
  apply (leb_value rate 50 qa c50 Ha Hc50) in H50. rewrite E50 in H50.
  destruct exactValue_100 as (c100 & Hc100 & E100).
  destruct exactValue_12 as (c12 & Hc12 & E12).
  pose proof pow2_42_1023 as HB. assert (E0 : 1 <= 2 ^ 50) by discriminate.
  set (B := 2 ^ 1023) in *. set (T := 2 ^ 50) in *.
  destruct (div_error rate 100 qa c100 Ha Hc100) as (t0 & Ht0 & Et0).
  { rewrite E100. discriminate. }
  { rewrite E100. unfold Qdiv. change (/ 100) with (1 # 100).
    rewrite Qabs_pos by lra. change (2 ^ 1023) with B. clearbody B T. lra. }
  rewrite E100 in Et0. unfold Qdiv in Et0. change (/ 100) with (1 # 100) in Et0.
  assert (Hs0 : nonNegative (rate / 100)%float)
    by (apply signOf_div_100, Hs).
  pose proof (nonNegative_value _ t0 Hs0 Ht0) as Ht00.
  assert (Hz0 : 0 <= qa * (1 # 100)) by lra.
  assert (Hz1 : qa * (1 # 100) <= 1 # 2) by lra.
  pose proof (upper_bound _ _ _ Et0 Hz0 Hz1) as Ut0.
  destruct (div_error (rate / 100)%float 12 t0 c12 Ht0 Hc12) as (qr & Hr & Er).
  { rewrite E12. discriminate. }
  { rewrite E12. unfold Qdiv. change (/ 12) with (1 # 12).
    rewrite Qabs_pos by lra. change (2 ^ 1023) with B. clearbody B T. lra. }
  rewrite E12 in Er. unfold Qdiv in Er. change (/ 12) with (1 # 12) in Er.
  assert (Hs1 : nonNegative (rate / 100 / 12)%float)
    by (apply signOf_div_12, Hs0).
  pose proof (nonNegative_value _ qr Hs1 Hr) as Hr0.
  assert (Hy0 : 0 <= t0 * (1 # 12)) by lra.
  assert (Hy1 : t0 * (1 # 12) <= 4167 # 100000) by lra.
  pose proof (upper_bound _ _ _ Er Hy0 Hy1) as Ur.
  exists qr. split; [exact Hr|]. split; [exact Hr0|]. split; [lra|exact Hs1].
Qed.

Lemma power_value (p : number) :
  (1 <=? p)%float = true -> (p <=? 1e300)%float = true ->
  exists qp, exactValue p = Some qp /\ 1 <= qp /\ qp <= 2 ^ 997 /\ nonNegative p.
Proof.
  intros H1 H2.
  assert (Hf : is_finite p = true)
    by (apply (between_finite 1 1e300); auto; reflexivity).
  apply is_finite_exactValue in Hf. destruct Hf as (qp & Hp).
  destruct exactValue_one as (c1 & Hc1 & E1).
  destruct exactValue_1e300 as (c300 & Hc300 & E300).
  pose proof (proj1 (leb_value 1 p c1 qp Hc1 Hp) H1) as L1.
  pose proof (proj1 (leb_value p 1e300 qp c300 Hp Hc300) H2) as L2.
  exists qp. split; [exact Hp|]. rewrite E1 in L1. split; [exact L1|].
  split; [eapply Qle_trans; eassumption|].
  apply leb_1_nonNegative, H1.
Qed.

End Rate.

Section Schedule.

#[local] Open Scope Q_scope.

Variable Math_pow : number -> number -> number.

Lemma validLoan_acceptable (la ir lt : number) n :
  validLoan la ir lt n ->
  acceptable la = true /\ acceptable ir = true /\ acceptable lt = true /\
  nonNegative la.
Proof.
  intros (HfP & HP & Hfr & Hr & HfT & HT & Hn).
  assert (HnT : nonNegative lt).
  { apply mul_12_nonNegative; [exact HfT|]. rewrite HT. apply signOf_Z2F. }
  repeat split.
  - apply acceptable_number; auto using ltb_0_not_ltb.
  - apply acceptable_number; auto using leb_0_not_ltb.
  - apply acceptable_number; auto using nonNegative_not_ltb_0.
  - apply ltb_0_nonNegative, HP.
Qed.

(** The payment of a loan in range is not negative and, when finite,
    covers the interest on the principal for one month, less a cent. *)
Lemma payment_facts (la ir lt : number) n qL mp :
  validLoan la ir lt n -> exactValue la = Some qL -> qL <= 100000000 ->
  (ir <=? 50)%float = true -> powInRange Math_pow ir lt ->
  calculatePrincipalAndInterest Math_pow la ir lt = Ok mp ->
  exists qr,
    exactValue (ir / 100 / 12)%float = Some qr /\
    (0 <= qr /\ qr <= 417 # 10000) /\
    nonNegative mp /\
    forall qm, exactValue mp = Some qm -> qL * qr - (1 # 100) <= qm.
Proof.
  intros Hv HL HL1 H50 Hpow Hmp.
  destruct (validLoan_acceptable _ _ _ _ Hv) as (Hla & Hir & Hlt & HLs).
  destruct Hv as (HfP & HP & Hfr & Hr & HfT & HT & Hn).
  pose proof (nonNegative_value la qL HLs HL) as HL0.
  unfold calculatePrincipalAndInterest in Hmp.
  rewrite !validateNumber_acceptable in Hmp by assumption.
  cbn [bind numberOf] in Hmp.
  destruct (ir =? 0)%float eqn:Hz.
  - inversion Hmp; subst mp. clear Hmp. exists 0.
    split; [apply monthlyRate_zero, Hz|]. split; [split; [apply Qle_refl|discriminate]|].
    assert (Hs : nonNegative (roundToCents (la / (lt * 12))%float)).
    { apply roundToCents_nonNegative, div_nonNegative; [exact HLs|].
      rewrite HT. apply signOf_Z2F. }
    split; [exact Hs|]. intros qm Hm.
    pose proof (nonNegative_value _ qm Hs Hm). lra.
  - inversion Hmp; subst mp. clear Hmp.
    destruct Hpow as [Hpow|[Hp1 Hp2]]; [congruence|].
    assert (Hirs : nonNegative ir).
    { destruct (leb_0_cases ir Hr) as [H|H]; [exact H|congruence]. }
    destruct (monthlyRate_value ir Hirs Hfr H50) as (qr & Hqr & Hr0 & Hr1 & Hrs).
    destruct (power_value _ Hp1 Hp2) as (qp & Hp & Hq1 & Hq2 & Hps).
    exists qr. split; [exact Hqr|]. split; [split; assumption|].
    apply (payment_formula la (ir / 100 / 12)%float _ qL qr qp); assumption.
Qed.

(** The schedule of a loan in range: every balance is rounded by at most a
    cent, and the binary64 sums of [interestPayment] and of [paymentAmount]
    are those of the exact values to within 0.0005 and 0.0145 a row. *)
Lemma schedule_in_range (la ir lt : number) n fuel :
  validLoan la ir lt n -> inRange la ir n -> powInRange Math_pow ir lt ->
  (Z.to_nat n <= fuel)%nat ->
  exists rows e qL fI fA sI,
    generateAmortizationSchedule Math_pow fuel la ir lt
    = Some (Ok (rows ++ [e])) /\
    remainingBalance e = 0%float /\
    roundedWithinCent la (rows ++ [e]) = true /\
    exactValue la = Some qL /\ 0 <= qL /\ qL <= 100000000 /\
    exactValue (sumOf interestPayment (rows ++ [e])) = Some fI /\
    exactValue (sumOf paymentAmount (rows ++ [e])) = Some fA /\
    (List.length (rows ++ [e]) <= 600)%nat /\
    Qabs (fI - sI)
    <= inject_Z (Z.of_nat (List.length (rows ++ [e]))) * (5 # 10000) /\
    Qabs (fA - (qL + sI))
    <= inject_Z (Z.of_nat (List.length (rows ++ [e]))) * (145 # 10000) /\
    - inject_Z (Z.of_nat (List.length (rows ++ [e]))) <= sI /\
    sI <= inject_Z (Z.of_nat (List.length (rows ++ [e]))) * 4200000000.
Proof.
  intros Hv (HR1 & HR2 & HR3) Hpow Hfuel.
  destruct (validLoan_schedule Math_pow fuel la ir lt n Hv Hfuel)
    as (mp & rows & e & Hmp & Hgen & Hloop & Hzero & _ & HLs).
  pose proof Hv as (HfP & HP & _ & _ & _ & _ & Hn).
  apply is_finite_exactValue in HfP. destruct HfP as (qL & HL).
  pose proof (nonNegative_value la qL HLs HL) as HL0.
  destruct exactValue_100000000 as (c & Hc & Ec).
  apply (leb_value la 100000000 qL c HL Hc) in HR1. rewrite Ec in HR1.
  destruct (payment_facts la ir lt n qL mp Hv HL HR1 HR2 Hpow Hmp)
    as (qr & Hqr & Hrange & Hsign & Hcov).
  destruct (scheduleLoop_pushedFrom _ _ _ _ _ _ _ _ _ Hloop)
    as (rows' & Erows & Hpushed).
  cbn [app] in Erows. subst rows'.
  assert (Hlen : (List.length (rows ++ [e]) <= 600)%nat).
  { pose proof (scheduleLoop_length la mp (ir / 100 / 12)%float n fuel
                  ltac:(lia) 1%Z la [] _ ltac:(lia) Hloop) as H.
    cbn [List.length] in H. lia. }
  destruct (pushedFrom_values la mp (ir / 100 / 12)%float (Z2F n) qL qr
              (conj HL0 HR1) Hqr Hrange Hsign Hcov (rows ++ [e])
              1%Z la [] 0%nat qL 0%float 0%float 0 0 0 Hpushed)
    as (Hw & qlast & sI & fI & fA & Hlast & HfI & HfA & EI & EA & Hs0 & Hs1);
    try assumption; try reflexivity.
  - cbn [growth]. lra.
  - change (inject_Z (Z.of_nat 0)) with 0. apply Qabs_Qle_condition. lra.
  - change (inject_Z (Z.of_nat 0)) with 0. apply Qabs_Qle_condition. lra.
  - change (inject_Z (Z.of_nat 0)) with 0. lra.
  - change (inject_Z (Z.of_nat 0)) with 0. lra.
  - rewrite fold_left_app in Hlast. cbn [fold_left] in Hlast.
    rewrite Hzero in Hlast. change (exactValue 0%float) with (Some 0) in Hlast.
    inversion Hlast; subst qlast. cbn [Nat.add] in *.
    exists rows, e, qL, fI, fA, sI. repeat split; try assumption.
    qabs. lra.
Qed.

End Schedule.

(** * Rounding to cents in the results *)

Section ZeroRate.

#[local] Open Scope Q_scope.

Lemma exactValue_1e305 : exists c, exactValue 1e305 = Some c /\ c <= 2 ^ 1014.
Proof. eexists. split; [reflexivity|]. vm_compute. discriminate. Qed.

Lemma pow2_1015 :
  1 <= 2 ^ 1014 /\ 2 * 2 ^ 1014 <= 2 ^ 1015 /\ 256 * 2 ^ 1015 <= 2 ^ 1023.
Proof.
  split; [|split].
  - change 1 with (2 ^ 0). apply pow2_le. lia.
  - change 2 with (2 ^ 1) at 1. rewrite <- pow2_add. apply pow2_le. lia.
  - change 256 with (2 ^ 8). rewrite <- pow2_add. apply pow2_le. lia.
Qed.

(** [roundToCents] of the rounded result of an operation whose exact
    result is [y], with [0 <= y <= 2 ^ 1015]: a whole number of cents within
    one half, and three relative rounding errors, of [100 * y], divided by
    100 and rounded once more. *)
Lemma roundToCents_rounded (t : number) q0 y :
  exactValue t = Some q0 -> 0 <= y -> y <= 2 ^ 1015 ->
  Qabs (q0 - y) <= Qabs y * unitRoundoff + leastError ->
  exists k c,
    exactValue (roundToCents t) = Some c /\
    Qabs (inject_Z k - 100 * y)
    <= (1 # 2) + 100 * y * (3 * unitRoundoff) + 102 * leastError /\
    Qabs (c - inject_Z k * (1 # 100))
    <= Qabs (inject_Z k * (1 # 100)) * unitRoundoff + leastError.
Proof.
  intros Hq0 Hy0 Hy1 Eq0.
  destruct pow2_1015 as (HT0 & HT1 & HT2).
  set (T := 2 ^ 1015) in *. set (T' := 2 ^ 1014) in *. set (B := 2 ^ 1023) in *.
  pose proof leastError_pos as He0. pose proof leastError_small as He1.
  assert (Eq0' : Qabs (q0 - y) <= y * (1 # 9007199254740992) + leastError).
  { rewrite (Qabs_pos y) in Eq0 by exact Hy0.
    rewrite unitRoundoff_value in Eq0. exact Eq0. }
  destruct (roundToCents_cases _ q0 Hq0) as [(k & c & Hc & Ek & Ec)|[_ Hover]].
  - exists k, c. split; [exact Hc|]. split; [|exact Ec].
    rewrite unitRoundoff_value in Ek |- *.
    set (K := inject_Z k) in *. set (e := leastError) in *.
    clearbody K T T' B e.
    assert (Hq : Qabs (100 * q0)
                 <= 100 * (y * (1 + (1 # 9007199254740992)) + e)).
    { apply Qabs_Qle_condition in Eq0'. apply Qabs_Qle_condition. lra. }
    assert (Ek' : Qabs (K - 100 * q0)
                  <= (1 # 2)
                     + 100 * (y * (1 + (1 # 9007199254740992)) + e)
                       * (1 # 9007199254740992) + e).
    { eapply Qle_trans; [exact Ek|].
      assert (Qabs (100 * q0) * (1 # 9007199254740992)
              <= 100 * (y * (1 + (1 # 9007199254740992)) + e)
                 * (1 # 9007199254740992))
        by (apply Qmult_le_compat_r; [exact Hq|discriminate]).
      lra. }
    clear Ek Hq Ec Eq0.
    apply Qabs_Qle_condition in Eq0', Ek'. apply Qabs_Qle_condition. lra.
  - exfalso.
    assert (Hq : Qabs (100 * q0) <= B).
    { set (e := leastError) in *. clearbody T T' B e.
      apply Qabs_Qle_condition in Eq0'. apply Qabs_Qle_condition. lra. }
    apply (Qlt_not_le _ _ Hover). exact Hq.
Qed.

(** C8.  For a finite principal above 0 and at most 1e305, a rate equal to
    0 and a finite term of at least one month ([termYears * 12 >= 1], a
    finite number), [calculatePrincipalAndInterest] takes the zero-rate
    branch, which does not call [Math.pow], and returns the principal
    divided by the number of months, rounded to two decimals: there is a
    whole number [cents], within one half (and three relative rounding
    errors of binary64) of one hundred times the exact quotient, such that
    the number returned is finite and is [cents / 100] to within one
    rounding of binary64. *)
Theorem calculatePrincipalAndInterest_zero_rate_cents
    (Math_pow : number -> number -> number)
    (loanAmount annualRate termYears : number) :
  is_finite loanAmount = true -> (0 <? loanAmount)%float = true ->
  (loanAmount <=? 1e305)%float = true ->
  (annualRate =? 0)%float = true ->
  is_finite termYears = true -> is_finite (termYears * 12)%float = true ->
  (1 <=? termYears * 12)%float = true ->
  exists payment principal months paid cents,
    calculatePrincipalAndInterest Math_pow loanAmount annualRate termYears
    = Ok payment /\
    payment = roundToCents (loanAmount / (termYears * 12))%float /\
    exactValue loanAmount = Some principal /\
    exactValue (termYears * 12)%float = Some months /\
    exactValue payment = Some paid /\
    Qabs (inject_Z cents - 100 * (principal / months))
    <= (1 # 2) + 100 * (principal / months) * (3 * unitRoundoff)
       + 102 * leastError /\
    Qabs (paid - inject_Z cents * (1 # 100))
    <= Qabs (inject_Z cents * (1 # 100)) * unitRoundoff + leastError.
Proof.
  intros HfP HP H305 Hr HfT HfM HM.
  exists (roundToCents (loanAmount / (termYears * 12))%float).
  pose proof HfP as HfP'.
  apply is_finite_exactValue in HfP'. destruct HfP' as (qL & HL).
  apply is_finite_exactValue in HfM. destruct HfM as (qD & HD).
  pose proof (ltb_0_value loanAmount qL HP HL) as HL0.
  destruct exactValue_1e305 as (c305 & Hc305 & E305).
  apply (leb_value loanAmount 1e305 qL c305 HL Hc305) in H305.
  destruct exactValue_one as (c1 & Hc1 & E1).
  pose proof HM as HM'.
  apply (leb_value 1 (termYears * 12)%float c1 qD Hc1 HD) in HM'.
  rewrite E1 in HM'.
  destruct pow2_1015 as (HT0 & HT1 & HT2).
  set (T := 2 ^ 1015) in *. set (T' := 2 ^ 1014) in *. set (B := 2 ^ 1023) in *.
  assert (HDpos : 0 < qD) by lra.
  assert (HY0 : 0 <= qL / qD) by (apply Qle_shift_div_l; lra).
  assert (HY1 : qL / qD <= qL).
  { apply Qle_shift_div_r; [exact HDpos|].
    setoid_replace qL with (qL * 1) at 1 by ring.
    rewrite !(Qmult_comm qL). apply Qmult_le_compat_r; lra. }
  destruct (div_error loanAmount (termYears * 12)%float qL qD HL HD)
    as (q0 & Hq0 & Eq0).
  { intros H. rewrite H in HDpos. lra. }
  { rewrite Qabs_pos by exact HY0. change (2 ^ 1023) with B.
    clearbody T T' B. lra. }
  destruct (roundToCents_rounded _ q0 (qL / qD) Hq0 HY0) as (k & c & Hc & Ek & Ec).
  { fold T. clearbody T T' B. lra. }
  { exact Eq0. }
  exists qL, qD, c, k. split.
  { apply calculatePrincipalAndInterest_zero_rate; auto. }
  repeat split; assumption.
Qed.

Lemma calculatePrincipalAndInterest_zero_rate_cents_witness :
  exists payment principal months paid cents,
    calculatePrincipalAndInterest powWhole 100000%float 0%float 10%float
    = Ok payment /\
    payment = roundToCents (100000 / (10 * 12))%float /\
    exactValue 100000%float = Some principal /\
    exactValue (10 * 12)%float = Some months /\
    exactValue payment = Some paid /\
    Qabs (inject_Z cents - 100 * (principal / months))
    <= (1 # 2) + 100 * (principal / months) * (3 * unitRoundoff)
       + 102 * leastError /\
    Qabs (paid - inject_Z cents * (1 # 100))
    <= Qabs (inject_Z cents * (1 # 100)) * unitRoundoff + leastError.
Proof.
  apply (calculatePrincipalAndInterest_zero_rate_cents powWhole
           100000%float 0%float 10%float); reflexivity.
Defined.

(** C8 fails on the code: for a principal of 1e308 at 0% over one year the
    quotient, about 8.3e306, is finite, but [roundToCents] multiplies it by
    100, which overflows, and the payment returned is Infinity. *)
Lemma calculatePrincipalAndInterest_zero_rate_overflow :
  is_finite 1e308%float = true /\ (0 <? 1e308)%float = true /\
  (1 <=? 1 * 12)%float = true /\
  is_finite (1e308 / (1 * 12))%float = true /\
  calculatePrincipalAndInterest powWhole 1e308%float 0%float 1%float
  = Ok infinity.
Proof. repeat split; reflexivity. Qed.

End ZeroRate.

Section Annuity.

#[local] Open Scope Q_scope.

(** X22.  At a rate equal to 0, [calculateFutureValueAnnuity] on an accepted
    payment and number of periods whose product is at most 1e305 takes the
    branch that does not call [Math.pow] and returns the payment times the
    periods, rounded to two decimals: there is a whole number [cents],
    within one half (and three relative rounding errors of binary64) of one
    hundred times the exact product, such that the number returned is
    finite and is [cents / 100] to within one rounding of binary64. *)
Theorem calculateFutureValueAnnuity_zero_rate_cents
    (Math_pow : number -> number -> number) (payment rate periods : number) :
  acceptable payment = true -> (rate =? 0)%float = true ->
  acceptable periods = true ->
  (payment * periods <=? 1e305)%float = true ->
  exists futureValue a b paid cents,
    calculateFutureValueAnnuity Math_pow payment rate periods = Ok futureValue /\
    futureValue = roundToCents (payment * periods)%float /\
    exactValue payment = Some a /\ exactValue periods = Some b /\
    exactValue futureValue = Some paid /\
    Qabs (inject_Z cents - 100 * (a * b))
    <= (1 # 2) + 100 * (a * b) * (3 * unitRoundoff) + 102 * leastError /\
    Qabs (paid - inject_Z cents * (1 # 100))
    <= Qabs (inject_Z cents * (1 # 100)) * unitRoundoff + leastError.
Proof.
  intros Hp Hr Hn H305.
  exists (roundToCents (payment * periods)%float).
  assert (Hcall : calculateFutureValueAnnuity Math_pow payment rate periods
                  = Ok (roundToCents (payment * periods)%float)).
  { unfold calculateFutureValueAnnuity.
    rewrite (validateNumber_acceptable payment) by assumption.
    rewrite (validateNumber_acceptable rate) by (apply eqb_0_acceptable, Hr).
    rewrite (validateNumber_acceptable periods) by assumption.
    cbn [bind numberOf]. rewrite Hr. reflexivity. }
  cbn [acceptable] in Hp, Hn.
  apply andb_prop in Hp, Hn. destruct Hp as [Hpf Hp0], Hn as [Hnf Hn0].
  apply is_finite_exactValue in Hpf, Hnf.
  destruct Hpf as (a & Ha), Hnf as (b & Hb).
  assert (Ha0 : 0 <= a).
  { destruct (Qlt_le_dec a 0) as [H|H]; [|exact H].
    apply (ltb_value payment 0 a 0 Ha eq_refl) in H.
    rewrite H in Hp0. discriminate Hp0. }
  assert (Hb0 : 0 <= b).
  { destruct (Qlt_le_dec b 0) as [H|H]; [|exact H].
    apply (ltb_value periods 0 b 0 Hb eq_refl) in H.
    rewrite H in Hn0. discriminate Hn0. }
  assert (Hab : 0 <= a * b) by (apply Qmult_le_0_compat; assumption).
  destruct exactValue_1e305 as (c305 & Hc305 & E305).
  destruct pow2_1015 as (HT0 & HT1 & HT2).
  destruct (mul_cases payment periods a b Ha Hb) as [(q0 & Hq0 & Eq0)|[Hinf _]].
  2:{ rewrite (proj2 (Qle_bool_iff 0 (a * b)) Hab) in Hinf.
      rewrite Hinf in H305. vm_compute in H305. discriminate H305. }
  apply (leb_value _ 1e305 q0 c305 Hq0 Hc305) in H305.
  destruct (roundToCents_rounded _ q0 (a * b) Hq0 Hab) as (k & c & Hc & Ek & Ec).
  { pose proof (error_weaken _ _ Eq0) as Eq0'.
    rewrite (Qabs_pos (a * b)) in Eq0' by exact Hab.
    set (T := 2 ^ 1015) in *. set (T' := 2 ^ 1014) in *.
    set (y := a * b) in *. clearbody T T' y.
    apply Qabs_Qle_condition in Eq0'. lra. }
  { exact Eq0. }
  exists a, b, c, k. repeat split; assumption.
Qed.

Lemma calculateFutureValueAnnuity_zero_rate_cents_witness :
  exists futureValue a b paid cents,
    calculateFutureValueAnnuity powWhole 100%float 0%float 12%float
    = Ok futureValue /\
    futureValue = roundToCents (100 * 12)%float /\
    exactValue 100%float = Some a /\ exactValue 12%float = Some b /\
    exactValue futureValue = Some paid /\
    Qabs (inject_Z cents - 100 * (a * b))
    <= (1 # 2) + 100 * (a * b) * (3 * unitRoundoff) + 102 * leastError /\
    Qabs (paid - inject_Z cents * (1 # 100))
    <= Qabs (inject_Z cents * (1 # 100)) * unitRoundoff + leastError.
Proof.
  apply (calculateFutureValueAnnuity_zero_rate_cents powWhole
           100%float 0%float 12%float); reflexivity.
Defined.

End Annuity.

Section Conservation.

#[local] Open Scope Q_scope.

(** C7.  For a valid loan in the range that the request validation lets
    through (a principal of at most 100,000,000, a rate of at most 50
    percent, at most 600 months) and a [Math.pow] whose result lies between
    1 and 1e300, [generateAmortizationSchedule] returns a schedule whose
    last balance is exactly 0, in which every balance is finite and no
    [roundToCents] of a balance moves it by more than a cent, and in which
    the sum of [principalPayment] over the rows, taken in the rationals, is
    within one cent per row of the principal. *)
Theorem generateAmortizationSchedule_principal_within_cents
    (Math_pow : number -> number -> number)
    (loanAmount interestRate loanTerm : number) (n : Z) (fuel : nat) :
  validLoan loanAmount interestRate loanTerm n ->
  inRange loanAmount interestRate n ->
  powInRange Math_pow interestRate loanTerm ->
  (Z.to_nat n <= fuel)%nat ->
  exists rows e,
    generateAmortizationSchedule Math_pow fuel loanAmount interestRate loanTerm
    = Some (Ok (rows ++ [e])) /\
    remainingBalance e = 0%float /\
    roundedWithinCent loanAmount (rows ++ [e]) = true /\
    withinCentPerEntry loanAmount (rows ++ [e]) = true.
Proof.
  intros Hv Hr Hpow Hfuel.
  destruct (schedule_in_range Math_pow loanAmount interestRate loanTerm n fuel
              Hv Hr Hpow Hfuel)
    as (rows & e & qL & fI & fA & sI & Hgen & Hzero & Hw & _).
  exists rows, e. repeat split; try assumption.
  apply withinCentPerEntry_of_roundedWithinCent; assumption.
Qed.

Lemma generateAmortizationSchedule_principal_within_cents_witness :
  exists rows e,
    generateAmortizationSchedule powWhole 360 300000%float 4.5%float 30%float
    = Some (Ok (rows ++ [e])) /\
    remainingBalance e = 0%float /\
    roundedWithinCent 300000%float (rows ++ [e]) = true /\
    withinCentPerEntry 300000%float (rows ++ [e]) = true.
Proof.
  apply (generateAmortizationSchedule_principal_within_cents
           powWhole 300000%float 4.5%float 30%float 360%Z 360%nat).
  - repeat split; try reflexivity; lia.
  - repeat split; try reflexivity; lia.
  - right. split; vm_compute; reflexivity.
  - reflexivity.
Defined.

(** C6.  For a valid loan in that range, a [Math.pow] whose result lies
    between 1 and 1e300 and a payoff date that can be formatted,
    [getLoanSummary] returns a summary in which [totals.totalPayments] is
    [roundToCents] of the sum of [paymentAmount] over the schedule (the
    second definition of the key, which is the one that takes effect),
    [totals.totalInterest] is [roundToCents] of the sum of
    [interestPayment], [totals.totalPrincipal] is the principal, and
    [totalPayments] is within two cents per row of the schedule, and one
    cent, of the principal plus [totalInterest]. *)
Theorem getLoanSummary_totalPayments_within_cents
    (Math_pow : number -> number -> number)
    {PayoffDate : Type} (calculatePayoffDate : number -> option PayoffDate)
    (fuel : nat) (loanAmount interestRate loanTerm : number) (n : Z)
    (propertyTax insurance pmi hoaFees fees : option number)
    (date : PayoffDate) :
  validLoan loanAmount interestRate loanTerm n ->
  inRange loanAmount interestRate n ->
  powInRange Math_pow interestRate loanTerm ->
  (Z.to_nat n <= fuel)%nat ->
  calculatePayoffDate loanTerm = Some date ->
  exists s schedule,
    getLoanSummary Math_pow calculatePayoffDate fuel loanAmount interestRate
      loanTerm propertyTax insurance pmi hoaFees fees = Some (Ok s) /\
    generateAmortizationSchedule Math_pow fuel loanAmount interestRate loanTerm
    = Some (Ok schedule) /\
    get (totals s) "totalPayments"
    = Some (roundToCents (sumOf paymentAmount schedule)) /\
    get (totals s) "totalInterest"
    = Some (roundToCents (sumOf interestPayment schedule)) /\
    get (totals s) "totalPrincipal" = Some loanAmount /\
    totalsAgree loanAmount (roundToCents (sumOf paymentAmount schedule))
      (roundToCents (sumOf interestPayment schedule)) (List.length schedule)
    = true.
Proof.
  intros Hv Hr Hpow Hfuel Hdate.
  destruct (schedule_in_range Math_pow loanAmount interestRate loanTerm n fuel
              Hv Hr Hpow Hfuel)
    as (rows & e & qL & fI & fA & sI & Hgen & Hzero & Hw & HL & HL0 & HL1
        & HfI & HfA & Hlen & EI & EA & Hs0 & Hs1).
  destruct (getLoanSummary_of_schedule Math_pow calculatePayoffDate fuel
              loanAmount interestRate loanTerm propertyTax insurance pmi
              hoaFees fees _ Hgen) as (payment & apr & _ & _ & Hsum).
  cbn [numberOf] in Hsum. rewrite Hdate in Hsum.
  eexists. exists (rows ++ [e]). split; [exact Hsum|]. split; [exact Hgen|].
  cbn [totals]. split; [reflexivity|]. split; [reflexivity|].
  split; [reflexivity|].
  set (N := inject_Z (Z.of_nat (List.length (rows ++ [e])))) in *.
  assert (HN : 1 <= N /\ N <= 600).
  { unfold N. split; [change 1 with (inject_Z 1)|change 600 with (inject_Z 600)];
      rewrite <- Zle_Qle; [|lia].
    rewrite length_app. cbn [List.length]. lia. }
  assert (E42 : 2 ^ 42 == 4398046511104) by reflexivity.
  destruct (roundToCents_error _ fA HfA) as (paid & Hpaid & Epaid).
  { rewrite E42. clearbody N. qabs. lra. }
  destruct (roundToCents_error _ fI HfI) as (interest & Hint & Eint).
  { rewrite E42. clearbody N. qabs. lra. }
  unfold totalsAgree. rewrite HL, Hpaid, Hint. apply Qle_bool_iff.
  rewrite inject_Z_plus, inject_Z_mult. fold N.
  change (inject_Z 2) with 2. change (inject_Z 1) with 1.
  clearbody N. clear E42. qabs. lra.
Qed.

Lemma getLoanSummary_totalPayments_within_cents_witness :
  exists s schedule,
    getLoanSummary powWhole (fun _ => Some tt) 360 300000%float 4.5%float
      30%float (Some 3600%float) None None None (Some 1000%float)
    = Some (Ok s) /\
    generateAmortizationSchedule powWhole 360 300000%float 4.5%float 30%float
    = Some (Ok schedule) /\
    get (totals s) "totalPayments"
    = Some (roundToCents (sumOf paymentAmount schedule)) /\
    get (totals s) "totalInterest"
    = Some (roundToCents (sumOf interestPayment schedule)) /\
    get (totals s) "totalPrincipal" = Some 300000%float /\
    totalsAgree 300000%float (roundToCents (sumOf paymentAmount schedule))
      (roundToCents (sumOf interestPayment schedule)) (List.length schedule)
    = true.
Proof.
  apply (getLoanSummary_totalPayments_within_cents powWhole (fun _ => Some tt)
           360 300000%float 4.5%float 30%float 360%Z (Some 3600%float)
           None None None (Some 1000%float) tt).
  - repeat split; try reflexivity; lia.
  - repeat split; try reflexivity; lia.
  - right. split; vm_compute; reflexivity.
  - reflexivity.
  - reflexivity.
Defined.

End Conservation.
